(** * A shallow embedding of the Go generator for GraphQL documents

    The development follows [go.go] of package [golang]: the emission buffer
    with its indent ([Generator], [P], [In], [Out], [Reset]), the type and
    value printers ([printType], [printVal]), the seven declaration
    emitters, option resolution ([getOptions]) and the driver ([Generate]).

    Conventions of the embedding:
    - a Go [string] or [[]byte] is a [string] whose characters are bytes;
    - the receiver [g *Generator] is threaded explicitly: a method that only
      writes is a transformer [Gen := Generator -> Generator];
    - a run-time panic of the Go code is the result [Panic];
    - an [error] is the text of its [Error()] method;
    - the embedded [sync.Mutex] is not modelled: every function here is one
      sequential call. *)

From Stdlib Require Import String Ascii List ZArith Lia Bool DecimalString.
Import ListNotations.
Local Open Scope string_scope.

Set Implicit Arguments.

(** ** Bytes and strings *)

Definition quote : ascii := "034"%char.
Definition tab : ascii := "009"%char.
Definition newline : ascii := "010"%char.

(** The one-byte string holding [c]. *)
Definition str1 (c : ascii) : string := String c EmptyString.

Definition q : string := str1 quote.
Definition nl : string := str1 newline.

(** [len(s)] as a Go [int]. *)
Definition len (s : string) : Z := Z.of_nat (String.length s).

(** [s[:len(s)-1]] for a non-empty [s]: all bytes but the last. *)
Definition dropLast (s : string) : string :=
  substring 0 (String.length s - 1) s.

(** What a run of Go code can end in besides a value. *)
Inductive Res (A : Type) : Type :=
| Done (a : A)
| Panic (msg : string).
Arguments Done {A} a.
Arguments Panic {A} msg.

(** ** The abstract syntax tree ([github.com/gqlc/graphql/ast])

    Only the fields the generator reads are kept.  A field that the Go
    code tests against [nil] is an [option]; a [oneof] is an inductive
    type. *)
Module ast.

Record Ident : Type := { Name : string }.

(** [doc.Text()] of a [*ast.DocGroup]: the generator reads nothing else
    of a doc comment. *)
Record DocGroup : Type := { Text : string }.

(** [*ast.Ident], [*ast.List] and [*ast.NonNull].  The [oneof] of a
    [List] holds any of the three; the [oneof] of a [NonNull] holds an
    identifier or a list only. *)
Inductive TypeRef : Type :=
| Ident_ (i : Ident)
| List_ (Type_ : TypeRef)
| NonNull_ (Type_ : NonNullType)
with NonNullType : Type :=
| NonNull_Ident (i : Ident)
| NonNull_List (elem : TypeRef).  (* the [*ast.List] whose element is [elem] *)

(** The value wrapped by a [NonNull], as the [interface{}] handed to the
    recursive call of [printType]. *)
Definition NonNull_unwrap (t : NonNullType) : TypeRef :=
  match t with
  | NonNull_Ident i => Ident_ i
  | NonNull_List elem => List_ elem
  end.

Scheme TypeRef_mut := Induction for TypeRef Sort Prop
  with NonNullType_mut := Induction for NonNullType Sort Prop.

Record BasicLit : Type := { Value : string }.

Inductive CompositeLit : Type :=
| CompositeLit_BasicLit (b : BasicLit)
| CompositeLit_ListLit (l : ListLit)
| CompositeLit_ObjLit (Fields : list ObjLit_Pair)
with ListLit : Type :=
| ListLit_BasicList (Values : list BasicLit)
| ListLit_CompositeList (Values : list CompositeLit)
with ObjLit_Pair : Type :=
| Pair (Key : Ident) (Val : CompositeLit).

(** [InputValue.Default] when it is not [nil]. *)
Inductive DefaultValue : Type :=
| InputValue_BasicLit (b : BasicLit)
| InputValue_CompositeLit (c : CompositeLit).

Record InputValue : Type := {
  iv_Name : Ident;
  iv_Type : option TypeRef;
  iv_Default : option DefaultValue;
  iv_Doc : option DocGroup
}.

(** Object and interface fields, enum values and root operations. *)
Record Field : Type := {
  f_Name : Ident;
  f_Args : option (list InputValue);
  f_Type : option TypeRef;
  f_Doc : option DocGroup
}.

Record SchemaType : Type := { RootOps : list Field }.
Record ObjectType : Type := { Interfaces : list Ident; obj_Fields : list Field }.
Record InterfaceType : Type := { inter_Fields : list Field }.
Record UnionType : Type := { Members : list Ident }.
Record EnumType : Type := { Values : list Field }.
Record InputType : Type := { input_Fields : list InputValue }.

(** A directive location, kept as the text of [Loc.String()]. *)
Record DirectiveLocation : Type := { Loc_String : string }.

Record DirectiveType : Type := {
  Locs : list DirectiveLocation;
  dir_Args : option (list InputValue)
}.

Inductive TypeSpec_Type : Type :=
| TypeSpec_Schema (Schema : SchemaType)
| TypeSpec_Scalar
| TypeSpec_Object (Object : ObjectType)
| TypeSpec_Interface (Interface : InterfaceType)
| TypeSpec_Union (Union : UnionType)
| TypeSpec_Enum (Enum : EnumType)
| TypeSpec_Input (Input : InputType)
| TypeSpec_Directive (Directive : DirectiveType).

Record TypeSpec : Type := { ts_Name : Ident; ts_Type : TypeSpec_Type }.

(** [TypeDecl.Spec]: a type specification or a type extension. *)
Inductive TypeDecl_Spec : Type :=
| TypeDecl_TypeSpec (ts : TypeSpec)
| TypeDecl_TypeExtSpec.

Record TypeDecl : Type := { td_Doc : option DocGroup; Spec : TypeDecl_Spec }.

(** A directive applied in the document, such as [@go(options: {...})]. *)
Inductive Arg_Value : Type :=
| Arg_BasicLit (b : BasicLit)
| Arg_CompositeLit (c : CompositeLit).

Record Arg : Type := { arg_Value : Arg_Value }.

Record DirectiveLit : Type := {
  dl_Name : string;
  dl_Args : option (list Arg)   (* [d.Args.Args] when [d.Args != nil] *)
}.

Record Document : Type := {
  doc_Name : string;
  Directives : list DirectiveLit;
  Schema : option TypeDecl;
  Types : list TypeDecl
}.

End ast.
Import ast.

(** ** The emission buffer *)

(** [Generator]: the embedded [bytes.Buffer] and the indent. *)
Record Generator : Type := { Buffer : string; indent : string }.

Definition Gen : Type := Generator -> Generator.

Definition skip : Gen := fun g => g.

Definition seq (a b : Gen) : Gen := fun g => b (a g).
Notation "a ;; b" := (seq a b) (at level 61, left associativity).

(** [for _, x := range l { body x }]. *)
Definition forEach {A : Type} (l : list A) (body : A -> Gen) : Gen :=
  fun g => fold_left (fun g x => body x g) l g.

(** [g.Write], [g.WriteString], [g.WriteByte] and [g.WriteRune] of the
    embedded buffer.  Every rune this file writes is ASCII, so
    [WriteRune] appends one byte. *)
Definition Write (p : string) : Gen :=
  fun g => {| Buffer := Buffer g ++ p; indent := indent g |}.
Definition WriteString (s : string) : Gen := Write s.
Definition WriteByte (c : ascii) : Gen := Write (str1 c).
Definition WriteRune (r : ascii) : Gen := Write (str1 r).

(** [g.Write(g.indent)]. *)
Definition WriteIndent : Gen := fun g => Write (indent g) g.

(** [Reset]: empties the buffer and truncates the indent to length 0. *)
Definition Reset : Gen :=
  fun _ => {| Buffer := EmptyString; indent := EmptyString |}.

Definition typeSuffix : string := "Type".

(** The dynamic type of one argument of [P].  [PIdent] is a [*ast.Ident]:
    no case of the type switch in [P] matches it.  No call passes a
    [float64], so that case is left out. *)
Inductive PArg : Type :=
| PBytes (v : string)
| PByte (v : ascii)
| PRune (v : ascii)
| PString (v : string)
| PBool (v : bool)
| PInt (v : Z)
| PIdent (v : Ident).

(** [fmt.Fprint] of a [bool] and of an [int]. *)
Definition Fprint_bool (v : bool) : string := if v then "true" else "false".
Definition Fprint_int (v : Z) : string := NilZero.string_of_int (Z.to_int v).

Definition P_arg (s : PArg) : Gen :=
  match s with
  | PBytes v => Write v
  | PByte v => WriteByte v
  | PRune v => WriteRune v
  | PString v => WriteString v
  | PBool v => Write (Fprint_bool v)
  | PInt v => Write (Fprint_int v)
  | PIdent _ => skip
  end.

(** [P] prints the arguments to the generated output. *)
Definition P (str : list PArg) : Gen :=
  WriteIndent ;; forEach str P_arg ;; WriteByte newline.

(** [In] increases the indent. *)
Definition In : Gen :=
  fun g => {| Buffer := Buffer g; indent := indent g ++ str1 tab |}.

(** [Out] decreases the indent. *)
Definition Out : Gen :=
  fun g =>
    if (0 <? len (indent g))%Z
    then {| Buffer := Buffer g; indent := dropLast (indent g) |}
    else g.

(** ** Type and value printers *)

Definition printIdent (v : Ident) : Gen :=
  let name := Name v in
  let name :=
    if name =? "Int" then "graphql.Int"
    else if name =? "Float" then "graphql.Float"
    else if name =? "String" then "graphql.String"
    else if name =? "Boolean" then "graphql.Boolean"
    else if name =? "ID" then "graphql.ID"
    else name ++ "Type" in
  WriteString name.

(** [printType] prints a field type.  The [*ast.NonNull] case calls
    [printType] on the wrapped identifier or list; for a list that call
    is written out here (see [printType_NonNull] for the recursive
    reading). *)
Fixpoint printType (typ : TypeRef) : Gen :=
  match typ with
  | Ident_ v => printIdent v
  | List_ w =>
      WriteString "graphql.NewList(" ;; printType w ;; WriteByte ")"
  | NonNull_ w =>
      WriteString "graphql.NewNonNull(" ;;
      match w with
      | NonNull_Ident v => printIdent v
      | NonNull_List elem =>
          WriteString "graphql.NewList(" ;; printType elem ;; WriteByte ")"
      end ;;
      WriteByte ")"
  end.

(** [printType(fieldType)] where [fieldType] is the [interface{}] filled
    by the switch over a [oneof]: [nil] when the [oneof] is unset, and
    then no case of [printType] matches. *)
Definition printTypeOf (typ : option TypeRef) : Gen :=
  match typ with
  | Some t => printType t
  | None => skip
  end.

(** The loop [for i, x := range xs { body x; if i != last { sep } }]. *)
Fixpoint rangeSep {A : Type} (body : A -> Gen) (sep : Gen)
    (last : Z) (i : Z) (xs : list A) : Gen :=
  match xs with
  | [] => skip
  | x :: rest =>
      body x ;;
      (if (i =? last)%Z then skip else sep) ;;
      rangeSep body sep last (i + 1) rest
  end.

Definition printBasicLit (v : BasicLit) : Gen := WriteString (Value v).

(** [printVal] prints a value: the cases [*ast.CompositeLit] and
    [*ast.ObjLit] in [printVal], the case [*ast.ListLit] in
    [printListLit].  The two loops that call [printVal] are written in
    place, with their index; [printListLit_CompositeList] reads the one
    over a list as [rangeSep]. *)
Fixpoint printVal (v : CompositeLit) : Gen :=
  match v with
  | CompositeLit_BasicLit b => printBasicLit b
  | CompositeLit_ListLit l => printListLit l
  | CompositeLit_ObjLit fields =>
      WriteByte "{" ;; WriteByte " " ;;
      (fix loop (i : Z) (ps : list ObjLit_Pair) : Gen :=
         match ps with
         | [] => skip
         | Pair k x :: rest =>
             WriteString (Name k) ;; WriteString ": " ;;
             printVal x ;;
             (if (i =? Z.of_nat (List.length fields) - 1)%Z
              then skip else WriteByte ",") ;;
             WriteByte " " ;;
             loop (i + 1)%Z rest
         end) 0%Z fields ;;
      WriteByte "}"
  end
with printListLit (v : ListLit) : Gen :=
  match v with
  | ListLit_BasicList vals =>
      WriteString "[]interface{}{" ;;
      rangeSep printBasicLit (WriteByte "," ;; WriteByte " ")
        (Z.of_nat (List.length vals) - 1) 0 vals ;;
      WriteByte "}"
  | ListLit_CompositeList vals =>
      WriteString "[]interface{}{" ;;
      (fix loop (i : Z) (vs : list CompositeLit) : Gen :=
         match vs with
         | [] => skip
         | x :: rest =>
             printVal x ;;
             (if (i =? Z.of_nat (List.length vals) - 1)%Z
              then skip else (WriteByte "," ;; WriteByte " ")) ;;
             loop (i + 1)%Z rest
         end) 0%Z vals ;;
      WriteByte "}"
  end.

(** [printVal(defType)] for the default value of an input value. *)
Definition printDefault (d : DefaultValue) : Gen :=
  match d with
  | InputValue_BasicLit b => printBasicLit b
  | InputValue_CompositeLit c => printVal c
  end.

(** [printDescr]: the description field, without its line end. *)
Definition printDescr (doc : DocGroup) : Gen :=
  let text := Text doc in
  if (0 <? len text)%Z
  then WriteIndent ;; WriteString ("Description: " ++ q) ;;
       WriteString (dropLast text) ;;
       WriteByte quote ;; WriteByte ","
  else skip.

(** [if doc != nil && descr { g.printDescr(doc); g.WriteByte('\n') }]. *)
Definition descrField (descr : bool) (doc : option DocGroup) : Gen :=
  match doc with
  | Some d => if descr then printDescr d ;; WriteByte newline else skip
  | None => skip
  end.

(** ** Declaration emitters

    Each emitter receives the payload that its first statement extracts
    from [ts.Type] by a type assertion; [Generate] calls an emitter only
    after a switch on that same type, so the assertion cannot fail. *)

(** The [Name] field: the name between quotes, then a comma. *)
Definition nameField (name : string) : Gen :=
  P [PString ("Name: " ++ q); PString name; PString (q ++ ",")].

(** The description of [generateScalar] and [generateDirective], printed
    through [P]. *)
Definition descrP (descr : bool) (doc : option DocGroup) : Gen :=
  match doc with
  | Some d =>
      if descr then
        let text := Text d in
        if (0 <? len text)%Z
        then P [PString ("Description: " ++ q); PString (dropLast text);
                PString (q ++ ",")]
        else skip
      else skip
  | None => skip
  end.

Definition generateScalar (name : string) (descr : bool)
    (doc : option DocGroup) : Gen :=
  P [PString "NewScalar(graphql.ScalarConfig{"] ;;
  In ;;
  nameField name ;;
  descrP descr doc ;;
  P [PString "Serialize: func(value interface{}) interface{} { return nil }, // TODO"] ;;
  Out ;;
  P [PString "})"].

(** [if a.Default != nil { ... }] of the object, input and directive
    emitters. *)
Definition defaultField (d : option DefaultValue) : Gen :=
  match d with
  | Some v =>
      WriteIndent ;; WriteString "DefaultValue: " ;;
      printDefault v ;;
      WriteByte "," ;; WriteByte newline
  | None => skip
  end.

(** One argument of an object field and of a directive: the two loop
    bodies are the same statements. *)
Definition argumentConfig (descr : bool) (a : InputValue) : Gen :=
  P [PRune quote; PString (Name (iv_Name a)); PRune quote;
     PString ": &graphql.ArgumentConfig{"] ;;
  In ;;
  WriteIndent ;; WriteString "Type: " ;;
  printTypeOf (iv_Type a) ;;
  WriteByte "," ;; WriteByte newline ;;
  defaultField (iv_Default a) ;;
  descrField descr (iv_Doc a) ;;
  Out ;;
  P [PString "},"].

(** [if f.Args != nil { ... }] of [generateObject] and the same block of
    [generateDirective]. *)
Definition argsField (descr : bool) (args : option (list InputValue)) : Gen :=
  match args with
  | Some l =>
      P [PString "Args: graphql.FieldConfigArgument{"] ;;
      In ;;
      forEach l (argumentConfig descr) ;;
      Out ;;
      P [PString "},"]
  | None => skip
  end.

Definition resolveField : Gen :=
  P [PString "Resolve: func(p graphql.ResolveParams) (interface{}, error) { return nil, nil }, // TODO"].

(** The body of the loop over [obj.Fields.List]. *)
Definition objectField (descr : bool) (f : Field) : Gen :=
  P [PRune quote; PString (Name (f_Name f)); PRune quote;
     PString ": &graphql.Field{"] ;;
  In ;;
  WriteIndent ;; WriteString "Type: " ;;
  printTypeOf (f_Type f) ;;
  WriteByte "," ;; WriteByte newline ;;
  argsField descr (f_Args f) ;;
  resolveField ;;
  descrField descr (f_Doc f) ;;
  Out ;;
  P [PString "},"].

Definition generateObject (name : string) (descr : bool)
    (doc : option DocGroup) (obj : ObjectType) : Gen :=
  P [PString "NewObject(graphql.ObjectConfig{"] ;;
  In ;;
  nameField name ;;
  (* interLen == 1 *)
  match Interfaces obj with
  | [i0] =>
      WriteIndent ;;
      WriteString "Interfaces: []*graphql.Interface{ " ;;
      WriteString (Name i0) ;;
      Write typeSuffix ;;
      WriteByte " " ;; WriteByte "}" ;; WriteByte "," ;; WriteByte newline
  | _ => skip
  end ;;
  (if (1 <? Z.of_nat (List.length (Interfaces obj)))%Z then
     WriteIndent ;;
     WriteString "Interfaces: []*graphql.Interface{" ;;
     WriteByte newline ;;
     In ;;
     forEach (Interfaces obj)
       (fun inter => P [PString (Name inter); PBytes typeSuffix; PString ","]) ;;
     Out ;;
     P [PString "},"]
   else skip) ;;
  P [PString "Fields: graphql.Fields{"] ;;
  In ;;
  forEach (obj_Fields obj) (objectField descr) ;;
  Out ;;
  P [PString "},"] ;;
  descrField descr doc ;;
  Out ;;
  P [PString "})"].

(** One argument of an interface field. *)
Definition interfaceArgumentConfig (descr : bool) (a : InputValue) : Gen :=
  P [PRune quote; PString (Name (iv_Name a)); PRune quote;
     PString ": &graphql.ArgumentConfig{"] ;;
  In ;;
  WriteIndent ;; WriteString "Type: " ;;
  printTypeOf (iv_Type a) ;;
  match iv_Default a with
  | Some v =>
      WriteByte newline ;;
      WriteIndent ;; WriteString "DefaultValue: " ;;
      printDefault v ;;
      WriteByte "," ;; WriteByte newline
  | None => skip
  end ;;
  descrField descr (iv_Doc a) ;;
  Out ;;
  P [PString "},"].

(** The body of the loop over [inter.Fields.List]. *)
Definition interfaceField (descr : bool) (f : Field) : Gen :=
  P [PRune quote; PString (Name (f_Name f)); PString (q ++ ": &graphql.Field{")] ;;
  In ;;
  WriteIndent ;; WriteString "Type: " ;;
  printTypeOf (f_Type f) ;;
  WriteByte "," ;; WriteByte newline ;;
  match f_Args f with
  | Some l =>
      P [PString "Args: graphql.FieldConfigArgument{"] ;;
      In ;;
      forEach l (interfaceArgumentConfig descr) ;;
      Out ;;
      P [PString "},"]
  | None => skip
  end ;;
  descrField descr (f_Doc f) ;;
  Out ;;
  P [PString "},"].

Definition generateInterface (name : string) (descr : bool)
    (doc : option DocGroup) (inter : InterfaceType) : Gen :=
  P [PString "NewInterface(graphql.InterfaceConfig{"] ;;
  In ;;
  nameField name ;;
  P [PString "Fields: graphql.Fields{"] ;;
  In ;;
  forEach (inter_Fields inter) (interfaceField descr) ;;
  Out ;;
  P [PString "},"] ;;
  descrField descr doc ;;
  Out ;;
  P [PString "})"].

Definition generateUnion (name : string) (descr : bool)
    (doc : option DocGroup) (union : UnionType) : Gen :=
  P [PString "NewUnion(graphql.UnionConfig{"] ;;
  In ;;
  nameField name ;;
  (* memsLen == 1: the argument [union.Members[0]] is a [*ast.Ident] *)
  match Members union with
  | [m0] =>
      P [PString "Types: []*graphql.Object{ "; PIdent m0; PBytes typeSuffix;
         PString " },"]
  | _ => skip
  end ;;
  (if (1 <? Z.of_nat (List.length (Members union)))%Z then
     P [PString "Types: []*graphql.Object{"] ;;
     In ;;
     forEach (Members union)
       (fun mem => P [PString (Name mem); PBytes typeSuffix; PRune ","]) ;;
     Out ;;
     P [PString "},"]
   else skip) ;;
  P [PString "ResolveType: func(p graphql.ResolveParams) *graphql.Object { return nil }, // TODO"] ;;
  descrField descr doc ;;
  Out ;;
  P [PString "})"].

(** The body of the loop over [enum.Values.List]. *)
Definition enumValue (descr : bool) (v : Field) : Gen :=
  P [PRune quote; PString (Name (f_Name v)); PRune quote;
     PString ": &graphql.EnumValueConfig{"] ;;
  In ;;
  P [PString ("Value: " ++ q); PString (Name (f_Name v)); PString (q ++ ",")] ;;
  descrField descr (f_Doc v) ;;
  Out ;;
  P [PString "},"].

Definition generateEnum (name : string) (descr : bool)
    (doc : option DocGroup) (enum : EnumType) : Gen :=
  P [PString "NewEnum(graphql.EnumConfig{"] ;;
  In ;;
  nameField name ;;
  descrField descr doc ;;
  P [PString "Values: graphql.EnumValueConfigMap{"] ;;
  In ;;
  forEach (Values enum) (enumValue descr) ;;
  Out ;;
  P [PString "},"] ;;
  Out ;;
  P [PString "})"].

(** The body of the loop over [input.Fields.List]. *)
Definition inputField (descr : bool) (f : InputValue) : Gen :=
  P [PRune quote; PString (Name (iv_Name f)); PRune quote;
     PString ": &graphql.InputObjectFieldConfig{"] ;;
  In ;;
  WriteIndent ;; WriteString "Type: " ;;
  printTypeOf (iv_Type f) ;;
  WriteByte "," ;; WriteByte newline ;;
  defaultField (iv_Default f) ;;
  Out ;;
  descrField descr (iv_Doc f) ;;
  P [PString "},"].

Definition generateInput (name : string) (descr : bool)
    (doc : option DocGroup) (input : InputType) : Gen :=
  P [PString "NewInputObject(graphql.InputObjectConfig{"] ;;
  In ;;
  nameField name ;;
  P [PString "Fields: graphql.InputObjectFieldConfigMap{"] ;;
  In ;;
  forEach (input_Fields input) (inputField descr) ;;
  Out ;;
  P [PString "},"] ;;
  descrField descr doc ;;
  Out ;;
  P [PString "})"].

(** The [Locations] field of [generateDirective]: the two [if]
    statements on [locsLen]. *)
Definition locationsField (locs : list DirectiveLocation) : Gen :=
  (* locsLen == 1 *)
  match locs with
  | [l0] => P [PString "Locations: []string{ "; PString (Loc_String l0); PString " }"]
  | _ => skip
  end ;;
  (if (1 <? Z.of_nat (List.length locs))%Z then
     P [PString "Locations: []string{"] ;;
     In ;;
     forEach locs
       (fun loc => P [PRune quote; PString (Loc_String loc); PString (q ++ ",")]) ;;
     Out ;;
     P [PString "},"]
   else skip).

Definition generateDirective (name : string) (descr : bool)
    (doc : option DocGroup) (directive : DirectiveType) : Gen :=
  P [PString "NewDirective(graphql.DirectiveConfig{"] ;;
  In ;;
  nameField name ;;
  descrP descr doc ;;
  locationsField (Locs directive) ;;
  argsField descr (dir_Args directive) ;;
  Out ;;
  P [PString "})"].

(** ** Option resolution *)

(** [Options] contains the options for the Go generator. *)
Record Options : Type := { Package : string; Descriptions : bool }.

(** [strconv.Quote] of the Go standard library on the bytes below 128:
    the quote and the backslash get a backslash, the printable bytes are
    kept, the control bytes are written as their escape or as [\x] with
    two hexadecimal digits.  A byte from 128 on belongs to a multi-byte
    rune and is kept, as [Quote] keeps the printable runes. *)
Definition backslash : ascii := "092"%char.

Definition lowerhex (n : nat) : ascii :=
  nth n (list_ascii_of_string "0123456789abcdef") "0"%char.

Definition escaped (c : ascii) : string := String backslash (str1 c).

Definition quoteByte (c : ascii) : string :=
  let n := nat_of_ascii c in
  if Ascii.eqb c quote || Ascii.eqb c backslash then escaped c
  else if ((32 <=? n) && (n <? 127))%nat then str1 c
  else if (n =? 7)%nat then escaped "a"
  else if (n =? 8)%nat then escaped "b"
  else if (n =? 12)%nat then escaped "f"
  else if (n =? 10)%nat then escaped "n"
  else if (n =? 13)%nat then escaped "r"
  else if (n =? 9)%nat then escaped "t"
  else if (n =? 11)%nat then escaped "v"
  else if ((n <? 32) || (n =? 127))%nat
  then escaped "x" ++ str1 (lowerhex (n / 16)) ++ str1 (lowerhex (n mod 16))
  else str1 c.

Fixpoint quoteBytes (s : string) : string :=
  match s with
  | EmptyString => EmptyString
  | String c rest => quoteByte c ++ quoteBytes rest
  end.

Definition Quote (s : string) : string := q ++ quoteBytes s ++ q.

(** [strconv.ParseBool] of the Go standard library: the accepted
    spellings, and otherwise the message of its syntax error ([inr]). *)
Definition ParseBool (str : string) : bool + string :=
  if (str =? "1") || (str =? "t") || (str =? "T") || (str =? "TRUE")
     || (str =? "true") || (str =? "True")
  then inl true
  else if (str =? "0") || (str =? "f") || (str =? "F") || (str =? "FALSE")
          || (str =? "false") || (str =? "False")
  then inl false
  else inr ("strconv.ParseBool: parsing " ++ Quote str ++ ": invalid syntax").

(** The index expression [s[0] == c]: a panic on the empty string. *)
Definition index0_is (s : string) (c : ascii) : Res bool :=
  match s with
  | EmptyString => Panic "runtime error: index out of range [0] with length 0"
  | String c0 _ => Done (Ascii.eqb c0 c)
  end.

(** The slice expression [s[lo:hi]]: a panic unless [0 <= lo <= hi <= len(s)]. *)
Definition slice (s : string) (lo hi : Z) : Res string :=
  if ((0 <=? lo) && (lo <=? hi) && (hi <=? len s))%Z
  then Done (substring (Z.to_nat lo) (Z.to_nat (hi - lo)) s)
  else Panic "runtime error: slice bounds out of range".

(** The last statement of [getOptions]: trim the quote from the beginning
    and the end of the package string. *)
Definition trimPackage (gOpts : Options) : Res Options :=
  match index0_is (Package gOpts) quote with
  | Panic m => Panic m
  | Done false => Done gOpts
  | Done true =>
      match slice (Package gOpts) 1 (len (Package gOpts) - 1) with
      | Panic m => Panic m
      | Done p => Done {| Package := p; Descriptions := Descriptions gOpts |}
      end
  end.

Definition conversionPanic : string :=
  "interface conversion: interface holds another type".

(** The loop over [docOpts.Fields].  The result holds the options and
    the error of an early [return gOpts, err]. *)
Fixpoint docOptsLoop (fields : list ObjLit_Pair) (gOpts : Options)
    : Res (Options * option string) :=
  match fields with
  | [] => Done (gOpts, None)
  | Pair key val :: rest =>
      if Name key =? "package" then
        match val with
        | CompositeLit_BasicLit b =>
            docOptsLoop rest
              {| Package := Value b; Descriptions := Descriptions gOpts |}
        | _ => Panic conversionPanic
        end
      else if Name key =? "descriptions" then
        match val with
        | CompositeLit_BasicLit b =>
            match ParseBool (Value b) with
            | inl b' =>
                docOptsLoop rest
                  {| Package := Package gOpts; Descriptions := b' |}
            | inr err => Done (gOpts, Some err)
            end
        | _ => Panic conversionPanic
        end
      else docOptsLoop rest gOpts
  end.

(** The loop over [doc.Directives]. *)
Fixpoint directivesLoop (ds : list DirectiveLit) (gOpts : Options)
    : Res (Options * option string) :=
  match ds with
  | [] => Done (gOpts, None)
  | d :: rest =>
      if negb (dl_Name d =? "go") then directivesLoop rest gOpts
      else
        match dl_Args d with
        | None => Done (gOpts, None)     (* break *)
        | Some [] => Panic "runtime error: index out of range [0] with length 0"
        | Some (a0 :: _) =>
            match arg_Value a0 with
            | Arg_CompositeLit (CompositeLit_ObjLit docOpts) =>
                match docOptsLoop docOpts gOpts with
                | Done (gOpts', None) => directivesLoop rest gOpts'
                | r => r
                end
            | _ => Panic conversionPanic
            end
        end
  end.

Section Generate.

(** [json.Unmarshal([]byte(opts), gOpts)] of the Go standard library:
    the options as the decoder leaves them, and its error. *)
Variable json_Unmarshal : string -> Options -> Options * option string.

(** [getOptions] returns a generator options struct given all generator
    option metadata from the Doc and CLI.
    Precedence: CLI over Doc over Default. *)
Definition getOptions (doc : Document) (opts : string)
    : Res (Options * option string) :=
  match directivesLoop (Directives doc)
          {| Package := "main"; Descriptions := false |} with
  | Panic m => Panic m
  | Done (gOpts, Some err) => Done (gOpts, Some err)
  | Done (gOpts, None) =>
      let '(gOpts, err) :=
        if (0 <? len opts)%Z then json_Unmarshal opts gOpts
        else (gOpts, None) in
      match err with
      | Some e => Done (gOpts, Some e)
      | None =>
          match trimPackage gOpts with
          | Panic m => Panic m
          | Done gOpts => Done (gOpts, None)
          end
      end
  end.

(** ** The driver *)

Definition packagePrefix : string := "package ".
Definition importStmt : string :=
  "import " ++ q ++ "github.com/graphql-go/graphql" ++ q.
Definition newLines : string := nl ++ nl.

Definition writeHeader (packageName : string) : Gen :=
  Write packagePrefix ;; Write packageName ;; Write newLines ;;
  Write importStmt ;; Write newLines.

(** The variable declaration and the switch over the kind of a type
    specification that is not the schema. *)
Definition generateType (descr : bool) (doc : option DocGroup)
    (ts : TypeSpec) : Gen :=
  let name := Name (ts_Name ts) in
  WriteString "var" ;; WriteByte " " ;;
  WriteString name ;; Write typeSuffix ;;
  WriteByte " " ;; WriteByte "=" ;; WriteByte " " ;;
  WriteString "graphql" ;; WriteByte "." ;;
  match ts_Type ts with
  | TypeSpec_Scalar => generateScalar name descr doc
  | TypeSpec_Object obj => generateObject name descr doc obj
  | TypeSpec_Interface inter => generateInterface name descr doc inter
  | TypeSpec_Union union => generateUnion name descr doc union
  | TypeSpec_Enum enum => generateEnum name descr doc enum
  | TypeSpec_Input input => generateInput name descr doc input
  | TypeSpec_Directive directive => generateDirective name descr doc directive
  | TypeSpec_Schema _ => skip
  end.

(** Whether the loop over [doc.Types] emits the declaration: it skips
    what is not a type specification, and the schema. *)
Definition emitted (d : TypeDecl) : option TypeSpec :=
  match Spec d with
  | TypeDecl_TypeSpec ts =>
      match ts_Type ts with
      | TypeSpec_Schema _ => None
      | _ => Some ts
      end
  | TypeDecl_TypeExtSpec => None
  end.

(** [for i, d := range doc.Types { ... }] from index [i] on. *)
Fixpoint typesLoop (descr : bool) (totalTypes : Z) (i : Z)
    (ds : list TypeDecl) : Gen :=
  match ds with
  | [] => skip
  | d :: rest =>
      match emitted d with
      | None => skip     (* continue *)
      | Some ts =>
          generateType descr (td_Doc d) ts ;;
          (if (i =? totalTypes)%Z then skip else P [])
      end ;;
      typesLoop descr totalTypes (i + 1) rest
  end.

(** The loop over the root operations of the schema.  The second
    component is the message of a panic: the type assertion
    of [op.Type] to an identifier fails on any other type. *)
Fixpoint rootOpsLoop (rootOps : list Field) (g : Generator)
    : Generator * option string :=
  match rootOps with
  | [] => (g, None)
  | op :: rest =>
      let g := WriteIndent g in
      let opName := Name (f_Name op) in
      let g :=
        if opName =? "query" then WriteString "Query: " g
        else if opName =? "mutation" then WriteString "Mutation: " g
        else if opName =? "subscription" then WriteString "Subscription: " g
        else g in
      match f_Type op with
      | Some (Ident_ i) =>
          rootOpsLoop rest
            ((WriteString (Name i) ;; Write typeSuffix ;;
              WriteByte "," ;; WriteByte newline) g)
      | _ => (g, Some conversionPanic)
      end
  end.

(** [if doc.Schema != nil { ... }] after the loop over the types. *)
Definition schemaInit (doc : Document) (g : Generator)
    : Generator * option string :=
  match Schema doc with
  | None => (g, None)
  | Some sd =>
      let g :=
        (P [] ;;
         P [PString "func init() {"] ;;
         In ;;
         P [PString "var err error"] ;;
         P [PString "Schema, err = graphql.NewSchema(graphql.SchemaConfig{"] ;;
         In) g in
      match Spec sd with
      | TypeDecl_TypeSpec ts =>
          match ts_Type ts with
          | TypeSpec_Schema s =>
              match rootOpsLoop (RootOps s) g with
              | (g, Some m) => (g, Some m)
              | (g, None) =>
                  ((Out ;;
                    P [PString "})"] ;;
                    P [PString "if err != nil {"] ;;
                    In ;;
                    P [PString "panic(err)"] ;;
                    Out ;;
                    P [PString "}"] ;;
                    Out ;;
                    P [PString "}"]) g, None)
              end
          | _ => (g, Some conversionPanic)
          end
      | TypeDecl_TypeExtSpec => (g, Some conversionPanic)
      end
  end.

(** The header and the declarations: what [Generate] writes between
    option resolution and the schema block. *)
Definition declarations (gOpts : Options) (doc : Document) : Gen :=
  writeHeader (Package gOpts) ;;
  match Schema doc with
  | Some _ => P [PString "var Schema graphql.Schema"] ;; P []
  | None => skip
  end ;;
  typesLoop (Descriptions gOpts)
    (Z.of_nat (List.length (Types doc)) - 1) 0 (Types doc).

(** Everything [Generate] writes to its buffer once the options are
    resolved, and the message of a panic on the way. *)
Definition assemble (gOpts : Options) (doc : Document) (g : Generator)
    : Generator * option string :=
  schemaInit doc (declarations gOpts doc g).

(** [filepath.Ext]: the suffix from the last dot of the last path
    element, found by the scan from the end of the path. *)
Fixpoint Ext_scan (rev_path : list ascii) (acc : list ascii) : list ascii :=
  match rev_path with
  | [] => []
  | c :: r =>
      if Ascii.eqb c "/" then []
      else if Ascii.eqb c "." then c :: acc
      else Ext_scan r (c :: acc)
  end.

Definition Ext (path : string) : string :=
  string_of_list_ascii (Ext_scan (rev (list_ascii_of_string path)) []).

(** [doc.Name[:len(doc.Name)-len(filepath.Ext(doc.Name))]]. *)
Definition goFileName (doc : Document) : string :=
  substring 0
    (String.length (doc_Name doc) - String.length (Ext (doc_Name doc)))
    (doc_Name doc).

(** The output sink ([compiler.Context(ctx)]).  [Open] returns the two
    results of the Go method, each possibly [nil]; [Write] of the opened
    file returns a byte count and an error. *)
Record WriteCloser : Type := { wc_Write : string -> nat * option string }.
Record GeneratorContext : Type := {
  Open : string -> option WriteCloser * option string
}.

(** What [Generate] does to the sink, in order. *)
Inductive SinkEvent : Type :=
| EvOpen (filename : string)
| EvWrite (p : string)
| EvClose.

(** [compiler.GeneratorError]. *)
Record GeneratorError : Type := {
  DocName : string;
  GenName : string;
  Msg : string
}.

Inductive Outcome : Type :=
| Returned (err : option GeneratorError)
| Panicked (msg : string).

Record Run : Type := {
  outcome : Outcome;
  final : Generator;
  events : list SinkEvent
}.

(** The deferred function of [Generate]: a non-nil error is wrapped. *)
Definition wrapError (doc : Document) (err : option string) : Outcome :=
  match err with
  | Some msg =>
      Returned (Some {| DocName := doc_Name doc; GenName := "go"; Msg := msg |})
  | None => Returned None
  end.

(** [bytes.Buffer.WriteTo] of the Go standard library on the buffer of
    [g]: one [Write] of the whole content when it is not empty. *)
Definition WriteTo (g : Generator) (w : WriteCloser)
    : Res (Generator * option string) * list SinkEvent :=
  let nBytes := String.length (Buffer g) in
  if (0 <? nBytes)%nat then
    let '(m, e) := wc_Write w (Buffer g) in
    if (nBytes <? m)%nat
    then (Panic "bytes.Buffer.WriteTo: invalid Write count", [EvWrite (Buffer g)])
    else
      let rest :=
        {| Buffer := substring m (nBytes - m) (Buffer g); indent := indent g |} in
      match e with
      | Some err => (Done (rest, Some err), [EvWrite (Buffer g)])
      | None =>
          if negb (m =? nBytes)%nat
          then (Done (rest, Some "short write"), [EvWrite (Buffer g)])
          else (Done ({| Buffer := EmptyString; indent := indent g |}, None),
                [EvWrite (Buffer g)])
      end
  else (Done ({| Buffer := EmptyString; indent := indent g |}, None), []).

(** [Generate] generates Go code for the given document. *)
Definition Generate (g : Generator) (gCtx : GeneratorContext)
    (doc : Document) (opts : string) : Run :=
  let g := Reset g in
  match getOptions doc opts with
  | Panic m => {| outcome := Panicked m; final := g; events := [] |}
  | Done (_, Some oerr) =>
      {| outcome := wrapError doc (Some oerr); final := g; events := [] |}
  | Done (gOpts, None) =>
      match assemble gOpts doc g with
      | (g, Some m) => {| outcome := Panicked m; final := g; events := [] |}
      | (g, None) =>
          let filename := goFileName doc ++ ".go" in
          match Open gCtx filename with
          | (None, _) =>
              (* [defer goFile.Close()] on a nil interface value *)
              {| outcome :=
                   Panicked "runtime error: invalid memory address or nil pointer dereference";
                 final := g; events := [EvOpen filename] |}
          | (Some goFile, Some err) =>
              {| outcome := wrapError doc (Some err); final := g;
                 events := [EvOpen filename; EvClose] |}
          | (Some goFile, None) =>
              match WriteTo g goFile with
              | (Panic m, evs) =>
                  {| outcome := Panicked m; final := g;
                     events := EvOpen filename :: evs ++ [EvClose] |}
              | (Done (g, err), evs) =>
                  {| outcome := wrapError doc err; final := g;
                     events := EvOpen filename :: evs ++ [EvClose] |}
              end
          end
      end
  end.

End Generate.

(** ** The text an emitter writes *)

(** [emits e i t j]: run at indent [i], the emitter [e] appends the text
    [t] to the buffer, whatever it holds, and leaves the indent [j]. *)
Definition emits (e : Gen) (i t j : string) : Prop :=
  forall b, e {| Buffer := b; indent := i |} = {| Buffer := b ++ t; indent := j |}.

(** [runs e i j]: [e] only appends to the buffer, and takes the indent
    from [i] to [j]. *)
Definition runs (e : Gen) (i j : string) : Prop := exists t, emits e i t j.

(** The text [e] writes into an empty buffer at indent [i]. *)
Definition emit (e : Gen) (i : string) : string :=
  Buffer (e {| Buffer := EmptyString; indent := i |}).

(** The text [P] writes for one argument, and for its argument list. *)
Definition PArg_text (s : PArg) : string := emit (P_arg s) EmptyString.

Fixpoint P_text (str : list PArg) : string :=
  match str with
  | [] => EmptyString
  | s :: rest => PArg_text s ++ P_text rest
  end.

(** One line of output: the indent, the text and the line end. *)
Definition line (i s : string) : string := i ++ s ++ nl.

Definition tb : string := str1 tab.

(** The text [printType] writes for a type. *)
Definition typeText (t : TypeRef) : string := emit (printType t) EmptyString.

(** The description field as a line at indent [i]: the doc text without
    its last byte, between quotes. *)
Definition descrLine (i text : string) : string :=
  line i ("Description: " ++ q ++ dropLast text ++ q ++ ",").

Definition endsWith (out suffix : string) : Prop :=
  exists pre, out = pre ++ suffix.

(** [hasSuffix out suffix]: the executable form of [endsWith]. *)
Definition hasSuffix (out suffix : string) : bool :=
  (String.length suffix <=? String.length out)%nat &&
  (substring (String.length out - String.length suffix)
     (String.length suffix) out =? suffix).

(** The description is the last keyed field of a declaration written at
    indent [i]: its line, one level in, is followed by the closing line
    and nothing else. *)
Definition descrLast (out i text : string) : Prop :=
  endsWith out (descrLine (i ++ tb) text ++ line i "})").

(** The same for a field, an argument or an enum value written at indent
    [i]: the description line, at indent [di], is followed by the closing
    line and nothing else. *)
Definition descrLastIn (out di i text : string) : Prop :=
  endsWith out (descrLine di text ++ line i "},").

(** ** Reference definitions that follow the specification *)

(** An interface field as the specification describes it: the rendering
    of an object field without the placeholder resolver callback. *)
Definition spec_interfaceField (descr : bool) (f : Field) : Gen :=
  P [PRune quote; PString (Name (f_Name f)); PRune quote;
     PString ": &graphql.Field{"] ;;
  In ;;
  WriteIndent ;; WriteString "Type: " ;;
  printTypeOf (f_Type f) ;;
  WriteByte "," ;; WriteByte newline ;;
  argsField descr (f_Args f) ;;
  descrField descr (f_Doc f) ;;
  Out ;;
  P [PString "},"].

(** The declarations as the specification orders them: the emitted ones
    in document order, one blank line between two of them and none after
    the last. *)
Fixpoint spec_declarations (descr : bool)
    (ds : list (option DocGroup * TypeSpec)) : Gen :=
  match ds with
  | [] => skip
  | [(doc, ts)] => generateType descr doc ts
  | (doc, ts) :: rest =>
      generateType descr doc ts ;; P [] ;; spec_declarations descr rest
  end.

(** The declarations of a document that are emitted, in document order. *)
Fixpoint emittedDecls (ds : list TypeDecl) : list (option DocGroup * TypeSpec) :=
  match ds with
  | [] => []
  | d :: rest =>
      match emitted d with
      | Some ts => (td_Doc d, ts) :: emittedDecls rest
      | None => emittedDecls rest
      end
  end.

(** Whether the last declaration of the document is one the loop skips. *)
Fixpoint lastSkipped (ds : list TypeDecl) : bool :=
  match ds with
  | [] => false
  | [d] => match emitted d with Some _ => false | None => true end
  | _ :: rest => lastSkipped rest
  end.

(** Whether the loop over the types ends in a blank line: some
    declaration is emitted and the last one of the document is skipped. *)
Definition trailingBlank (ds : list TypeDecl) : bool :=
  lastSkipped ds && match emittedDecls ds with [] => false | _ => true end.

(** The indent depth, and the depth the specification gives after a
    dedent: one less, and no less than zero. *)
Definition depth (g : Generator) : Z := len (indent g).

Inductive IndentOp : Type := OpIn | OpOut.

Definition runOp (op : IndentOp) : Gen :=
  match op with OpIn => In | OpOut => Out end.

Definition spec_depthOp (op : IndentOp) (d : Z) : Z :=
  match op with
  | OpIn => d + 1
  | OpOut => Z.max 0 (d - 1)
  end.

(** The built-in scalar names, and the rendering of a named type as the
    specification gives it: the fixed identifier of a built-in, any other
    name followed by the type suffix. *)
Definition builtinTypes : list string := ["Int"; "Float"; "String"; "Boolean"; "ID"].

Definition spec_namedText (name : string) : string :=
  if existsb (String.eqb name) builtinTypes
  then "graphql." ++ name
  else name ++ typeSuffix.

(** ** Documents and sinks used in the examples *)

Definition ident (name : string) : Ident := {| Name := name |}.

(** [hello: String]. *)
Definition helloField : Field :=
  {| f_Name := ident "hello"; f_Args := None;
     f_Type := Some (Ident_ (ident "String")); f_Doc := None |}.

(** [type Query { hello: String }]. *)
Definition queryDecl : TypeDecl :=
  {| td_Doc := None;
     Spec := TypeDecl_TypeSpec
               {| ts_Name := ident "Query";
                  ts_Type := TypeSpec_Object
                               {| Interfaces := []; obj_Fields := [helloField] |} |} |}.

(** [schema { query: Query }]. *)
Definition schemaDecl : TypeDecl :=
  {| td_Doc := None;
     Spec := TypeDecl_TypeSpec
               {| ts_Name := ident "schema";
                  ts_Type := TypeSpec_Schema
                               {| RootOps :=
                                    [ {| f_Name := ident "query"; f_Args := None;
                                         f_Type := Some (Ident_ (ident "Query"));
                                         f_Doc := None |} ] |} |} |}.

(** The document [type Query { hello: String }] alone, the one with the
    schema declared before the type and the one with the schema declared
    after it. *)
Definition docQuery : Document :=
  {| doc_Name := "test.gql"; Directives := []; Schema := None;
     Types := [queryDecl] |}.

Definition docSchemaFirst : Document :=
  {| doc_Name := "test.gql"; Directives := []; Schema := Some schemaDecl;
     Types := [schemaDecl; queryDecl] |}.

Definition docSchemaLast : Document :=
  {| doc_Name := "test.gql"; Directives := []; Schema := Some schemaDecl;
     Types := [queryDecl; schemaDecl] |}.

(** The directive [@go(options: {...})] with the given option fields. *)
Definition goDirective (fields : list ObjLit_Pair) : DirectiveLit :=
  {| dl_Name := "go";
     dl_Args := Some [ {| arg_Value := Arg_CompositeLit (CompositeLit_ObjLit fields) |} ] |}.

Definition basic (value : string) : CompositeLit :=
  CompositeLit_BasicLit {| Value := value |}.

Definition docWithOptions (fields : list ObjLit_Pair) : Document :=
  {| doc_Name := "test.gql"; Directives := [goDirective fields];
     Schema := None; Types := [queryDecl] |}.

(** A sink that accepts every byte, one whose [Open] fails with no
    file, one whose [Open] fails but returns a file, and one whose file
    fails to write. *)
Definition fileOk : WriteCloser :=
  {| wc_Write := fun p => (String.length p, None) |}.

Definition fileFull : WriteCloser :=
  {| wc_Write := fun p => (0%nat, Some "no space left on device") |}.

Definition sinkOk : GeneratorContext :=
  {| Open := fun _ => (Some fileOk, None) |}.

Definition sinkOpenFails : GeneratorContext :=
  {| Open := fun _ => (None, Some "permission denied") |}.

Definition sinkOpenFailsWithFile : GeneratorContext :=
  {| Open := fun _ => (Some fileOk, Some "permission denied") |}.

Definition sinkWriteFails : GeneratorContext :=
  {| Open := fun _ => (Some fileFull, None) |}.

(** A decoder that never fails and changes nothing, for runs whose
    option blob is empty and never reaches the decoder. *)
Definition unmarshalNothing (opts : string) (gOpts : Options)
    : Options * option string := (gOpts, None).

(** What [json.Unmarshal] does on the blob that sets [package] to the
    empty string: the package is empty, no error. *)
Definition unmarshalEmptyPackage (opts : string) (gOpts : Options)
    : Options * option string :=
  ({| Package := EmptyString; Descriptions := Descriptions gOpts |}, None).

(** What [json.Unmarshal] does on a blob that is not JSON: the options
    are left as they were, and a syntax error is returned. *)
Definition unmarshalSyntaxError (opts : string) (gOpts : Options)
    : Options * option string :=
  (gOpts, Some "invalid character looking for beginning of value").

(** An argument [text: String] without default value or doc comment, and
    an interface field [echo(text: String): Echo]. *)
Definition textArg : InputValue :=
  {| iv_Name := ident "text"; iv_Type := Some (Ident_ (ident "String"));
     iv_Default := None; iv_Doc := None |}.

Definition echoField : Field :=
  {| f_Name := ident "echo"; f_Args := Some [textArg];
     f_Type := Some (Ident_ (ident "Echo")); f_Doc := None |}.

(** The option blob that sets [package] to the empty string, and a blob
    that breaks off in the middle of a value. *)
Definition optsEmptyPackage : string :=
  "{" ++ q ++ "package" ++ q ++ ": " ++ q ++ q ++ "}".

Definition optsMalformed : string :=
  "{" ++ q ++ "descriptions" ++ q ++ ": tru".

(** The error [Generate] returns for [doc] when the message is [msg]. *)
Definition generatorError (doc : Document) (msg : string) : GeneratorError :=
  {| DocName := doc_Name doc; GenName := "go"; Msg := msg |}.

(** The text [Generate] assembles for [docQuery] with the default
    options. *)
Definition docQueryDecl : string :=
  line EmptyString "var QueryType = graphql.NewObject(graphql.ObjectConfig{"
  ++ line tb ("Name: " ++ q ++ "Query" ++ q ++ ",")
  ++ line tb "Fields: graphql.Fields{"
  ++ line (tb ++ tb) (q ++ "hello" ++ q ++ ": &graphql.Field{")
  ++ line (tb ++ tb ++ tb) "Type: graphql.String,"
  ++ line (tb ++ tb ++ tb)
       "Resolve: func(p graphql.ResolveParams) (interface{}, error) { return nil, nil }, // TODO"
  ++ line (tb ++ tb) "},"
  ++ line tb "},"
  ++ line EmptyString "})".

Definition headerText : string :=
  line EmptyString "package main" ++ nl
  ++ line EmptyString ("import " ++ q ++ "github.com/graphql-go/graphql" ++ q) ++ nl.

Definition docQueryText : string := headerText ++ docQueryDecl.

(** The schema block for [schema { query: Query }]. *)
Definition schemaInitText : string :=
  nl
  ++ line EmptyString "func init() {"
  ++ line tb "var err error"
  ++ line tb "Schema, err = graphql.NewSchema(graphql.SchemaConfig{"
  ++ line (tb ++ tb) "Query: QueryType,"
  ++ line tb "})"
  ++ line tb "if err != nil {"
  ++ line (tb ++ tb) "panic(err)"
  ++ line tb "}"
  ++ line EmptyString "}".

(** The field lists of the tests of the repository: [one: Int],
    [str: String], [list: [Test]], and the input values with default
    values [1], the string [hello] and [[1, 2, 3]]. *)
Definition testFields : list Field :=
  [ {| f_Name := ident "one"; f_Args := None;
       f_Type := Some (Ident_ (ident "Int")); f_Doc := None |};
    {| f_Name := ident "str"; f_Args := None;
       f_Type := Some (Ident_ (ident "String")); f_Doc := None |};
    {| f_Name := ident "list"; f_Args := None;
       f_Type := Some (List_ (Ident_ (ident "Test"))); f_Doc := None |} ].

Definition testInputValues : list InputValue :=
  [ {| iv_Name := ident "one"; iv_Type := Some (Ident_ (ident "Int"));
       iv_Default := Some (InputValue_BasicLit {| Value := "1" |});
       iv_Doc := None |};
    {| iv_Name := ident "str";
       iv_Type := Some (NonNull_ (NonNull_Ident (ident "String")));
       iv_Default := Some (InputValue_BasicLit {| Value := q ++ "hello" ++ q |});
       iv_Doc := None |};
    {| iv_Name := ident "list"; iv_Type := Some (List_ (Ident_ (ident "Int")));
       iv_Default :=
         Some (InputValue_CompositeLit
                 (CompositeLit_ListLit
                    (ListLit_BasicList
                       [ {| Value := "1" |}; {| Value := "2" |}; {| Value := "3" |} ])));
       iv_Doc := None |} ].

(** ** Texts of the value printer and of the schema block *)

(** [indentFree e]: [e] only appends, and neither reads nor changes the
    indent: at every indent it writes the text it writes at the empty
    one. *)
Definition indentFree (e : Gen) : Prop :=
  forall i, emits e i (emit e EmptyString) i.

(** The text [printVal] writes for a value, and for one pair of an
    object literal. *)
Definition valText (v : CompositeLit) : string := emit (printVal v) EmptyString.

Definition pairText (p : ObjLit_Pair) : string :=
  match p with Pair k x => Name k ++ ": " ++ valText x end.

(** The key [Generate] writes before the type of a root operation. *)
Definition rootOpKey (opName : string) : string :=
  if opName =? "query" then "Query: "
  else if opName =? "mutation" then "Mutation: "
  else if opName =? "subscription" then "Subscription: "
  else EmptyString.

(** The name of the type of a root operation when it is an identifier. *)
Definition rootOpType (op : Field) : option string :=
  match f_Type op with
  | Some (Ident_ i) => Some (Name i)
  | _ => None
  end.

(** The line of the schema block for a root operation. *)
Definition rootOpLine (i : string) (op : Field) : string :=
  match rootOpType op with
  | Some name => line i (rootOpKey (Name (f_Name op)) ++ name ++ "Type,")
  | None => EmptyString
  end.

(** A field and an input value without their doc comments. *)
Definition clearInputValueDoc (a : InputValue) : InputValue :=
  {| iv_Name := iv_Name a; iv_Type := iv_Type a; iv_Default := iv_Default a;
     iv_Doc := None |}.

Definition clearFieldDoc (f : Field) : Field :=
  {| f_Name := f_Name f;
     f_Args := option_map (map clearInputValueDoc) (f_Args f);
     f_Type := f_Type f; f_Doc := None |}.

(** Whether a directive of the document is the one of this generator. *)
Definition isGoDirective (d : DirectiveLit) : bool := dl_Name d =? "go".

(** Whether an option of the directive is one that [getOptions] reads. *)
Definition isOptionKey (p : ObjLit_Pair) : bool :=
  match p with
  | Pair k _ => (Name k =? "package") || (Name k =? "descriptions")
  end.

(** The text of the header for a package name. *)
Definition headerFor (packageName : string) : string :=
  "package " ++ packageName ++ nl ++ nl
  ++ "import " ++ q ++ "github.com/graphql-go/graphql" ++ q ++ nl ++ nl.

(** The text between the braces of an object literal: the pairs with a
    comma and a space between two of them, and a space after the last. *)
Definition objLitText (fields : list ObjLit_Pair) : string :=
  match fields with
  | [] => EmptyString
  | _ => String.concat ", " (map pairText fields) ++ " "
  end.

(** Whether every root operation has an identifier as its type. *)
Definition rootOpsOk (rootOps : list Field) : bool :=
  forallb (fun op => match rootOpType op with Some _ => true | None => false end)
    rootOps.

(** The root operations [query: Query] and [mutation: Mutation], and a
    root operation whose type is a list. *)
Definition rootOp (opName typeName : string) : Field :=
  {| f_Name := ident opName; f_Args := None;
     f_Type := Some (Ident_ (ident typeName)); f_Doc := None |}.

Definition rootOpList : Field :=
  {| f_Name := ident "query"; f_Args := None;
     f_Type := Some (List_ (Ident_ (ident "Query"))); f_Doc := None |}.

(** A file that takes ten bytes of every write and reports no error. *)
Definition fileShort : WriteCloser :=
  {| wc_Write := fun p => (10%nat, None) |}.

Definition sinkShort : GeneratorContext :=
  {| Open := fun _ => (Some fileShort, None) |}.

(** The options before any source is read. *)
Definition defaultOptions : Options := {| Package := "main"; Descriptions := false |}.

(** Whether the arguments of a [go] directive make [getOptions] panic
    before it reads an option: there is no first argument, or it is not
    an object literal. *)
Definition badGoArgs (args : list Arg) : bool :=
  match args with
  | [] => true
  | a0 :: _ =>
      match arg_Value a0 with
      | Arg_CompositeLit (CompositeLit_ObjLit _) => false
      | _ => true
      end
  end.

(** A directive other than [go], and the [go] directive without
    arguments. *)
Definition otherDirective : DirectiveLit := {| dl_Name := "deprecated"; dl_Args := None |}.
Definition bareGoDirective : DirectiveLit := {| dl_Name := "go"; dl_Args := None |}.

(** A type specification without the doc comments of its fields,
    arguments and values. *)
Definition clearTypeDocs (t : TypeSpec_Type) : TypeSpec_Type :=
  match t with
  | TypeSpec_Object o =>
      TypeSpec_Object {| Interfaces := Interfaces o;
                         obj_Fields := map clearFieldDoc (obj_Fields o) |}
  | TypeSpec_Interface x =>
      TypeSpec_Interface {| inter_Fields := map clearFieldDoc (inter_Fields x) |}
  | TypeSpec_Enum e => TypeSpec_Enum {| Values := map clearFieldDoc (Values e) |}
  | TypeSpec_Input x =>
      TypeSpec_Input {| input_Fields := map clearInputValueDoc (input_Fields x) |}
  | TypeSpec_Directive d =>
      TypeSpec_Directive
        {| Locs := Locs d;
           dir_Args := option_map (map clearInputValueDoc) (dir_Args d) |}
  | other => other
  end.

Definition clearTypeSpecDocs (ts : TypeSpec) : TypeSpec :=
  {| ts_Name := ts_Name ts; ts_Type := clearTypeDocs (ts_Type ts) |}.

(** A field [id: ID!] with the doc comment of the test schema, and the
    interface [Node] that holds it. *)
Definition idField : Field :=
  {| f_Name := ident "id"; f_Args := None;
     f_Type := Some (NonNull_ (NonNull_Ident (ident "ID")));
     f_Doc := Some {| Text := "id uniquely identifies the node." ++ nl |} |}.

Definition nodeSpec : TypeSpec :=
  {| ts_Name := ident "Node";
     ts_Type := TypeSpec_Interface {| inter_Fields := [idField] |} |}.

(** The lines of a list of names, each with the type suffix and a
    comma, at indent [i]. *)
Definition typeNameLines (i : string) (names : list Ident) : string :=
  fold_right (fun x s => line i (Name x ++ "Type,") ++ s) EmptyString names.

(** The [Interfaces] field of an object at indent [i]: nothing without
    interfaces, one line for one interface, a list with one line for
    each interface otherwise. *)
Definition interfacesText (i : string) (names : list Ident) : string :=
  match names with
  | [] => EmptyString
  | [x] => line i ("Interfaces: []*graphql.Interface{ " ++ Name x ++ "Type },")
  | _ =>
      line i "Interfaces: []*graphql.Interface{"
      ++ typeNameLines (i ++ tb) names ++ line i "},"
  end.

(** The [Locations] field of a directive at indent [i]. *)
Definition locationsText (i : string) (locs : list DirectiveLocation) : string :=
  match locs with
  | [] => EmptyString
  | [l] => line i ("Locations: []string{ " ++ Loc_String l ++ " }")
  | _ =>
      line i "Locations: []string{"
      ++ fold_right (fun l s => line (i ++ tb) (q ++ Loc_String l ++ q ++ ",") ++ s)
           EmptyString locs
      ++ line i "},"
  end.

(** ** The comparison helper of the tests

    [compareBytes] of the test file: it returns at once when
    [bytes.EqualFold] accepts the two texts, and otherwise walks the
    generated output and fails at the first byte that differs from the
    expected one.  [EqualFold] is the function of the Go standard
    library, taken as given; printing the output is left out. *)
Inductive TestResult : Type :=
| Pass
| Fatal (expected got : ascii) (i line : nat)
| IndexPanic.

(** [for i, b := range out { ... }] from index [i] on, with [ex[i]] a
    panic when [i] is not below [len(ex)]. *)
Fixpoint compareLoop (ex out : string) (i line : nat) : TestResult :=
  match out with
  | EmptyString => Pass
  | String b out' =>
      let line := if Ascii.eqb b newline then S line else line in
      match String.get i ex with
      | None => IndexPanic
      | Some e =>
          if Ascii.eqb e b then compareLoop ex out' (S i) line
          else Fatal e b i line
      end
  end.

Definition compareBytes (EqualFold : string -> string -> bool)
    (ex out : string) : TestResult :=
  if EqualFold out ex then Pass else compareLoop ex out 0 1.

(** A comparison that accepts equal texts only. *)
Definition equalOnly (a b : string) : bool := a =? b.

(** ** Texts in declared order *)

(** The texts of the elements of a list one after the other, in the
    order of the list. *)
Definition inOrder {A : Type} (text : A -> string) (l : list A) : string :=
  fold_right (fun x s => text x ++ s) EmptyString l.

(** The [Args] field at indent [i]: nothing without an argument list,
    otherwise the opening line, the arguments in declared order one
    level in, and the closing line. *)
Definition argsText (argText : string -> InputValue -> string) (i : string)
    (args : option (list InputValue)) : string :=
  match args with
  | Some l =>
      line i "Args: graphql.FieldConfigArgument{"
      ++ inOrder (argText (i ++ tb)) l ++ line i "},"
  | None => EmptyString
  end.

(** The [Types] field of a union at indent [i]: nothing without members,
    one line for one member (on which the code writes the type suffix
    only), a list with one line for each member otherwise. *)
Definition unionTypesText (i : string) (names : list Ident) : string :=
  match names with
  | [] => EmptyString
  | [x] => line i "Types: []*graphql.Object{ Type },"
  | _ =>
      line i "Types: []*graphql.Object{"
      ++ typeNameLines (i ++ tb) names ++ line i "},"
  end.

(** The declaration of the schema variable, written when the document
    has a schema. *)
Definition schemaVarText (doc : Document) : string :=
  match Schema doc with
  | Some _ => line EmptyString "var Schema graphql.Schema" ++ nl
  | None => EmptyString
  end.

(** The text of one emitted declaration, at the empty indent. *)
Definition declText (descr : bool) (d : option DocGroup * TypeSpec) : string :=
  emit (generateType descr (fst d) (snd d)) EmptyString.

(** The schema block of a document whose schema declaration holds a
    schema: the root operations in declared order. *)
Definition schemaBlockText (doc : Document) : string :=
  match Schema doc with
  | Some sd =>
      match Spec sd with
      | TypeDecl_TypeSpec ts =>
          match ts_Type ts with
          | TypeSpec_Schema s =>
              nl ++ line EmptyString "func init() {"
              ++ line tb "var err error"
              ++ line tb "Schema, err = graphql.NewSchema(graphql.SchemaConfig{"
              ++ inOrder (rootOpLine (tb ++ tb)) (RootOps s)
              ++ line tb "})" ++ line tb "if err != nil {"
              ++ line (tb ++ tb) "panic(err)"
              ++ line tb "}" ++ line EmptyString "}"
          | _ => EmptyString
          end
      | TypeDecl_TypeExtSpec => EmptyString
      end
  | None => EmptyString
  end.

(** The whole text of a run that ends without error, as a function of
    the resolved options and the document: the header, the schema
    variable, the emitted declarations in document order with a blank
    line between two of them (and one more when the last declaration of
    the document is skipped), and the schema block. *)
Definition outputText (gOpts : Options) (doc : Document) : string :=
  headerFor (Package gOpts)
  ++ schemaVarText doc
  ++ String.concat nl
       (map (declText (Descriptions gOpts)) (emittedDecls (Types doc)))
  ++ (if trailingBlank (Types doc) then nl else EmptyString)
  ++ schemaBlockText doc.

(** * Lemmas and theorems *)

(** ** Strings *)

Lemma append_nil_r (s : string) : s ++ EmptyString = s.
Proof. induction s as [|c s IH]; simpl; congruence. Qed.

Lemma append_assoc (s t u : string) : (s ++ t) ++ u = s ++ (t ++ u).
Proof. induction s as [|c s IH]; simpl; congruence. Qed.

Lemma length_append (s t : string) :
  String.length (s ++ t) = (String.length s + String.length t)%nat.
Proof. induction s as [|c s IH]; simpl; congruence. Qed.

Lemma substring_all (s : string) : substring 0 (String.length s) s = s.
Proof. induction s as [|c s IH]; simpl; congruence. Qed.

Lemma substring_prefix (s t : string) :
  substring 0 (String.length s) (s ++ t) = s.
Proof.
  induction s as [|c s IH]; simpl.
  - destruct t; reflexivity.
  - now rewrite IH.
Qed.

Lemma substring_skip (s t : string) (n : nat) :
  substring (String.length s) n (s ++ t) = substring 0 n t.
Proof. induction s as [|c s IH]; simpl; auto. Qed.

Lemma dropLast_snoc (s : string) (c : ascii) : dropLast (s ++ str1 c) = s.
Proof.
  unfold dropLast. rewrite length_append. simpl.
  replace (String.length s + 1 - 1)%nat with (String.length s) by lia.
  apply substring_prefix.
Qed.

Lemma len_snoc_pos (s : string) (c : ascii) : (0 <? len (s ++ str1 c))%Z = true.
Proof.
  unfold len. rewrite length_append. simpl. apply Z.ltb_lt. lia.
Qed.

Lemma len_pos_cons (s : string) : s <> EmptyString -> (0 <? len s)%Z = true.
Proof.
  destruct s; [congruence|]. intros _. unfold len. simpl. apply Z.ltb_lt. lia.
Qed.

Lemma endsWith_hasSuffix (out suffix : string) :
  endsWith out suffix -> hasSuffix out suffix = true.
Proof.
  intros [pre ->]. unfold hasSuffix. rewrite length_append.
  apply andb_true_intro. split.
  - apply Nat.leb_le. lia.
  - replace (String.length pre + String.length suffix - String.length suffix)%nat
      with (String.length pre) by lia.
    rewrite substring_skip, substring_all. apply String.eqb_refl.
Qed.

Lemma endsWith_app (pre out suffix : string) :
  endsWith out suffix -> endsWith (pre ++ out) suffix.
Proof.
  intros [p ->]. exists (pre ++ p). now rewrite append_assoc.
Qed.

(** ** A calculus for appending emitters *)

Lemma emits_skip (i : string) : emits skip i EmptyString i.
Proof. intros b. unfold skip. now rewrite append_nil_r. Qed.

Lemma emits_seq (a b : Gen) (i j k t1 t2 : string) :
  emits a i t1 j -> emits b j t2 k -> emits (a ;; b) i (t1 ++ t2) k.
Proof.
  intros Ha Hb buf. unfold seq. rewrite Ha, Hb. now rewrite append_assoc.
Qed.

Lemma emits_Write (p i : string) : emits (Write p) i p i.
Proof. intros b. reflexivity. Qed.

Lemma emits_WriteString (s i : string) : emits (WriteString s) i s i.
Proof. intros b. reflexivity. Qed.

Lemma emits_WriteByte (c : ascii) (i : string) : emits (WriteByte c) i (str1 c) i.
Proof. intros b. reflexivity. Qed.

Lemma emits_WriteRune (c : ascii) (i : string) : emits (WriteRune c) i (str1 c) i.
Proof. intros b. reflexivity. Qed.

Lemma emits_WriteIndent (i : string) : emits WriteIndent i i i.
Proof. intros b. reflexivity. Qed.

Lemma emits_In (i : string) : emits In i EmptyString (i ++ tb).
Proof. intros b. unfold In. simpl. now rewrite append_nil_r. Qed.

Lemma emits_Out (i : string) : emits Out (i ++ tb) EmptyString i.
Proof.
  intros b. unfold Out, tb. simpl.
  rewrite len_snoc_pos, dropLast_snoc, append_nil_r. reflexivity.
Qed.

Lemma emits_Out_zero : emits Out EmptyString EmptyString EmptyString.
Proof. intros b. unfold Out. simpl. now rewrite append_nil_r. Qed.

Lemma emits_P_arg (s : PArg) (i : string) : emits (P_arg s) i (PArg_text s) i.
Proof.
  intros b. destruct s; try reflexivity.
  unfold PArg_text, emit. simpl. unfold skip. simpl. now rewrite append_nil_r.
Qed.

Lemma emits_P_args (str : list PArg) (i : string) :
  emits (forEach str P_arg) i (P_text str) i.
Proof.
  induction str as [|s rest IH]; intros b.
  - simpl. unfold forEach. simpl. now rewrite append_nil_r.
  - unfold forEach in *. simpl. rewrite (emits_P_arg s i b), IH.
    now rewrite append_assoc.
Qed.

Lemma emits_P (str : list PArg) (i : string) :
  emits (P str) i (line i (P_text str)) i.
Proof.
  unfold P, line. intros b. unfold seq.
  rewrite (emits_WriteIndent i b), (emits_P_args str i), (emits_WriteByte _ i).
  now rewrite !append_assoc.
Qed.

Lemma emits_forEach {A : Type} (l : list A) (body : A -> Gen) (i : string)
    (text : A -> string) :
  (forall x, emits (body x) i (text x) i) ->
  emits (forEach l body) i (fold_right (fun x s => text x ++ s) EmptyString l) i.
Proof.
  intros H. unfold forEach.
  induction l as [|x l IH]; intros b; simpl.
  - now rewrite append_nil_r.
  - rewrite H, IH. now rewrite append_assoc.
Qed.

Lemma emits_emit (e : Gen) (i t j : string) : emits e i t j -> emit e i = t.
Proof. intros H. unfold emit. now rewrite H. Qed.

Lemma emits_indent (e : Gen) (i t j : string) (g : Generator) :
  emits e i t j -> indent g = i -> indent (e g) = j.
Proof. intros H <-. destruct g as [b i']. simpl. now rewrite H. Qed.

Lemma emits_Buffer (e : Gen) (i t j : string) (g : Generator) :
  emits e i t j -> indent g = i -> Buffer (e g) = Buffer g ++ t.
Proof. intros H <-. destruct g as [b i']. simpl. now rewrite H. Qed.

Lemma runs_emits (e : Gen) (i j : string) : runs e i j -> emits e i (emit e i) j.
Proof. intros [t H]. now rewrite (emits_emit H). Qed.

Lemma emits_runs (e : Gen) (i t j : string) : emits e i t j -> runs e i j.
Proof. intros H. now exists t. Qed.

Lemma runs_skip (i : string) : runs skip i i.
Proof. eexists. apply emits_skip. Qed.

Lemma runs_seq (a b : Gen) (i j k : string) :
  runs a i j -> runs b j k -> runs (a ;; b) i k.
Proof. intros [t1 H1] [t2 H2]. eexists. eapply emits_seq; eassumption. Qed.

Lemma runs_Write (p i : string) : runs (Write p) i i.
Proof. eexists. apply emits_Write. Qed.

Lemma runs_WriteString (s i : string) : runs (WriteString s) i i.
Proof. eexists. apply emits_WriteString. Qed.

Lemma runs_WriteByte (c : ascii) (i : string) : runs (WriteByte c) i i.
Proof. eexists. apply emits_WriteByte. Qed.

Lemma runs_WriteRune (c : ascii) (i : string) : runs (WriteRune c) i i.
Proof. eexists. apply emits_WriteRune. Qed.

Lemma runs_WriteIndent (i : string) : runs WriteIndent i i.
Proof. eexists. apply emits_WriteIndent. Qed.

Lemma runs_In (i : string) : runs In i (i ++ tb).
Proof. eexists. apply emits_In. Qed.

Lemma runs_Out (i : string) : runs Out (i ++ tb) i.
Proof. eexists. apply emits_Out. Qed.

Lemma runs_P (str : list PArg) (i : string) : runs (P str) i i.
Proof. eexists. apply emits_P. Qed.

Lemma runs_forEach {A : Type} (l : list A) (body : A -> Gen) (i : string) :
  (forall x, runs (body x) i i) -> runs (forEach l body) i i.
Proof.
  intros H. eexists.
  apply (@emits_forEach A l body i (fun x => emit (body x) i)).
  intros x. apply runs_emits, H.
Qed.

Lemma runs_rangeSep {A : Type} (body : A -> Gen) (sep : Gen) (i : string)
    (last : Z) (xs : list A) :
  (forall x, runs (body x) i i) -> runs sep i i ->
  forall k, runs (rangeSep body sep last k xs) i i.
Proof.
  intros Hb Hs. induction xs as [|x xs IH]; intros k; simpl.
  - apply runs_skip.
  - apply runs_seq with i; [apply runs_seq with i|]; auto.
    destruct (k =? last)%Z; auto using runs_skip.
Qed.

Create HintDb gen discriminated.
#[export] Hint Constants Opaque : gen.

#[export] Hint Resolve runs_skip runs_Write runs_WriteString runs_WriteByte
  runs_WriteRune runs_WriteIndent runs_In runs_Out runs_P : gen.

(** Decompose a chain of statements, first statement first, so that the
    indent each statement starts from is known when it is reached. *)
Ltac runs_chain :=
  repeat match goal with
  | |- runs (seq _ _) _ _ => eapply runs_seq
  | |- runs (forEach _ _) _ _ => apply runs_forEach; intros
  | |- runs _ _ _ => eassumption
  | |- runs _ _ _ => solve [auto with gen nocore]
  end.

Ltac emits_chain :=
  repeat match goal with
  | |- emits (seq _ _) _ _ _ => eapply emits_seq
  | |- emits skip _ _ _ => apply emits_skip
  | |- emits (Write _) _ _ _ => apply emits_Write
  | |- emits (WriteString _) _ _ _ => apply emits_WriteString
  | |- emits (WriteByte _) _ _ _ => apply emits_WriteByte
  | |- emits (WriteRune _) _ _ _ => apply emits_WriteRune
  | |- emits WriteIndent _ _ _ => apply emits_WriteIndent
  | |- emits In _ _ _ => apply emits_In
  | |- emits Out _ _ _ => apply emits_Out
  | |- emits (P _) _ _ _ => apply emits_P
  | |- emits _ _ _ _ => apply runs_emits; solve [runs_chain]
  end.

(** ** The printers and the emitters only append, and restore the indent *)

Lemma runs_printIdent (v : Ident) (i : string) : runs (printIdent v) i i.
Proof. unfold printIdent. auto with gen. Qed.

#[export] Hint Resolve runs_printIdent : gen.

Lemma runs_printType (t : TypeRef) (i : string) : runs (printType t) i i.
Proof.
  induction t as [v|w IH|w IH|v|elem IH] using TypeRef_mut
    with (P0 := fun w => match w with
                         | NonNull_Ident _ => True
                         | NonNull_List elem => runs (printType elem) i i
                         end); simpl; auto.
  - auto with gen.
  - runs_chain.
  - destruct w as [v|elem]; runs_chain.
Qed.

#[export] Hint Resolve runs_printType : gen.

Lemma runs_printTypeOf (t : option TypeRef) (i : string) :
  runs (printTypeOf t) i i.
Proof. destruct t; simpl; auto with gen. Qed.

Lemma runs_printBasicLit (b : BasicLit) (i : string) : runs (printBasicLit b) i i.
Proof. unfold printBasicLit. auto with gen. Qed.

#[export] Hint Resolve runs_printTypeOf runs_printBasicLit : gen.

Fixpoint runs_printVal (v : CompositeLit) : forall i, runs (printVal v) i i
with runs_printListLit (l : ListLit) : forall i, runs (printListLit l) i i.
Proof.
  - destruct v as [b|l|fields]; intros i; simpl.
    + auto with gen.
    + apply runs_printListLit.
    + generalize (Z.of_nat (List.length fields) - 1)%Z. intros last.
      apply runs_seq with i; [apply runs_seq with i|]; [runs_chain| |auto with gen].
      generalize 0%Z.
      induction fields as [|[key x] rest IHl]; intros k.
      * apply runs_skip.
      * apply runs_seq with i; [|apply IHl].
        pose proof (runs_printVal x i) as Hx.
        destruct (k =? last)%Z; runs_chain.
  - destruct l as [vals|vals]; intros i; simpl.
    + runs_chain. apply runs_rangeSep; intros; runs_chain.
    + generalize (Z.of_nat (List.length vals) - 1)%Z. intros last.
      apply runs_seq with i; [apply runs_seq with i|]; [auto with gen| |auto with gen].
      generalize 0%Z.
      induction vals as [|x rest IHl]; intros k.
      * apply runs_skip.
      * apply runs_seq with i; [|apply IHl].
        pose proof (runs_printVal x i) as Hx.
        destruct (k =? last)%Z; runs_chain.
Qed.

#[export] Hint Resolve runs_printVal runs_printListLit : gen.

(** The loop of [printListLit] over composite values is the loop with a
    separator, as the one over basic values. *)
Lemma printListLit_CompositeList (vals : list CompositeLit) :
  printListLit (ListLit_CompositeList vals)
  = WriteString "[]interface{}{" ;;
    rangeSep printVal (WriteByte "," ;; WriteByte " ")
      (Z.of_nat (List.length vals) - 1) 0 vals ;;
    WriteByte "}".
Proof.
  cbn [printListLit]. generalize (Z.of_nat (List.length vals) - 1)%Z. intros last.
  f_equal. f_equal. generalize 0%Z.
  induction vals as [|x rest IH]; intros k; [reflexivity|].
  cbn [rangeSep]. rewrite <- IH. reflexivity.
Qed.

Lemma runs_printDefault (d : DefaultValue) (i : string) : runs (printDefault d) i i.
Proof. destruct d; simpl; auto with gen. Qed.

#[export] Hint Resolve runs_printDefault : gen.

Lemma runs_printDescr (doc : DocGroup) (i : string) : runs (printDescr doc) i i.
Proof. unfold printDescr. destruct (0 <? len (Text doc))%Z; runs_chain. Qed.

#[export] Hint Resolve runs_printDescr : gen.

Lemma runs_descrField (descr : bool) (doc : option DocGroup) (i : string) :
  runs (descrField descr doc) i i.
Proof. destruct doc, descr; simpl; runs_chain. Qed.

Lemma runs_descrP (descr : bool) (doc : option DocGroup) (i : string) :
  runs (descrP descr doc) i i.
Proof.
  destruct doc as [d|], descr; simpl; auto with gen.
  destruct (0 <? len (Text d))%Z; auto with gen.
Qed.

Lemma runs_nameField (name i : string) : runs (nameField name) i i.
Proof. unfold nameField. auto with gen. Qed.

Lemma runs_defaultField (d : option DefaultValue) (i : string) :
  runs (defaultField d) i i.
Proof. destruct d; simpl; runs_chain. Qed.

#[export] Hint Resolve runs_descrField runs_descrP runs_nameField
  runs_defaultField : gen.

Lemma runs_argumentConfig (descr : bool) (a : InputValue) (i : string) :
  runs (argumentConfig descr a) i i.
Proof. unfold argumentConfig. runs_chain. Qed.

#[export] Hint Resolve runs_argumentConfig : gen.

Lemma runs_argsField (descr : bool) (args : option (list InputValue)) (i : string) :
  runs (argsField descr args) i i.
Proof. destruct args; simpl; runs_chain. Qed.

Lemma runs_resolveField (i : string) : runs resolveField i i.
Proof. unfold resolveField. auto with gen. Qed.

#[export] Hint Resolve runs_argsField runs_resolveField : gen.

Lemma runs_objectField (descr : bool) (f : Field) (i : string) :
  runs (objectField descr f) i i.
Proof. unfold objectField. runs_chain. Qed.

Lemma runs_interfaceArgumentConfig (descr : bool) (a : InputValue) (i : string) :
  runs (interfaceArgumentConfig descr a) i i.
Proof. unfold interfaceArgumentConfig. destruct (iv_Default a); runs_chain. Qed.

#[export] Hint Resolve runs_objectField runs_interfaceArgumentConfig : gen.

Lemma runs_interfaceField (descr : bool) (f : Field) (i : string) :
  runs (interfaceField descr f) i i.
Proof. unfold interfaceField. destruct (f_Args f); runs_chain. Qed.

Lemma runs_spec_interfaceField (descr : bool) (f : Field) (i : string) :
  runs (spec_interfaceField descr f) i i.
Proof. unfold spec_interfaceField. runs_chain. Qed.

Lemma runs_enumValue (descr : bool) (v : Field) (i : string) :
  runs (enumValue descr v) i i.
Proof. unfold enumValue. runs_chain. Qed.

Lemma runs_inputField (descr : bool) (f : InputValue) (i : string) :
  runs (inputField descr f) i i.
Proof. unfold inputField. runs_chain. Qed.

#[export] Hint Resolve runs_interfaceField runs_enumValue runs_inputField : gen.

Lemma runs_generateScalar (name : string) (descr : bool) (doc : option DocGroup)
    (i : string) : runs (generateScalar name descr doc) i i.
Proof. unfold generateScalar. runs_chain. Qed.

Lemma runs_generateObject (name : string) (descr : bool) (doc : option DocGroup)
    (obj : ObjectType) (i : string) : runs (generateObject name descr doc obj) i i.
Proof.
  unfold generateObject.
  destruct (Interfaces obj) as [|i0 [|i1 rest]]; simpl List.length;
    match goal with |- context [(1 <? ?n)%Z] => destruct (1 <? n)%Z end;
    runs_chain.
Qed.

Lemma runs_generateInterface (name : string) (descr : bool)
    (doc : option DocGroup) (inter : InterfaceType) (i : string) :
  runs (generateInterface name descr doc inter) i i.
Proof. unfold generateInterface. runs_chain. Qed.

Lemma runs_generateUnion (name : string) (descr : bool) (doc : option DocGroup)
    (union : UnionType) (i : string) : runs (generateUnion name descr doc union) i i.
Proof.
  unfold generateUnion.
  destruct (Members union) as [|m0 [|m1 rest]]; simpl List.length;
    match goal with |- context [(1 <? ?n)%Z] => destruct (1 <? n)%Z end;
    runs_chain.
Qed.

Lemma runs_generateEnum (name : string) (descr : bool) (doc : option DocGroup)
    (enum : EnumType) (i : string) : runs (generateEnum name descr doc enum) i i.
Proof. unfold generateEnum. runs_chain. Qed.

Lemma runs_generateInput (name : string) (descr : bool) (doc : option DocGroup)
    (input : InputType) (i : string) : runs (generateInput name descr doc input) i i.
Proof. unfold generateInput. runs_chain. Qed.

Lemma runs_locationsField (locs : list DirectiveLocation) (i : string) :
  runs (locationsField locs) i i.
Proof.
  unfold locationsField.
  destruct locs as [|l0 [|l1 rest]]; simpl List.length;
    match goal with |- context [(1 <? ?n)%Z] => destruct (1 <? n)%Z end;
    runs_chain.
Qed.

#[export] Hint Resolve runs_locationsField : gen.

Lemma runs_generateDirective (name : string) (descr : bool)
    (doc : option DocGroup) (directive : DirectiveType) (i : string) :
  runs (generateDirective name descr doc directive) i i.
Proof. unfold generateDirective. runs_chain. Qed.

#[export] Hint Resolve runs_generateScalar runs_generateObject
  runs_generateInterface runs_generateUnion runs_generateEnum
  runs_generateInput runs_generateDirective : gen.

Lemma runs_generateType (descr : bool) (doc : option DocGroup) (ts : TypeSpec)
    (i : string) : runs (generateType descr doc ts) i i.
Proof. unfold generateType. destruct (ts_Type ts); runs_chain. Qed.

#[export] Hint Resolve runs_generateType : gen.

(** ** Normal forms of texts *)

Lemma emits_eq (e : Gen) (i t t' j : string) :
  emits e i t j -> t = t' -> emits e i t' j.
Proof. now intros H <-. Qed.

Lemma PArg_text_PString (v : string) : PArg_text (PString v) = v.
Proof. reflexivity. Qed.

Lemma PArg_text_PBytes (v : string) : PArg_text (PBytes v) = v.
Proof. reflexivity. Qed.

Lemma PArg_text_PRune (v : ascii) : PArg_text (PRune v) = str1 v.
Proof. reflexivity. Qed.

Lemma PArg_text_PIdent (v : Ident) : PArg_text (PIdent v) = EmptyString.
Proof. reflexivity. Qed.

(** Bring both sides of an equation between texts to the same
    right-nested form. *)
Ltac text_norm :=
  unfold descrLine, line, tb, q, nl, str1;
  cbn [P_text];
  rewrite ?PArg_text_PString, ?PArg_text_PBytes, ?PArg_text_PRune,
    ?PArg_text_PIdent;
  unfold str1, typeSuffix;
  repeat rewrite append_assoc;
  cbn [append];
  repeat rewrite append_assoc;
  repeat rewrite append_nil_r;
  cbn [append].

Ltac emits_text := eapply emits_eq; [emits_chain | text_norm; try reflexivity].

(** ** The indent *)

Lemma dropLast_last (s : string) :
  s <> EmptyString -> exists c, s = dropLast s ++ str1 c.
Proof.
  induction s as [|a s IH]; [congruence|]. intros _.
  destruct s as [|b s'].
  - exists a. reflexivity.
  - destruct IH as [c Hc]; [congruence|]. exists c.
    unfold dropLast in *. simpl String.length in *.
    replace (S (S (String.length s')) - 1)%nat with (S (String.length s')) by lia.
    replace (S (String.length s') - 1)%nat with (String.length s') in Hc by lia.
    change (substring 0 (S (String.length s')) (String a (String b s')))
      with (String a (substring 0 (String.length s') (String b s'))).
    simpl append. f_equal. exact Hc.
Qed.

Lemma depth_In (g : Generator) : depth (In g) = (depth g + 1)%Z.
Proof. unfold depth, len, In. simpl. rewrite length_append. simpl. lia. Qed.

Lemma depth_Out (g : Generator) : depth (Out g) = Z.max 0 (depth g - 1).
Proof.
  unfold depth, Out.
  destruct (0 <? len (indent g))%Z eqn:E.
  - apply Z.ltb_lt in E. simpl.
    destruct (dropLast_last (s := indent g)) as [c Hc].
    { intros H. rewrite H in E. unfold len in E. simpl in E. lia. }
    assert (L : len (indent g) = (len (dropLast (indent g)) + 1)%Z).
    { rewrite Hc at 1. unfold len. rewrite length_append. simpl. lia. }
    lia.
  - apply Z.ltb_ge in E. unfold len in *. lia.
Qed.

(** C10.  [In] appends exactly one indent unit; [Out] takes the depth to
    one less but never below zero, is the identity at depth zero and
    otherwise removes exactly the last unit; neither touches the buffer;
    and after any sequence of [In] and [Out] the depth is the saturating
    count of the specification, hence not negative. *)
Theorem indent_depth_never_negative (g : Generator) (ops : list IndentOp) :
  indent (In g) = indent g ++ tb /\
  depth (In g) = (depth g + 1)%Z /\
  depth (Out g) = Z.max 0 (depth g - 1) /\
  (if (depth g =? 0)%Z then Out g = g
   else exists c, indent g = indent (Out g) ++ str1 c) /\
  Out (In g) = g /\
  Buffer (In g) = Buffer g /\ Buffer (Out g) = Buffer g /\
  depth (forEach ops runOp g)
    = fold_left (fun d op => spec_depthOp op d) ops (depth g) /\
  (0 <= depth (forEach ops runOp g))%Z.
Proof.
  assert (Hfold : forall g0, depth (forEach ops runOp g0)
            = fold_left (fun d op => spec_depthOp op d) ops (depth g0)).
  { unfold forEach. induction ops as [|op ops IH]; intros g0; simpl.
    - reflexivity.
    - rewrite IH. f_equal. destruct op; simpl.
      + apply depth_In.
      + apply depth_Out. }
  repeat split.
  - apply depth_In.
  - apply depth_Out.
  - destruct (depth g =? 0)%Z eqn:E.
    + apply Z.eqb_eq in E. unfold Out. unfold depth in E. rewrite E. reflexivity.
    + apply Z.eqb_neq in E. unfold Out.
      assert (Hpos : (0 <? len (indent g))%Z = true).
      { apply Z.ltb_lt. unfold depth, len in *. lia. }
      rewrite Hpos. simpl. apply dropLast_last.
      intros H. apply E. unfold depth. rewrite H. reflexivity.
  - destruct g as [b i]. unfold Out, In, tb. simpl.
    rewrite len_snoc_pos, dropLast_snoc. reflexivity.
  - unfold Out. destruct (0 <? len (indent g))%Z; reflexivity.
  - apply Hfold.
  - unfold depth, len. lia.
Qed.

(** ** The type printer *)

Lemma printIdent_spec (v : Ident) :
  printIdent v = WriteString (spec_namedText (Name v)).
Proof.
  unfold printIdent, spec_namedText, builtinTypes. simpl existsb.
  destruct (String.eqb_spec (Name v) "Int") as [->|_]; [reflexivity|].
  destruct (String.eqb_spec (Name v) "Float") as [->|_]; [reflexivity|].
  destruct (String.eqb_spec (Name v) "String") as [->|_]; [reflexivity|].
  destruct (String.eqb_spec (Name v) "Boolean") as [->|_]; [reflexivity|].
  destruct (String.eqb_spec (Name v) "ID") as [->|_]; reflexivity.
Qed.

Lemma printType_NonNull (w : NonNullType) :
  printType (NonNull_ w)
  = WriteString "graphql.NewNonNull(" ;; printType (NonNull_unwrap w) ;; WriteByte ")".
Proof. destruct w; reflexivity. Qed.

Lemma typeText_Ident (v : Ident) : typeText (Ident_ v) = spec_namedText (Name v).
Proof. unfold typeText. simpl. rewrite printIdent_spec. reflexivity. Qed.

Lemma emits_printType (t : TypeRef) :
  forall i, emits (printType t) i (typeText t) i.
Proof.
  induction t as [v|w IH|w IH|v|elem IH] using TypeRef_mut
    with (P0 := fun w => forall i,
                  emits (printType (NonNull_unwrap w)) i
                    (typeText (NonNull_unwrap w)) i).
  - intros i. rewrite typeText_Ident. simpl. rewrite printIdent_spec.
    apply emits_WriteString.
  - assert (H : forall i, emits (printType (List_ w)) i
                  (("graphql.NewList(" ++ typeText w) ++ ")") i).
    { intros i. cbn [printType]. eapply emits_seq; [eapply emits_seq|].
      - apply emits_WriteString.
      - apply IH.
      - apply emits_WriteByte. }
    intros i. unfold typeText at 1. rewrite (emits_emit (H EmptyString)). apply H.
  - assert (H : forall i, emits (printType (NonNull_ w)) i
                  (("graphql.NewNonNull(" ++ typeText (NonNull_unwrap w)) ++ ")") i).
    { intros i. rewrite printType_NonNull. eapply emits_seq; [eapply emits_seq|].
      - apply emits_WriteString.
      - apply IH.
      - apply emits_WriteByte. }
    intros i. unfold typeText at 1. rewrite (emits_emit (H EmptyString)). apply H.
  - intros i. simpl NonNull_unwrap. rewrite typeText_Ident. simpl.
    rewrite printIdent_spec. apply emits_WriteString.
  - assert (H : forall i, emits (printType (List_ elem)) i
                  (("graphql.NewList(" ++ typeText elem) ++ ")") i).
    { intros i. cbn [printType]. eapply emits_seq; [eapply emits_seq|].
      - apply emits_WriteString.
      - apply IH.
      - apply emits_WriteByte. }
    intros i. simpl NonNull_unwrap. unfold typeText at 1.
    rewrite (emits_emit (H EmptyString)). apply H.
Qed.

Lemma typeText_List (w : TypeRef) :
  typeText (List_ w) = "graphql.NewList(" ++ typeText w ++ ")".
Proof.
  unfold typeText at 1. erewrite emits_emit.
  2:{ cbn [printType]. eapply emits_seq; [eapply emits_seq|];
      [apply emits_WriteString | apply emits_printType | apply emits_WriteByte]. }
  now rewrite append_assoc.
Qed.

Lemma typeText_NonNull (w : NonNullType) :
  typeText (NonNull_ w) = "graphql.NewNonNull(" ++ typeText (NonNull_unwrap w) ++ ")".
Proof.
  unfold typeText at 1. erewrite emits_emit.
  2:{ rewrite printType_NonNull. eapply emits_seq; [eapply emits_seq|];
      [apply emits_WriteString | apply emits_printType | apply emits_WriteByte]. }
  now rewrite append_assoc.
Qed.

(** C8.  [printType] appends to the buffer the text of the type and
    nothing else; that text is the fixed [graphql] identifier for the five
    built-in names and the name followed by the type suffix for any other
    name, [graphql.NewList(] around the text of the element for a list and
    [graphql.NewNonNull(] around the text of the wrapped type for a
    non-null, at any depth; so a list of non-null [String] renders as
    [graphql.NewList(graphql.NewNonNull(graphql.String))]. *)
Theorem printType_renders_nested (t w : TypeRef) (nn : NonNullType) (v : Ident)
    (g : Generator) :
  printType t g = Write (typeText t) g /\
  typeText (Ident_ v) = spec_namedText (Name v) /\
  typeText (Ident_ {| Name := "Int" |}) = "graphql.Int" /\
  typeText (Ident_ {| Name := "Float" |}) = "graphql.Float" /\
  typeText (Ident_ {| Name := "String" |}) = "graphql.String" /\
  typeText (Ident_ {| Name := "Boolean" |}) = "graphql.Boolean" /\
  typeText (Ident_ {| Name := "ID" |}) = "graphql.ID" /\
  typeText (Ident_ {| Name := "Node" |}) = "NodeType" /\
  typeText (List_ w) = "graphql.NewList(" ++ typeText w ++ ")" /\
  typeText (NonNull_ nn)
    = "graphql.NewNonNull(" ++ typeText (NonNull_unwrap nn) ++ ")" /\
  typeText (List_ (NonNull_ (NonNull_Ident {| Name := "String" |})))
    = "graphql.NewList(graphql.NewNonNull(graphql.String))" /\
  typeText (NonNull_ (NonNull_List (List_ (NonNull_ (NonNull_Ident {| Name := "ID" |})))))
    = "graphql.NewNonNull(graphql.NewList(graphql.NewList(graphql.NewNonNull(graphql.ID))))".
Proof.
  repeat split; try reflexivity.
  - destruct g as [b i]. apply emits_printType.
  - apply typeText_Ident.
  - apply typeText_List.
  - apply typeText_NonNull.
Qed.

(** ** Unions *)

(** C1.  For a union with exactly one member the [Types] field is written
    inline on one line, but the member is passed to [P] as an identifier
    node, which [P] does not print: whatever the member is called, the
    braces hold the bare type suffix.  For the member [A] the output has
    no [AType] in it. *)
Theorem generateUnion_single_member_omits_name (name : string) (descr : bool)
    (doc : option DocGroup) (m0 : Ident) (i : string) :
  emit (generateUnion name descr doc {| Members := [m0] |}) i
  = line i "NewUnion(graphql.UnionConfig{"
    ++ line (i ++ tb) ("Name: " ++ q ++ name ++ q ++ ",")
    ++ line (i ++ tb) "Types: []*graphql.Object{ Type },"
    ++ line (i ++ tb)
         "ResolveType: func(p graphql.ResolveParams) *graphql.Object { return nil }, // TODO"
    ++ emit (descrField descr doc) (i ++ tb)
    ++ line i "})" /\
  emit (generateUnion "Test" false None {| Members := [ident "A"] |}) EmptyString
  = line EmptyString "NewUnion(graphql.UnionConfig{"
    ++ line tb ("Name: " ++ q ++ "Test" ++ q ++ ",")
    ++ line tb "Types: []*graphql.Object{ Type },"
    ++ line tb
         "ResolveType: func(p graphql.ResolveParams) *graphql.Object { return nil }, // TODO"
    ++ line EmptyString "})" /\
  index 0 "AType"
    (emit (generateUnion "Test" false None {| Members := [ident "A"] |}) EmptyString)
  = None.
Proof.
  split; [|split; vm_compute; reflexivity].
  apply emits_emit with (j := i). unfold generateUnion, nameField. simpl.
  emits_text.
Qed.

(** With two members and more every member is written with its name, as
    in the test of the repository. *)
Example generateUnion_two_members :
  emit (generateUnion "Test" false None {| Members := [ident "A"; ident "B"] |})
    EmptyString
  = line EmptyString "NewUnion(graphql.UnionConfig{"
    ++ line tb ("Name: " ++ q ++ "Test" ++ q ++ ",")
    ++ line tb "Types: []*graphql.Object{"
    ++ line (tb ++ tb) "AType,"
    ++ line (tb ++ tb) "BType,"
    ++ line tb "},"
    ++ line tb
         "ResolveType: func(p graphql.ResolveParams) *graphql.Object { return nil }, // TODO"
    ++ line EmptyString "})".
Proof. vm_compute. reflexivity. Qed.

(** ** Description fields *)

Lemma dropLast_newline (s : string) : dropLast (s ++ nl) = s.
Proof. apply dropLast_snoc. Qed.

Lemma emits_printDescr (doc : DocGroup) (i : string) :
  Text doc <> EmptyString ->
  emits (printDescr doc ;; WriteByte newline) i (descrLine i (Text doc)) i.
Proof.
  intros H. unfold printDescr. rewrite (len_pos_cons H). emits_text.
Qed.

Lemma emits_descrField (doc : DocGroup) (i : string) :
  Text doc <> EmptyString ->
  emits (descrField true (Some doc)) i (descrLine i (Text doc)) i.
Proof. intros H. simpl. now apply emits_printDescr. Qed.

Lemma emits_descrP (doc : DocGroup) (i : string) :
  Text doc <> EmptyString ->
  emits (descrP true (Some doc)) i (descrLine i (Text doc)) i.
Proof.
  intros H. simpl. rewrite (len_pos_cons H). emits_text.
Qed.

(** A declaration that ends in the description, the dedent and the
    closing line. *)
Lemma descrLast_tail (X : Gen) (doc : DocGroup) (i : string) :
  runs X i (i ++ tb) -> Text doc <> EmptyString ->
  descrLast (emit (X ;; descrField true (Some doc) ;; Out ;; P [PString "})"]) i)
    i (Text doc).
Proof.
  intros HX Hd. exists (emit X i).
  apply emits_emit with (j := i).
  eapply emits_eq.
  - eapply emits_seq; [eapply emits_seq; [eapply emits_seq|]|].
    + apply runs_emits, HX.
    + now apply emits_descrField.
    + apply emits_Out.
    + apply emits_P.
  - cbn [P_text]. rewrite PArg_text_PString.
    rewrite !append_assoc, !append_nil_r. reflexivity.
Qed.

(** The same for a field, an argument or an enum value. *)
Lemma descrLastIn_tail (X : Gen) (doc : DocGroup) (i : string) :
  runs X i (i ++ tb) -> Text doc <> EmptyString ->
  descrLastIn
    (emit (X ;; descrField true (Some doc) ;; Out ;; P [PString "},"]) i)
    (i ++ tb) i (Text doc).
Proof.
  intros HX Hd. exists (emit X i).
  apply emits_emit with (j := i).
  eapply emits_eq.
  - eapply emits_seq; [eapply emits_seq; [eapply emits_seq|]|].
    + apply runs_emits, HX.
    + now apply emits_descrField.
    + apply emits_Out.
    + apply emits_P.
  - cbn [P_text]. rewrite PArg_text_PString.
    rewrite !append_assoc, !append_nil_r. reflexivity.
Qed.

Lemma descrLast_generateObject (name : string) (doc : DocGroup)
    (obj : ObjectType) (i : string) :
  Text doc <> EmptyString ->
  descrLast (emit (generateObject name true (Some doc) obj) i) i (Text doc).
Proof.
  intros H. unfold generateObject. apply descrLast_tail; [|exact H].
  destruct (Interfaces obj) as [|i0 [|i1 rest]]; simpl List.length;
    match goal with |- context [(1 <? ?n)%Z] => destruct (1 <? n)%Z end;
    runs_chain.
Qed.

Lemma descrLast_generateInterface (name : string) (doc : DocGroup)
    (inter : InterfaceType) (i : string) :
  Text doc <> EmptyString ->
  descrLast (emit (generateInterface name true (Some doc) inter) i) i (Text doc).
Proof.
  intros H. unfold generateInterface. apply descrLast_tail; [|exact H].
  runs_chain.
Qed.

Lemma descrLast_generateUnion (name : string) (doc : DocGroup)
    (union : UnionType) (i : string) :
  Text doc <> EmptyString ->
  descrLast (emit (generateUnion name true (Some doc) union) i) i (Text doc).
Proof.
  intros H. unfold generateUnion. apply descrLast_tail; [|exact H].
  destruct (Members union) as [|m0 [|m1 rest]]; simpl List.length;
    match goal with |- context [(1 <? ?n)%Z] => destruct (1 <? n)%Z end;
    runs_chain.
Qed.

Lemma descrLast_generateInput (name : string) (doc : DocGroup)
    (input : InputType) (i : string) :
  Text doc <> EmptyString ->
  descrLast (emit (generateInput name true (Some doc) input) i) i (Text doc).
Proof.
  intros H. unfold generateInput. apply descrLast_tail; [|exact H].
  runs_chain.
Qed.

Lemma generateScalar_text (name : string) (doc : DocGroup) (i : string) :
  Text doc <> EmptyString ->
  emit (generateScalar name true (Some doc)) i
  = line i "NewScalar(graphql.ScalarConfig{"
    ++ line (i ++ tb) ("Name: " ++ q ++ name ++ q ++ ",")
    ++ descrLine (i ++ tb) (Text doc)
    ++ line (i ++ tb)
         "Serialize: func(value interface{}) interface{} { return nil }, // TODO"
    ++ line i "})".
Proof.
  intros H. apply emits_emit with (j := i).
  unfold generateScalar, nameField.
  eapply emits_eq.
  - eapply emits_seq; [eapply emits_seq; [eapply emits_seq;
      [eapply emits_seq|]|]|]; [emits_chain|now apply emits_descrP|..];
      emits_chain.
  - text_norm. reflexivity.
Qed.

Lemma generateEnum_text (name : string) (doc : DocGroup) (enum : EnumType)
    (i : string) :
  Text doc <> EmptyString ->
  emit (generateEnum name true (Some doc) enum) i
  = line i "NewEnum(graphql.EnumConfig{"
    ++ line (i ++ tb) ("Name: " ++ q ++ name ++ q ++ ",")
    ++ descrLine (i ++ tb) (Text doc)
    ++ line (i ++ tb) "Values: graphql.EnumValueConfigMap{"
    ++ emit (forEach (Values enum) (enumValue true)) ((i ++ tb) ++ tb)
    ++ line (i ++ tb) "},"
    ++ line i "})".
Proof.
  intros H. apply emits_emit with (j := i).
  unfold generateEnum, nameField.
  eapply emits_eq.
  - do 7 (eapply emits_seq; [|emits_chain]).
    eapply emits_seq; [emits_chain|now apply emits_descrField].
  - text_norm. reflexivity.
Qed.

Lemma generateDirective_text (name : string) (doc : DocGroup)
    (directive : DirectiveType) (i : string) :
  Text doc <> EmptyString ->
  emit (generateDirective name true (Some doc) directive) i
  = line i "NewDirective(graphql.DirectiveConfig{"
    ++ line (i ++ tb) ("Name: " ++ q ++ name ++ q ++ ",")
    ++ descrLine (i ++ tb) (Text doc)
    ++ emit (locationsField (Locs directive)) (i ++ tb)
    ++ emit (argsField true (dir_Args directive)) (i ++ tb)
    ++ line i "})".
Proof.
  intros H. apply emits_emit with (j := i).
  unfold generateDirective, nameField.
  eapply emits_eq.
  - do 4 (eapply emits_seq; [|emits_chain]).
    eapply emits_seq; [emits_chain|now apply emits_descrP].
  - text_norm. reflexivity.
Qed.

Lemma descrLastIn_objectField (f : Field) (doc : DocGroup) (i : string) :
  f_Doc f = Some doc -> Text doc <> EmptyString ->
  descrLastIn (emit (objectField true f) i) (i ++ tb) i (Text doc).
Proof.
  intros Hf H. unfold objectField. rewrite Hf.
  apply descrLastIn_tail; [|exact H]. runs_chain.
Qed.

Lemma descrLastIn_interfaceField (f : Field) (doc : DocGroup) (i : string) :
  f_Doc f = Some doc -> Text doc <> EmptyString ->
  descrLastIn (emit (interfaceField true f) i) (i ++ tb) i (Text doc).
Proof.
  intros Hf H. unfold interfaceField. rewrite Hf.
  apply descrLastIn_tail; [|exact H]. destruct (f_Args f); runs_chain.
Qed.

Lemma descrLastIn_enumValue (v : Field) (doc : DocGroup) (i : string) :
  f_Doc v = Some doc -> Text doc <> EmptyString ->
  descrLastIn (emit (enumValue true v) i) (i ++ tb) i (Text doc).
Proof.
  intros Hf H. unfold enumValue. rewrite Hf.
  apply descrLastIn_tail; [|exact H]. runs_chain.
Qed.

Lemma descrLastIn_argumentConfig (a : InputValue) (doc : DocGroup) (i : string) :
  iv_Doc a = Some doc -> Text doc <> EmptyString ->
  descrLastIn (emit (argumentConfig true a) i) (i ++ tb) i (Text doc).
Proof.
  intros Ha H. unfold argumentConfig. rewrite Ha.
  apply descrLastIn_tail; [|exact H]. runs_chain.
Qed.

Lemma descrLastIn_interfaceArgumentConfig (a : InputValue) (doc : DocGroup)
    (i : string) :
  iv_Doc a = Some doc -> Text doc <> EmptyString ->
  descrLastIn (emit (interfaceArgumentConfig true a) i) (i ++ tb) i (Text doc).
Proof.
  intros Ha H. unfold interfaceArgumentConfig. rewrite Ha.
  apply descrLastIn_tail; [|exact H]. destruct (iv_Default a); runs_chain.
Qed.

(** In an input field the description is written after the dedent, at
    the indent of the closing line. *)
Lemma descrLastIn_inputField (a : InputValue) (doc : DocGroup) (i : string) :
  iv_Doc a = Some doc -> Text doc <> EmptyString ->
  descrLastIn (emit (inputField true a) i) i i (Text doc).
Proof.
  intros Ha H. unfold inputField. rewrite Ha.
  match goal with
  | |- descrLastIn (emit (?X ;; descrField _ _ ;; _) _) _ _ _ =>
      exists (emit X i); apply emits_emit with (j := i);
      eapply emits_eq;
      [ eapply emits_seq; [eapply emits_seq|];
        [apply runs_emits; runs_chain | now apply emits_descrField | apply emits_P]
      | cbn [P_text]; rewrite PArg_text_PString;
        rewrite !append_assoc, !append_nil_r; reflexivity ]
  end.
Qed.

(** C2, the claim as stated, fails on a scalar: with descriptions on, a
    scalar that has a doc comment gets its description before the
    [Serialize] field, not before the closing line. *)
Lemma scalar_description_is_not_last :
  ~ descrLast
      (emit (generateScalar "Version" true
               (Some {| Text := "Version represents an API version." ++ nl |}))
         EmptyString)
      EmptyString ("Version represents an API version." ++ nl).
Proof.
  intros H. apply endsWith_hasSuffix in H. vm_compute in H. discriminate H.
Qed.

(** C2, amended.  With descriptions on and a doc text that is not empty:
    the description is the last keyed field, directly before the closing
    line, of an object, interface, union and input declaration and of
    every field, argument and enum value; in a scalar, an enum and a
    directive declaration it is the field directly after [Name], before
    [Serialize], [Values], and the locations and arguments.  Everywhere
    the embedded text is the doc text without its last byte, which drops
    the line end of a text that ends in one. *)
Theorem description_field_position (name : string) (doc : DocGroup) (i : string)
    (obj : ObjectType) (inter : InterfaceType) (union : UnionType)
    (input : InputType) (enum : EnumType) (directive : DirectiveType)
    (f : Field) (a : InputValue) :
  Text doc <> EmptyString ->
  f_Doc f = Some doc ->
  iv_Doc a = Some doc ->
  descrLast (emit (generateObject name true (Some doc) obj) i) i (Text doc) /\
  descrLast (emit (generateInterface name true (Some doc) inter) i) i (Text doc) /\
  descrLast (emit (generateUnion name true (Some doc) union) i) i (Text doc) /\
  descrLast (emit (generateInput name true (Some doc) input) i) i (Text doc) /\
  descrLastIn (emit (objectField true f) i) (i ++ tb) i (Text doc) /\
  descrLastIn (emit (interfaceField true f) i) (i ++ tb) i (Text doc) /\
  descrLastIn (emit (enumValue true f) i) (i ++ tb) i (Text doc) /\
  descrLastIn (emit (argumentConfig true a) i) (i ++ tb) i (Text doc) /\
  descrLastIn (emit (interfaceArgumentConfig true a) i) (i ++ tb) i (Text doc) /\
  descrLastIn (emit (inputField true a) i) i i (Text doc) /\
  emit (generateScalar name true (Some doc)) i
  = line i "NewScalar(graphql.ScalarConfig{"
    ++ line (i ++ tb) ("Name: " ++ q ++ name ++ q ++ ",")
    ++ descrLine (i ++ tb) (Text doc)
    ++ line (i ++ tb)
         "Serialize: func(value interface{}) interface{} { return nil }, // TODO"
    ++ line i "})" /\
  emit (generateEnum name true (Some doc) enum) i
  = line i "NewEnum(graphql.EnumConfig{"
    ++ line (i ++ tb) ("Name: " ++ q ++ name ++ q ++ ",")
    ++ descrLine (i ++ tb) (Text doc)
    ++ line (i ++ tb) "Values: graphql.EnumValueConfigMap{"
    ++ emit (forEach (Values enum) (enumValue true)) ((i ++ tb) ++ tb)
    ++ line (i ++ tb) "},"
    ++ line i "})" /\
  emit (generateDirective name true (Some doc) directive) i
  = line i "NewDirective(graphql.DirectiveConfig{"
    ++ line (i ++ tb) ("Name: " ++ q ++ name ++ q ++ ",")
    ++ descrLine (i ++ tb) (Text doc)
    ++ emit (locationsField (Locs directive)) (i ++ tb)
    ++ emit (argsField true (dir_Args directive)) (i ++ tb)
    ++ line i "})" /\
  (forall s j, descrLine j (s ++ nl)
               = line j ("Description: " ++ q ++ s ++ q ++ ",")).
Proof.
  intros H Hf Ha.
  repeat match goal with |- _ /\ _ => split end.
  - now apply descrLast_generateObject.
  - now apply descrLast_generateInterface.
  - now apply descrLast_generateUnion.
  - now apply descrLast_generateInput.
  - now apply descrLastIn_objectField.
  - now apply descrLastIn_interfaceField.
  - now apply descrLastIn_enumValue.
  - now apply descrLastIn_argumentConfig.
  - now apply descrLastIn_interfaceArgumentConfig.
  - now apply descrLastIn_inputField.
  - now apply generateScalar_text.
  - now apply generateEnum_text.
  - now apply generateDirective_text.
  - intros s j. unfold descrLine. now rewrite dropLast_newline.
Qed.

(** The amended statement at the scalar [Version] of the test schema, an
    object field and an argument. *)
Lemma description_field_position_witness :
  let doc := {| Text := "Version represents an API version." ++ nl |} in
  let f := {| f_Name := {| Name := "version" |}; f_Args := None;
              f_Type := Some (Ident_ {| Name := "Version" |});
              f_Doc := Some doc |} in
  let a := {| iv_Name := {| Name := "text" |};
              iv_Type := Some (Ident_ {| Name := "String" |});
              iv_Default := None; iv_Doc := Some doc |} in
  Text doc <> EmptyString /\ f_Doc f = Some doc /\ iv_Doc a = Some doc /\
  descrLast
    (emit (generateObject "Query" true (Some doc)
             {| Interfaces := []; obj_Fields := [f] |}) EmptyString)
    EmptyString (Text doc).
Proof.
  intros doc f a.
  split; [discriminate|]. split; [reflexivity|]. split; [reflexivity|].
  apply (@description_field_position "Query" doc EmptyString
           {| Interfaces := []; obj_Fields := [f] |}
           {| inter_Fields := [f] |} {| Members := [] |}
           {| input_Fields := [a] |} {| Values := [f] |}
           {| Locs := []; dir_Args := Some [a] |} f a);
    [discriminate | reflexivity | reflexivity].
Defined.

(** ** Interface fields against object fields *)

(** Without arguments an interface field is the object field without the
    resolver line. *)
Lemma interfaceField_without_args (descr : bool) (f : Field) (i : string) :
  f_Args f = None ->
  emit (interfaceField descr f) i = emit (spec_interfaceField descr f) i.
Proof.
  intros H.
  erewrite (@emits_emit (interfaceField descr f));
    [|unfold interfaceField; rewrite H; emits_chain].
  erewrite (@emits_emit (spec_interfaceField descr f));
    [|unfold spec_interfaceField, argsField; rewrite H; emits_chain].
  text_norm. reflexivity.
Qed.

(** The argument of an interface field is shorter than the same argument
    of an object field: by the comma after the type when there is a
    default value, by the comma and the line end when there is none. *)
Lemma interfaceArgumentConfig_shorter (descr : bool) (a : InputValue) (i : string) :
  String.length (emit (argumentConfig descr a) i)
  = (String.length (emit (interfaceArgumentConfig descr a) i)
     + match iv_Default a with Some _ => 1 | None => 2 end)%nat.
Proof.
  destruct (iv_Default a) as [d|] eqn:E.
  - erewrite (@emits_emit (argumentConfig descr a));
      [|unfold argumentConfig, defaultField; rewrite E; emits_chain].
    erewrite (@emits_emit (interfaceArgumentConfig descr a));
      [|unfold interfaceArgumentConfig; rewrite E; emits_chain].
    text_norm. repeat (rewrite length_append || cbn [String.length]). lia.
  - erewrite (@emits_emit (argumentConfig descr a));
      [|unfold argumentConfig, defaultField; rewrite E; emits_chain].
    erewrite (@emits_emit (interfaceArgumentConfig descr a));
      [|unfold interfaceArgumentConfig; rewrite E; emits_chain].
    text_norm. repeat (rewrite length_append || cbn [String.length]). lia.
Qed.

(** C3.  The interface emitter does not write the argument text of the
    object emitter: it leaves out the comma and line end after the type
    of an argument.  For [echo(text: String): Echo] the argument type runs
    into the closing line, where the object rendering without the
    resolver line has [Type: graphql.String,] on a line of its own; and
    for every argument the interface text is shorter than the object
    text. *)
Theorem interfaceField_argument_type_not_terminated :
  emit (interfaceField false echoField) EmptyString
  = line EmptyString (q ++ "echo" ++ q ++ ": &graphql.Field{")
    ++ line tb "Type: EchoType,"
    ++ line tb "Args: graphql.FieldConfigArgument{"
    ++ line (tb ++ tb) (q ++ "text" ++ q ++ ": &graphql.ArgumentConfig{")
    ++ (tb ++ tb ++ tb) ++ "Type: graphql.String"
    ++ line (tb ++ tb) "},"
    ++ line tb "},"
    ++ line EmptyString "}," /\
  emit (spec_interfaceField false echoField) EmptyString
  = line EmptyString (q ++ "echo" ++ q ++ ": &graphql.Field{")
    ++ line tb "Type: EchoType,"
    ++ line tb "Args: graphql.FieldConfigArgument{"
    ++ line (tb ++ tb) (q ++ "text" ++ q ++ ": &graphql.ArgumentConfig{")
    ++ line (tb ++ tb ++ tb) "Type: graphql.String,"
    ++ line (tb ++ tb) "},"
    ++ line tb "},"
    ++ line EmptyString "}," /\
  emit (interfaceField false echoField) EmptyString
  <> emit (spec_interfaceField false echoField) EmptyString /\
  (forall descr a i,
     String.length (emit (argumentConfig descr a) i)
     = (String.length (emit (interfaceArgumentConfig descr a) i)
        + match iv_Default a with Some _ => 1 | None => 2 end)%nat).
Proof.
  split; [vm_compute; reflexivity|]. split; [vm_compute; reflexivity|]. split.
  - intros H. vm_compute in H. discriminate H.
  - apply interfaceArgumentConfig_shorter.
Qed.

(** ** Option resolution *)

(** The trim succeeds on a package string of two bytes or more, and on
    one that does not start with a quote. *)
Lemma trimPackage_two_bytes (gOpts : Options) :
  (2 <= String.length (Package gOpts))%nat ->
  exists gOpts', trimPackage gOpts = Done gOpts'.
Proof.
  intros H. unfold trimPackage.
  destruct (Package gOpts) as [|c s] eqn:E; [simpl in H; lia|].
  simpl index0_is. destruct (Ascii.eqb c quote); [|eauto].
  unfold slice.
  assert (Hb : ((0 <=? 1) && (1 <=? len (String c s) - 1)
                && (len (String c s) - 1 <=? len (String c s)))%Z = true).
  { unfold len. simpl String.length in *.
    rewrite !andb_true_iff, !Z.leb_le. lia. }
  rewrite Hb. eauto.
Qed.

Lemma trimPackage_no_quote (gOpts : Options) (c : ascii) (s : string) :
  Package gOpts = String c s -> c <> quote -> trimPackage gOpts = Done gOpts.
Proof.
  intros E Hc. unfold trimPackage. rewrite E. simpl.
  destruct (Ascii.eqb_spec c quote); [contradiction|reflexivity].
Qed.

(** Once the directives are read without error, a blob that the decoder
    turns into an empty package makes [getOptions] panic. *)
Lemma getOptions_decoded_empty_package
    (json_Unmarshal : string -> Options -> Options * option string)
    (doc : Document) (opts : string) (gOpts gOpts' : Options) :
  directivesLoop (Directives doc) {| Package := "main"; Descriptions := false |}
    = Done (gOpts, None) ->
  opts <> EmptyString ->
  json_Unmarshal opts gOpts = (gOpts', None) ->
  Package gOpts' = EmptyString ->
  getOptions json_Unmarshal doc opts
  = Panic "runtime error: index out of range [0] with length 0".
Proof.
  intros Hd Ho Hj Hp. unfold getOptions. rewrite Hd, (len_pos_cons Ho), Hj.
  unfold trimPackage. rewrite Hp. reflexivity.
Qed.

(** C4.  The trim of the package string is not total: [getOptions]
    indexes the first byte of the package without a length test and
    slices off the last byte without looking at it.  On the empty package
    the index is out of range, on the package that is one quote the slice
    bounds are; so [getOptions] panics on the blob that sets the package
    to the empty string, and on a directive whose package literal is
    empty or one quote, instead of returning options or an error. *)
Theorem getOptions_package_trim_panics
    (json_Unmarshal : string -> Options -> Options * option string) :
  trimPackage {| Package := EmptyString; Descriptions := false |}
  = Panic "runtime error: index out of range [0] with length 0" /\
  trimPackage {| Package := q; Descriptions := false |}
  = Panic "runtime error: slice bounds out of range" /\
  getOptions unmarshalEmptyPackage docQuery optsEmptyPackage
  = Panic "runtime error: index out of range [0] with length 0" /\
  getOptions json_Unmarshal
    (docWithOptions [Pair (ident "package") (basic EmptyString)]) EmptyString
  = Panic "runtime error: index out of range [0] with length 0" /\
  getOptions json_Unmarshal
    (docWithOptions [Pair (ident "package") (basic q)]) EmptyString
  = Panic "runtime error: slice bounds out of range".
Proof. repeat split; reflexivity. Qed.

(** The message of [strconv.ParseBool] quotes the rejected text: a
    string literal, whose value holds its quotes, has them escaped. *)
Example ParseBool_quotes_its_input :
  ParseBool (q ++ "yes" ++ q)
  = inr ("strconv.ParseBool: parsing " ++ q ++ escaped quote ++ "yes"
         ++ escaped quote ++ q ++ ": invalid syntax").
Proof. reflexivity. Qed.

(** A boolean that [strconv.ParseBool] rejects, as the first option of
    the first [go] directive, is returned as the error. *)
Lemma getOptions_malformed_boolean
    (json_Unmarshal : string -> Options -> Options * option string)
    (doc : Document) (opts value err : string) (rest : list ObjLit_Pair)
    (ds : list DirectiveLit) :
  Directives doc = goDirective (Pair (ident "descriptions") (basic value) :: rest) :: ds ->
  ParseBool value = inr err ->
  getOptions json_Unmarshal doc opts
  = Done ({| Package := "main"; Descriptions := false |}, Some err).
Proof.
  intros Hd Hb. unfold getOptions. rewrite Hd. simpl. rewrite Hb. reflexivity.
Qed.

(** A blob that the decoder rejects is returned as the error. *)
Lemma getOptions_malformed_json
    (json_Unmarshal : string -> Options -> Options * option string)
    (doc : Document) (opts err : string) (gOpts gOpts' : Options) :
  directivesLoop (Directives doc) {| Package := "main"; Descriptions := false |}
    = Done (gOpts, None) ->
  opts <> EmptyString ->
  json_Unmarshal opts gOpts = (gOpts', Some err) ->
  getOptions json_Unmarshal doc opts = Done (gOpts', Some err).
Proof.
  intros Hd Ho Hj. unfold getOptions. rewrite Hd, (len_pos_cons Ho), Hj.
  reflexivity.
Qed.

(** ** The driver *)

(** C6.  When option resolution returns an error, [Generate] returns it
    wrapped with the document name and the generator name; the buffer is
    empty, as [Reset] left it, so no header and no declaration was
    written, and the sink was not opened. *)
Theorem Generate_option_error_writes_nothing
    (json_Unmarshal : string -> Options -> Options * option string)
    (g : Generator) (gCtx : GeneratorContext) (doc : Document)
    (opts : string) (gOpts : Options) (oerr : string) :
  getOptions json_Unmarshal doc opts = Done (gOpts, Some oerr) ->
  Generate json_Unmarshal g gCtx doc opts
  = {| outcome := Returned (Some (generatorError doc oerr));
       final := {| Buffer := EmptyString; indent := EmptyString |};
       events := [] |}.
Proof. intros H. unfold Generate. rewrite H. reflexivity. Qed.

(** C6 at a document whose directive has [descriptions: maybe], and at
    a blob that is not JSON. *)
Lemma Generate_option_error_writes_nothing_witness :
  getOptions unmarshalNothing
    (docWithOptions [Pair (ident "descriptions") (basic "maybe")]) EmptyString
  = Done ({| Package := "main"; Descriptions := false |},
          Some ("strconv.ParseBool: parsing " ++ q ++ "maybe" ++ q ++ ": invalid syntax")) /\
  Generate unmarshalNothing {| Buffer := "left over"; indent := tb |} sinkOk
    (docWithOptions [Pair (ident "descriptions") (basic "maybe")]) EmptyString
  = {| outcome :=
         Returned (Some {| DocName := "test.gql"; GenName := "go";
                           Msg := "strconv.ParseBool: parsing " ++ q ++ "maybe" ++ q
                                  ++ ": invalid syntax" |});
       final := {| Buffer := EmptyString; indent := EmptyString |};
       events := [] |}.
Proof.
  split; [reflexivity|].
  apply (@Generate_option_error_writes_nothing unmarshalNothing
           {| Buffer := "left over"; indent := tb |} sinkOk
           (docWithOptions [Pair (ident "descriptions") (basic "maybe")])
           EmptyString {| Package := "main"; Descriptions := false |}
           ("strconv.ParseBool: parsing " ++ q ++ "maybe" ++ q ++ ": invalid syntax")).
  reflexivity.
Defined.

Example Generate_malformed_blob :
  Generate unmarshalSyntaxError {| Buffer := "left over"; indent := tb |} sinkOk
    docQuery optsMalformed
  = {| outcome :=
         Returned (Some {| DocName := "test.gql"; GenName := "go";
                           Msg := "invalid character looking for beginning of value" |});
       final := {| Buffer := EmptyString; indent := EmptyString |};
       events := [] |}.
Proof. reflexivity. Qed.

(** A failed write is returned wrapped, after one [Open] and one [Write]
    of the whole assembled text. *)
Lemma Generate_write_error
    (json_Unmarshal : string -> Options -> Options * option string)
    (g g' : Generator) (gCtx : GeneratorContext) (doc : Document)
    (opts : string) (gOpts : Options) (goFile : WriteCloser) (m : nat)
    (err : string) :
  getOptions json_Unmarshal doc opts = Done (gOpts, None) ->
  assemble gOpts doc (Reset g) = (g', None) ->
  Open gCtx (goFileName doc ++ ".go") = (Some goFile, None) ->
  Buffer g' <> EmptyString ->
  wc_Write goFile (Buffer g') = (m, Some err) ->
  (m <= String.length (Buffer g'))%nat ->
  outcome (Generate json_Unmarshal g gCtx doc opts)
  = Returned (Some (generatorError doc err)) /\
  events (Generate json_Unmarshal g gCtx doc opts)
  = [EvOpen (goFileName doc ++ ".go"); EvWrite (Buffer g'); EvClose].
Proof.
  intros Ho Ha Hop Hb Hw Hm. unfold Generate. rewrite Ho, Ha, Hop.
  unfold WriteTo.
  assert (Hn : (0 <? String.length (Buffer g'))%nat = true).
  { apply Nat.ltb_lt. destruct (Buffer g'); [congruence|simpl; lia]. }
  rewrite Hn, Hw.
  assert (Hlt : (String.length (Buffer g') <? m)%nat = false)
    by (apply Nat.ltb_ge; lia).
  rewrite Hlt. split; reflexivity.
Qed.

(** A failed [Open] that still returns a file is returned wrapped, and
    nothing is written. *)
Lemma Generate_open_error_with_file
    (json_Unmarshal : string -> Options -> Options * option string)
    (g g' : Generator) (gCtx : GeneratorContext) (doc : Document)
    (opts : string) (gOpts : Options) (goFile : WriteCloser) (err : string) :
  getOptions json_Unmarshal doc opts = Done (gOpts, None) ->
  assemble gOpts doc (Reset g) = (g', None) ->
  Open gCtx (goFileName doc ++ ".go") = (Some goFile, Some err) ->
  Generate json_Unmarshal g gCtx doc opts
  = {| outcome := Returned (Some (generatorError doc err)); final := g';
       events := [EvOpen (goFileName doc ++ ".go"); EvClose] |}.
Proof.
  intros Ho Ha Hop. unfold Generate. rewrite Ho, Ha, Hop. reflexivity.
Qed.

(** A failed [Open] that returns no file makes [Generate] panic: the
    deferred [Close] is set up on the nil file before the error is
    looked at. *)
Lemma Generate_open_error_without_file
    (json_Unmarshal : string -> Options -> Options * option string)
    (g g' : Generator) (gCtx : GeneratorContext) (doc : Document)
    (opts : string) (gOpts : Options) (err : option string) :
  getOptions json_Unmarshal doc opts = Done (gOpts, None) ->
  assemble gOpts doc (Reset g) = (g', None) ->
  Open gCtx (goFileName doc ++ ".go") = (None, err) ->
  Generate json_Unmarshal g gCtx doc opts
  = {| outcome :=
         Panicked "runtime error: invalid memory address or nil pointer dereference";
       final := g'; events := [EvOpen (goFileName doc ++ ".go")] |}.
Proof.
  intros Ho Ha Hop. unfold Generate. rewrite Ho, Ha, Hop. reflexivity.
Qed.

(** C5.  For [type Query { hello: String }]: a sink whose [Open] fails
    and returns no file makes [Generate] panic on the deferred [Close]
    instead of returning the failure; a failed [Open] that returns a
    file, and a failed [Write], are returned wrapped with the document
    name and the generator name, after the whole text is assembled and
    with one attempt on the sink. *)
Theorem Generate_open_failure_panics
    (json_Unmarshal : string -> Options -> Options * option string)
    (g : Generator) :
  Generate json_Unmarshal g sinkOpenFails docQuery EmptyString
  = {| outcome :=
         Panicked "runtime error: invalid memory address or nil pointer dereference";
       final := {| Buffer := docQueryText; indent := EmptyString |};
       events := [EvOpen "test.go"] |} /\
  Generate json_Unmarshal g sinkOpenFailsWithFile docQuery EmptyString
  = {| outcome :=
         Returned (Some {| DocName := "test.gql"; GenName := "go";
                           Msg := "permission denied" |});
       final := {| Buffer := docQueryText; indent := EmptyString |};
       events := [EvOpen "test.go"; EvClose] |} /\
  Generate json_Unmarshal g sinkWriteFails docQuery EmptyString
  = {| outcome :=
         Returned (Some {| DocName := "test.gql"; GenName := "go";
                           Msg := "no space left on device" |});
       final := {| Buffer := docQueryText; indent := EmptyString |};
       events := [EvOpen "test.go"; EvWrite docQueryText; EvClose] |}.
Proof. repeat split; vm_compute; reflexivity. Qed.

(** Scenario A of the specification: the one declaration [QueryType],
    handed to the sink under the name [test.go]. *)
Example Generate_docQuery
    (json_Unmarshal : string -> Options -> Options * option string)
    (g : Generator) :
  Generate json_Unmarshal g sinkOk docQuery EmptyString
  = {| outcome := Returned None;
       final := {| Buffer := EmptyString; indent := EmptyString |};
       events := [EvOpen "test.go"; EvWrite docQueryText; EvClose] |}.
Proof. vm_compute. reflexivity. Qed.

(** ** The loop over the declarations *)

Lemma lastSkipped_cons (d : TypeDecl) (rest : list TypeDecl) :
  rest <> [] -> lastSkipped (d :: rest) = lastSkipped rest.
Proof. destruct rest; [congruence|reflexivity]. Qed.

Lemma emittedDecls_nil_lastSkipped (ds : list TypeDecl) :
  ds <> [] -> emittedDecls ds = [] -> lastSkipped ds = true.
Proof.
  induction ds as [|d rest IH]; [congruence|]. intros _ H.
  simpl in H. destruct (emitted d) eqn:E; [discriminate|].
  destruct rest as [|r rest'].
  - simpl. now rewrite E.
  - rewrite lastSkipped_cons by congruence. apply IH; [congruence|exact H].
Qed.

(** What the loop writes: the emitted declarations in document order
    with one blank line between two of them, and one more blank line
    when the last declaration of the document is skipped. *)
Lemma typesLoop_from (descr : bool) (ds : list TypeDecl) :
  forall (i : Z) (g : Generator),
    typesLoop descr (i + Z.of_nat (List.length ds) - 1) i ds g
    = (spec_declarations descr (emittedDecls ds) ;;
       (if trailingBlank ds then P [] else skip)) g.
Proof.
  induction ds as [|d rest IH]; intros i g.
  - reflexivity.
  - replace (i + Z.of_nat (List.length (d :: rest)) - 1)%Z
      with (i + 1 + Z.of_nat (List.length rest) - 1)%Z
      by (simpl List.length; lia).
    cbn [typesLoop]. unfold seq at 1. rewrite IH.
    unfold trailingBlank. cbn [emittedDecls].
    destruct rest as [|r rest'].
    + (* the last declaration of the document *)
      destruct (emitted d) as [ts|] eqn:E.
      * replace (i + 1 + Z.of_nat (List.length (@nil TypeDecl)) - 1)%Z with i
          by (simpl; lia).
        rewrite Z.eqb_refl. simpl. rewrite E. reflexivity.
      * simpl. rewrite E. reflexivity.
    + rewrite (@lastSkipped_cons d (r :: rest')) by congruence.
      destruct (emitted d) as [ts|] eqn:E.
      * assert (Hne : (i =? i + 1 + Z.of_nat (List.length (r :: rest')) - 1)%Z = false).
        { apply Z.eqb_neq. simpl List.length. lia. }
        rewrite Hne.
        destruct (emittedDecls (r :: rest')) as [|p ps] eqn:Er.
        -- rewrite (emittedDecls_nil_lastSkipped (ds := r :: rest'))
             by (congruence || exact Er).
           reflexivity.
        -- rewrite !andb_true_r. destruct p as [pdoc pts]. reflexivity.
      * reflexivity.
Qed.

Lemma typesLoop_spec (descr : bool) (ds : list TypeDecl) (g : Generator) :
  typesLoop descr (Z.of_nat (List.length ds) - 1) 0 ds g
  = (spec_declarations descr (emittedDecls ds) ;;
     (if trailingBlank ds then P [] else skip)) g.
Proof. apply (typesLoop_from descr ds 0 g). Qed.

(** C7.  The loop writes the emitted declarations in document order with
    one blank line between two of them, but the test for the last one
    compares with the index of the last declaration of the document,
    skipped or not: when that one is skipped, as a schema declared after
    the types is, a blank line follows the final emitted declaration.
    With the schema declared last the output has two blank lines before
    the schema block; with the schema declared first it has one. *)
Theorem typesLoop_blank_after_final_declaration
    (json_Unmarshal : string -> Options -> Options * option string)
    (g : Generator) (descr : bool) (ds : list TypeDecl) :
  typesLoop descr (Z.of_nat (List.length ds) - 1) 0 ds g
  = (spec_declarations descr (emittedDecls ds) ;;
     (if trailingBlank ds then P [] else skip)) g /\
  trailingBlank (Types docSchemaLast) = true /\
  emit (spec_declarations false (emittedDecls (Types docSchemaLast))) EmptyString
  = docQueryDecl /\
  emit (typesLoop false 1 0 (Types docSchemaLast)) EmptyString
  = docQueryDecl ++ nl /\
  Generate json_Unmarshal g sinkOk docSchemaLast EmptyString
  = {| outcome := Returned None;
       final := {| Buffer := EmptyString; indent := EmptyString |};
       events :=
         [EvOpen "test.go";
          EvWrite (headerText ++ line EmptyString "var Schema graphql.Schema" ++ nl
                   ++ docQueryDecl ++ nl ++ schemaInitText);
          EvClose] |} /\
  Generate json_Unmarshal g sinkOk docSchemaFirst EmptyString
  = {| outcome := Returned None;
       final := {| Buffer := EmptyString; indent := EmptyString |};
       events :=
         [EvOpen "test.go";
          EvWrite (headerText ++ line EmptyString "var Schema graphql.Schema" ++ nl
                   ++ docQueryDecl ++ schemaInitText);
          EvClose] |}.
Proof.
  split; [apply typesLoop_spec|].
  repeat split; vm_compute; reflexivity.
Qed.

(** ** Loops *)

(** A loop over a list writes the texts of the elements one after the
    other, in the order of the list. *)
Lemma forEach_in_order {A : Type} (l : list A) (body : A -> Gen) (i : string) :
  (forall x, runs (body x) i i) ->
  emit (forEach l body) i
  = fold_right (fun x s => emit (body x) i ++ s) EmptyString l.
Proof.
  intros H. apply emits_emit with (j := i).
  apply (@emits_forEach A l body i (fun x => emit (body x) i)).
  intros x. apply runs_emits, H.
Qed.

(** ** The tests of the repository

    The embedding writes what [TestScalar], [TestInterface] and
    [TestDirective] of the repository expect. *)

Example TestScalar :
  emit (generateScalar "Test" false None) EmptyString
  = line EmptyString "NewScalar(graphql.ScalarConfig{"
    ++ line tb ("Name: " ++ q ++ "Test" ++ q ++ ",")
    ++ line tb "Serialize: func(value interface{}) interface{} { return nil }, // TODO"
    ++ line EmptyString "})".
Proof. vm_compute. reflexivity. Qed.

Example TestInterface :
  emit (generateInterface "Test" false None {| inter_Fields := testFields |})
    EmptyString
  = line EmptyString "NewInterface(graphql.InterfaceConfig{"
    ++ line tb ("Name: " ++ q ++ "Test" ++ q ++ ",")
    ++ line tb "Fields: graphql.Fields{"
    ++ line (tb ++ tb) (q ++ "one" ++ q ++ ": &graphql.Field{")
    ++ line (tb ++ tb ++ tb) "Type: graphql.Int,"
    ++ line (tb ++ tb) "},"
    ++ line (tb ++ tb) (q ++ "str" ++ q ++ ": &graphql.Field{")
    ++ line (tb ++ tb ++ tb) "Type: graphql.String,"
    ++ line (tb ++ tb) "},"
    ++ line (tb ++ tb) (q ++ "list" ++ q ++ ": &graphql.Field{")
    ++ line (tb ++ tb ++ tb) "Type: graphql.NewList(TestType),"
    ++ line (tb ++ tb) "},"
    ++ line tb "},"
    ++ line EmptyString "})".
Proof. vm_compute. reflexivity. Qed.

Example TestDirective_WithArgs :
  emit (generateDirective "Test" false None
          {| Locs := [ {| Loc_String := "QUERY" |}; {| Loc_String := "FIELD" |};
                       {| Loc_String := "SCHEMA" |} ];
             dir_Args := Some testInputValues |})
    EmptyString
  = line EmptyString "NewDirective(graphql.DirectiveConfig{"
    ++ line tb ("Name: " ++ q ++ "Test" ++ q ++ ",")
    ++ line tb "Locations: []string{"
    ++ line (tb ++ tb) (q ++ "QUERY" ++ q ++ ",")
    ++ line (tb ++ tb) (q ++ "FIELD" ++ q ++ ",")
    ++ line (tb ++ tb) (q ++ "SCHEMA" ++ q ++ ",")
    ++ line tb "},"
    ++ line tb "Args: graphql.FieldConfigArgument{"
    ++ line (tb ++ tb) (q ++ "one" ++ q ++ ": &graphql.ArgumentConfig{")
    ++ line (tb ++ tb ++ tb) "Type: graphql.Int,"
    ++ line (tb ++ tb ++ tb) "DefaultValue: 1,"
    ++ line (tb ++ tb) "},"
    ++ line (tb ++ tb) (q ++ "str" ++ q ++ ": &graphql.ArgumentConfig{")
    ++ line (tb ++ tb ++ tb) "Type: graphql.NewNonNull(graphql.String),"
    ++ line (tb ++ tb ++ tb) ("DefaultValue: " ++ q ++ "hello" ++ q ++ ",")
    ++ line (tb ++ tb) "},"
    ++ line (tb ++ tb) (q ++ "list" ++ q ++ ": &graphql.ArgumentConfig{")
    ++ line (tb ++ tb ++ tb) "Type: graphql.NewList(graphql.Int),"
    ++ line (tb ++ tb ++ tb) "DefaultValue: []interface{}{1, 2, 3},"
    ++ line (tb ++ tb) "},"
    ++ line tb "},"
    ++ line EmptyString "})".
Proof. vm_compute. reflexivity. Qed.

(** * Further properties of the generator *)

(** ** The value printer *)

Lemma indentFree_skip : indentFree skip.
Proof. intros i. apply emits_skip. Qed.

Lemma indentFree_Write (p : string) : indentFree (Write p).
Proof. intros i. apply emits_Write. Qed.

Lemma indentFree_WriteString (s : string) : indentFree (WriteString s).
Proof. intros i. apply emits_WriteString. Qed.

Lemma indentFree_WriteByte (c : ascii) : indentFree (WriteByte c).
Proof. intros i. apply emits_WriteByte. Qed.

Lemma emit_seq_free (a b : Gen) :
  indentFree a -> indentFree b ->
  emit (a ;; b) EmptyString = emit a EmptyString ++ emit b EmptyString.
Proof.
  intros Ha Hb. apply emits_emit with (j := EmptyString).
  eapply emits_seq; [apply Ha|apply Hb].
Qed.

Lemma indentFree_seq (a b : Gen) :
  indentFree a -> indentFree b -> indentFree (a ;; b).
Proof.
  intros Ha Hb i. rewrite (emit_seq_free Ha Hb).
  eapply emits_seq; [apply Ha|apply Hb].
Qed.

Lemma indentFree_emits (e : Gen) (t : string) :
  (forall i, emits e i t i) -> indentFree e.
Proof. intros H i. rewrite (emits_emit (H EmptyString)). apply H. Qed.

(** A loop with a separator writes the texts of the elements with the
    text of the separator between two of them, when [last] is the index
    of the last element. *)
Lemma emits_rangeSep {A : Type} (body : A -> Gen) (sep : Gen)
    (text : A -> string) (st : string) (xs : list A) :
  (forall x i, emits (body x) i (text x) i) ->
  (forall i, emits sep i st i) ->
  forall k i,
    emits (rangeSep body sep (k + Z.of_nat (List.length xs) - 1) k xs) i
      (String.concat st (map text xs)) i.
Proof.
  intros Hb Hs. induction xs as [|x rest IH]; intros k i.
  - apply emits_skip.
  - replace (k + Z.of_nat (List.length (x :: rest)) - 1)%Z
      with (k + 1 + Z.of_nat (List.length rest) - 1)%Z
      by (simpl List.length; lia).
    cbn [rangeSep]. destruct rest as [|y rest'].
    + replace (k + 1 + Z.of_nat (List.length (@nil A)) - 1)%Z with k
        by (simpl; lia).
      rewrite Z.eqb_refl. eapply emits_eq.
      * eapply emits_seq; [eapply emits_seq|]; [apply Hb|apply emits_skip|apply emits_skip].
      * cbn. now rewrite !append_nil_r.
    + assert (Hne : (k =? k + 1 + Z.of_nat (List.length (y :: rest')) - 1)%Z = false).
      { apply Z.eqb_neq. simpl List.length. lia. }
      rewrite Hne. eapply emits_eq.
      * eapply emits_seq; [eapply emits_seq|]; [apply Hb|apply Hs|apply IH].
      * cbn [map String.concat]. now rewrite append_assoc.
Qed.

Lemma emits_rangeSep_all {A : Type} (body : A -> Gen) (sep : Gen)
    (text : A -> string) (st : string) (xs : list A) (i : string) :
  (forall x j, emits (body x) j (text x) j) ->
  (forall j, emits sep j st j) ->
  emits (rangeSep body sep (Z.of_nat (List.length xs) - 1) 0 xs) i
    (String.concat st (map text xs)) i.
Proof.
  intros Hb Hs. exact (@emits_rangeSep A body sep text st xs Hb Hs 0%Z i).
Qed.

Ltac free_chain :=
  repeat match goal with
  | |- indentFree (seq _ _) => apply indentFree_seq
  | |- indentFree skip => apply indentFree_skip
  | |- indentFree (Write _) => apply indentFree_Write
  | |- indentFree (WriteString _) => apply indentFree_WriteString
  | |- indentFree (WriteByte _) => apply indentFree_WriteByte
  | |- indentFree _ => assumption
  end.

Fixpoint indentFree_printVal (v : CompositeLit) : indentFree (printVal v)
with indentFree_printListLit (l : ListLit) : indentFree (printListLit l).
Proof.
  - destruct v as [b|l|fields]; cbn [printVal].
    + apply indentFree_WriteString.
    + apply indentFree_printListLit.
    + generalize (Z.of_nat (List.length fields) - 1)%Z. intros last.
      apply indentFree_seq; [apply indentFree_seq|]; [free_chain| |free_chain].
      generalize 0%Z.
      induction fields as [|[key x] rest IHl]; intros k.
      * apply indentFree_skip.
      * apply indentFree_seq; [|apply IHl].
        pose proof (indentFree_printVal x) as Hx.
        destruct (k =? last)%Z; free_chain.
  - destruct l as [vals|vals].
    + apply indentFree_emits
        with (t := ("[]interface{}{" ++ String.concat ", " (map Value vals)) ++ "}").
      intros i. cbn [printListLit].
      eapply emits_seq; [eapply emits_seq|];
        [apply emits_WriteString| |apply emits_WriteByte].
      apply (@emits_rangeSep_all BasicLit printBasicLit
               (WriteByte "," ;; WriteByte " ") Value ", " vals).
      * intros x j. apply emits_WriteString.
      * intros j. eapply emits_eq;
          [eapply emits_seq; apply emits_WriteByte|reflexivity].
    + cbn [printListLit].
      generalize (Z.of_nat (List.length vals) - 1)%Z. intros last.
      apply indentFree_seq; [apply indentFree_seq|]; [free_chain| |free_chain].
      generalize 0%Z.
      induction vals as [|x rest IHl]; intros k.
      * apply indentFree_skip.
      * apply indentFree_seq; [|apply IHl].
        pose proof (indentFree_printVal x) as Hx.
        destruct (k =? last)%Z; free_chain.
Qed.

Lemma emits_printVal (v : CompositeLit) (i : string) :
  emits (printVal v) i (valText v) i.
Proof. apply indentFree_printVal. Qed.

(** X1.  A list literal is written as [[]interface{}{], the elements in
    their order with a comma and a space between two of them, and the
    closing brace, whatever the buffer and the indent are; the empty list
    is [[]interface{}{}]. *)
Theorem printListLit_joins_elements (vals : list BasicLit)
    (cvals : list CompositeLit) (b i : string) :
  printListLit (ListLit_BasicList vals) {| Buffer := b; indent := i |}
  = {| Buffer := b ++ "[]interface{}{" ++ String.concat ", " (map Value vals) ++ "}";
       indent := i |} /\
  printListLit (ListLit_CompositeList cvals) {| Buffer := b; indent := i |}
  = {| Buffer := b ++ "[]interface{}{" ++ String.concat ", " (map valText cvals) ++ "}";
       indent := i |} /\
  valText (CompositeLit_ListLit (ListLit_BasicList [])) = "[]interface{}{}".
Proof.
  split; [|split; [|reflexivity]].
  - eapply emits_eq; [|apply append_assoc].
    cbn [printListLit].
    eapply emits_seq; [eapply emits_seq|];
      [apply emits_WriteString| |apply emits_WriteByte].
    apply (@emits_rangeSep_all BasicLit printBasicLit
             (WriteByte "," ;; WriteByte " ") Value ", " vals).
    + intros x j. apply emits_WriteString.
    + intros j. eapply emits_eq;
        [eapply emits_seq; apply emits_WriteByte|reflexivity].
  - eapply emits_eq; [|apply append_assoc].
    rewrite printListLit_CompositeList.
    eapply emits_seq; [eapply emits_seq|];
      [apply emits_WriteString| |apply emits_WriteByte].
    apply (@emits_rangeSep_all CompositeLit printVal
             (WriteByte "," ;; WriteByte " ") valText ", " cvals).
    + intros x j. apply emits_printVal.
    + intros j. eapply emits_eq;
        [eapply emits_seq; apply emits_WriteByte|reflexivity].
Qed.

Ltac seq_split :=
  repeat match goal with
  | |- emits (seq _ _) _ _ _ => eapply emits_seq
  end.

Lemma emits_objLoop (last : Z) (ps : list ObjLit_Pair) :
  forall (k : Z) (i : string),
    last = (k + Z.of_nat (List.length ps) - 1)%Z ->
    emits
      ((fix loop (i0 : Z) (ps0 : list ObjLit_Pair) {struct ps0} : Gen :=
          match ps0 with
          | [] => skip
          | Pair k0 x :: rest =>
              WriteString (Name k0) ;; WriteString ": " ;;
              printVal x ;;
              (if (i0 =? last)%Z then skip else WriteByte ",") ;;
              WriteByte " " ;;
              loop (i0 + 1)%Z rest
          end) k ps)
      i (objLitText ps) i.
Proof.
  induction ps as [|[key x] rest IH]; intros k i Hl.
  - apply emits_skip.
  - cbv beta iota fix.
    destruct rest as [|p rest'].
    + assert (Hk : (k =? last)%Z = true)
        by (apply Z.eqb_eq; simpl List.length in Hl; lia).
      rewrite Hk. eapply emits_eq.
      * seq_split;
          [apply emits_WriteString|apply emits_WriteString|apply emits_printVal
          |apply emits_skip|apply emits_WriteByte|apply emits_skip].
      * unfold objLitText. cbn [map String.concat pairText].
        rewrite !append_assoc, !append_nil_r. reflexivity.
    + assert (Hk : (k =? last)%Z = false)
        by (apply Z.eqb_neq; simpl List.length in Hl; lia).
      rewrite Hk. eapply emits_eq.
      * eapply emits_seq; [|apply (IH (k + 1)%Z i); simpl List.length in *; lia].
        seq_split;
          [apply emits_WriteString|apply emits_WriteString|apply emits_printVal
          |apply emits_WriteByte|apply emits_WriteByte].
      * unfold objLitText. cbn [map String.concat pairText].
        unfold str1. rewrite !append_assoc. reflexivity.
Qed.

(** X2.  An object literal is written as an opening brace and a space,
    the pairs [key: value] in their order with a comma and a space
    between two of them, a space and the closing brace; the empty object
    is [{ }], with one space. *)
Theorem printVal_object_literal (fields : list ObjLit_Pair) (b i : string) :
  printVal (CompositeLit_ObjLit fields) {| Buffer := b; indent := i |}
  = {| Buffer := b ++ "{ " ++ objLitText fields ++ "}"; indent := i |} /\
  valText (CompositeLit_ObjLit []) = "{ }".
Proof.
  split; [|reflexivity].
  cbn [printVal].
  eapply emits_eq.
  - eapply emits_seq; [eapply emits_seq|];
      [eapply emits_seq; apply emits_WriteByte
      |apply (@emits_objLoop (Z.of_nat (List.length fields) - 1) fields 0 i); lia
      |apply emits_WriteByte].
  - unfold str1. rewrite !append_assoc. reflexivity.
Qed.

(** ** The schema block *)

Lemma rootOpKey_write (opName b i : string) :
  (if opName =? "query" then WriteString "Query: " {| Buffer := b; indent := i |}
   else if opName =? "mutation"
        then WriteString "Mutation: " {| Buffer := b; indent := i |}
   else if opName =? "subscription"
        then WriteString "Subscription: " {| Buffer := b; indent := i |}
   else {| Buffer := b; indent := i |})
  = {| Buffer := b ++ rootOpKey opName; indent := i |}.
Proof.
  unfold rootOpKey.
  destruct (opName =? "query"); [reflexivity|].
  destruct (opName =? "mutation"); [reflexivity|].
  destruct (opName =? "subscription"); [reflexivity|].
  now rewrite append_nil_r.
Qed.

Lemma rootOpsLoop_step (op : Field) (rest : list Field) (b i : string) :
  rootOpsLoop (op :: rest) {| Buffer := b; indent := i |}
  = match rootOpType op with
    | Some name =>
        rootOpsLoop rest
          {| Buffer := b ++ line i (rootOpKey (Name (f_Name op)) ++ name ++ "Type,");
             indent := i |}
    | None =>
        ({| Buffer := (b ++ i) ++ rootOpKey (Name (f_Name op)); indent := i |},
         Some conversionPanic)
    end.
Proof.
  cbn [rootOpsLoop].
  change (WriteIndent {| Buffer := b; indent := i |})
    with {| Buffer := b ++ i; indent := i |}.
  rewrite !rootOpKey_write. unfold rootOpType.
  destruct (f_Type op) as [[v|w|w]|]; try reflexivity.
  f_equal. unfold seq, WriteString, WriteByte, Write, typeSuffix, line, nl, str1.
  cbn [Buffer indent]. f_equal. rewrite !append_assoc. reflexivity.
Qed.

Lemma rootOpsLoop_ok (rootOps : list Field) :
  forall b i,
    rootOpsOk rootOps = true ->
    rootOpsLoop rootOps {| Buffer := b; indent := i |}
    = ({| Buffer := b ++ fold_right (fun op s => rootOpLine i op ++ s)
                          EmptyString rootOps;
          indent := i |}, None).
Proof.
  induction rootOps as [|op rest IH]; intros b i H.
  - cbn. now rewrite append_nil_r.
  - rewrite rootOpsLoop_step. unfold rootOpsOk in H. cbn [forallb] in H.
    apply andb_true_iff in H. destruct H as [Hop Hrest].
    cbn [fold_right]. unfold rootOpLine at 1.
    destruct (rootOpType op) as [name|]; [|discriminate].
    rewrite (IH _ i Hrest). now rewrite append_assoc.
Qed.

Lemma rootOpsLoop_panics (rootOps : list Field) :
  forall b i,
    rootOpsOk rootOps = false ->
    snd (rootOpsLoop rootOps {| Buffer := b; indent := i |}) = Some conversionPanic.
Proof.
  induction rootOps as [|op rest IH]; intros b i H.
  - discriminate.
  - rewrite rootOpsLoop_step. unfold rootOpsOk in H. cbn [forallb] in H.
    destruct (rootOpType op) as [name|]; [|reflexivity].
    apply IH. exact H.
Qed.

(** X3.  When every root operation has an identifier as its type, the
    loop over the root operations writes one line for each, in their
    order: the indent, the key [Query: ], [Mutation: ] or
    [Subscription: ] (no key for any other operation name), the type name
    with the type suffix and a comma; it does not panic and leaves the
    indent. *)
Theorem rootOpsLoop_writes_lines (rootOps : list Field) (b i : string) :
  rootOpsOk rootOps = true ->
  rootOpsLoop rootOps {| Buffer := b; indent := i |}
  = ({| Buffer := b ++ fold_right (fun op s => rootOpLine i op ++ s)
                        EmptyString rootOps;
        indent := i |}, None).
Proof. apply rootOpsLoop_ok. Qed.

Lemma rootOpsLoop_writes_lines_witness :
  rootOpsOk [rootOp "query" "Query"; rootOp "mutation" "Mutation"; rootOp "other" "T"]
  = true /\
  rootOpsLoop
    [rootOp "query" "Query"; rootOp "mutation" "Mutation"; rootOp "other" "T"]
    {| Buffer := "x"; indent := tb |}
  = ({| Buffer := "x" ++ line tb "Query: QueryType,"
                  ++ line tb "Mutation: MutationType," ++ line tb "TType,";
        indent := tb |}, None).
Proof.
  split; [reflexivity|].
  apply (@rootOpsLoop_writes_lines
           [rootOp "query" "Query"; rootOp "mutation" "Mutation"; rootOp "other" "T"]
           "x" tb).
  reflexivity.
Defined.

(** X4.  When some root operation has a type that is not an identifier
    (a list, a non-null, or none), the loop over the root operations
    panics on the type assertion. *)
Theorem rootOpsLoop_panics_on_wrapped_type (rootOps : list Field) (b i : string) :
  rootOpsOk rootOps = false ->
  snd (rootOpsLoop rootOps {| Buffer := b; indent := i |}) = Some conversionPanic.
Proof. apply rootOpsLoop_panics. Qed.

Lemma rootOpsLoop_panics_on_wrapped_type_witness :
  rootOpsOk [rootOp "mutation" "Mutation"; rootOpList] = false /\
  snd (rootOpsLoop [rootOp "mutation" "Mutation"; rootOpList]
         {| Buffer := EmptyString; indent := tb |})
  = Some conversionPanic.
Proof.
  split; [reflexivity|].
  apply (@rootOpsLoop_panics_on_wrapped_type
           [rootOp "mutation" "Mutation"; rootOpList] EmptyString tb).
  reflexivity.
Defined.

Lemma emits_schemaOpen (i : string) :
  emits
    (P [] ;; P [PString "func init() {"] ;; In ;; P [PString "var err error"] ;;
     P [PString "Schema, err = graphql.NewSchema(graphql.SchemaConfig{"] ;; In)
    i
    (line i EmptyString ++ line i "func init() {"
     ++ line (i ++ tb) "var err error"
     ++ line (i ++ tb) "Schema, err = graphql.NewSchema(graphql.SchemaConfig{")
    ((i ++ tb) ++ tb).
Proof. emits_text. Qed.

Lemma emits_schemaClose (i : string) :
  emits
    (Out ;; P [PString "})"] ;; P [PString "if err != nil {"] ;; In ;;
     P [PString "panic(err)"] ;; Out ;; P [PString "}"] ;; Out ;; P [PString "}"])
    ((i ++ tb) ++ tb)
    (line (i ++ tb) "})" ++ line (i ++ tb) "if err != nil {"
     ++ line ((i ++ tb) ++ tb) "panic(err)"
     ++ line (i ++ tb) "}" ++ line i "}")
    i.
Proof. emits_text. Qed.

(** X5.  For a schema declaration whose root operations all have an
    identifier as type, the schema block is a blank line, the opening of
    [func init()], the call of [graphql.NewSchema] with one line for each
    root operation in declared order, two levels in, and the error test
    with [panic(err)]; the indent is back where it was and nothing
    panics. *)
Theorem schemaInit_text (doc : Document) (sd : TypeDecl) (ts : TypeSpec)
    (s : SchemaType) (b i : string) :
  Schema doc = Some sd ->
  Spec sd = TypeDecl_TypeSpec ts ->
  ts_Type ts = TypeSpec_Schema s ->
  rootOpsOk (RootOps s) = true ->
  schemaInit doc {| Buffer := b; indent := i |}
  = ({| Buffer :=
          b ++ line i EmptyString ++ line i "func init() {"
          ++ line (i ++ tb) "var err error"
          ++ line (i ++ tb) "Schema, err = graphql.NewSchema(graphql.SchemaConfig{"
          ++ fold_right (fun op t => rootOpLine ((i ++ tb) ++ tb) op ++ t)
               EmptyString (RootOps s)
          ++ line (i ++ tb) "})" ++ line (i ++ tb) "if err != nil {"
          ++ line ((i ++ tb) ++ tb) "panic(err)"
          ++ line (i ++ tb) "}" ++ line i "}";
        indent := i |}, None).
Proof.
  intros Hs Hsd Hts Hok. unfold schemaInit. rewrite Hs, Hsd, Hts.
  rewrite (emits_schemaOpen i b), (rootOpsLoop_ok _ _ _ Hok).
  rewrite (emits_schemaClose i). f_equal. f_equal.
  rewrite !append_assoc. reflexivity.
Qed.

Lemma schemaInit_text_witness :
  Schema docSchemaFirst = Some schemaDecl /\
  schemaInit docSchemaFirst {| Buffer := "x"; indent := EmptyString |}
  = ({| Buffer := "x" ++ schemaInitText; indent := EmptyString |}, None).
Proof.
  split; [reflexivity|].
  rewrite (@schemaInit_text docSchemaFirst schemaDecl
             {| ts_Name := ident "schema";
                ts_Type := TypeSpec_Schema
                             {| RootOps := [rootOp "query" "Query"] |} |}
             {| RootOps := [rootOp "query" "Query"] |} "x" EmptyString
             eq_refl eq_refl eq_refl eq_refl).
  reflexivity.
Defined.

(** ** The header and the whole output *)

Lemma emits_writeHeader (packageName i : string) :
  emits (writeHeader packageName) i (headerFor packageName) i.
Proof.
  unfold writeHeader, headerFor, packagePrefix, importStmt, newLines.
  eapply emits_eq; [emits_chain|].
  rewrite !append_assoc. reflexivity.
Qed.

Lemma runs_typesLoop (descr : bool) (totalTypes : Z) (ds : list TypeDecl) :
  forall k i, runs (typesLoop descr totalTypes k ds) i i.
Proof.
  induction ds as [|d rest IH]; intros k i; cbn [typesLoop].
  - apply runs_skip.
  - apply runs_seq with i; [|apply IH].
    destruct (emitted d) as [ts|]; [|apply runs_skip].
    destruct (k =? totalTypes)%Z; runs_chain.
Qed.

Lemma rootOpsLoop_appends (rootOps : list Field) :
  forall b i, exists t,
    fst (rootOpsLoop rootOps {| Buffer := b; indent := i |})
    = {| Buffer := b ++ t; indent := i |}.
Proof.
  induction rootOps as [|op rest IH]; intros b i.
  - exists EmptyString. cbn. now rewrite append_nil_r.
  - rewrite rootOpsLoop_step. destruct (rootOpType op) as [name|].
    + destruct (IH (b ++ line i (rootOpKey (Name (f_Name op)) ++ name ++ "Type,")) i)
        as [t Ht].
      rewrite Ht. eexists. now rewrite append_assoc.
    + eexists. cbn [fst]. now rewrite append_assoc.
Qed.

Lemma schemaInit_appends (doc : Document) (b i : string) :
  exists t, Buffer (fst (schemaInit doc {| Buffer := b; indent := i |})) = b ++ t.
Proof.
  unfold schemaInit. destruct (Schema doc) as [sd|].
  - rewrite (emits_schemaOpen i b).
    destruct (Spec sd) as [ts|]; [|eexists; reflexivity].
    destruct (ts_Type ts) as [s| | | | | | |]; try (eexists; reflexivity).
    match goal with
    | |- context [rootOpsLoop ?ops ?g] =>
        destruct g as [b0 i0] eqn:Eg;
        destruct (rootOpsLoop_appends ops b0 i0) as [t Ht];
        destruct (rootOpsLoop ops {| Buffer := b0; indent := i0 |}) as [g1 [m|]]
    end; cbn [fst] in *; subst g1; injection Eg as <- <-.
    + eexists. cbn [fst Buffer]. now rewrite append_assoc.
    + rewrite (emits_schemaClose i). eexists. cbn [fst Buffer].
      now rewrite !append_assoc.
  - exists EmptyString. cbn. now rewrite append_nil_r.
Qed.

Lemma assemble_header (gOpts : Options) (doc : Document)
    (g : Generator) :
  exists rest,
    Buffer (fst (assemble gOpts doc (Reset g)))
    = headerFor (Package gOpts) ++ rest.
Proof.
  unfold assemble, Reset.
  assert (Hd : runs (declarations gOpts doc) EmptyString EmptyString).
  { unfold declarations. destruct (Schema doc); runs_chain;
      try apply runs_typesLoop.
    eexists. apply emits_writeHeader.
    eexists. apply emits_writeHeader. }
  assert (He : exists r, emit (declarations gOpts doc) EmptyString
                         = headerFor (Package gOpts) ++ r).
  { unfold declarations.
    assert (Ht := runs_typesLoop (Descriptions gOpts)
                    (Z.of_nat (List.length (Types doc)) - 1) (Types doc) 0
                    EmptyString).
    destruct (Schema doc).
    - eexists. apply emits_emit with (j := EmptyString).
      eapply emits_eq.
      + eapply emits_seq; [eapply emits_seq|];
          [apply emits_writeHeader|emits_chain|apply runs_emits, Ht].
      + rewrite !append_assoc. reflexivity.
    - eexists. apply emits_emit with (j := EmptyString).
      eapply emits_eq.
      + eapply emits_seq; [eapply emits_seq|];
          [apply emits_writeHeader|apply emits_skip|apply runs_emits, Ht].
      + rewrite !append_assoc. reflexivity. }
  destruct He as [r Hr].
  rewrite (runs_emits Hd EmptyString). cbn [append].
  destruct (schemaInit_appends doc (emit (declarations gOpts doc) EmptyString)
              EmptyString) as [t Ht].
  rewrite Ht, Hr. exists (r ++ t). now rewrite append_assoc.
Qed.

(** X6.  Whatever the document and the options, the text [Generate]
    assembles starts with the header: the package clause with the
    resolved package name, a blank line, the import of the graphql
    library and a blank line. *)
Theorem assemble_starts_with_header (gOpts : Options) (doc : Document)
    (g : Generator) :
  exists rest,
    Buffer (fst (assemble gOpts doc (Reset g)))
    = headerFor (Package gOpts) ++ rest.
Proof. apply assemble_header. Qed.

Lemma schemaInit_indent (doc : Document) (b i : string) :
  snd (schemaInit doc {| Buffer := b; indent := i |}) = None ->
  indent (fst (schemaInit doc {| Buffer := b; indent := i |})) = i.
Proof.
  unfold schemaInit. destruct (Schema doc) as [sd|]; [|reflexivity].
  rewrite (emits_schemaOpen i b).
  destruct (Spec sd) as [ts|]; [|discriminate].
  destruct (ts_Type ts) as [s| | | | | | |]; try discriminate.
  match goal with
  | |- context [rootOpsLoop ?ops ?g] =>
      destruct g as [b0 i0] eqn:Eg;
      destruct (rootOpsLoop_appends ops b0 i0) as [t Ht];
      destruct (rootOpsLoop ops {| Buffer := b0; indent := i0 |}) as [g1 [m|]]
  end; cbn [fst snd] in *; subst g1; injection Eg as <- <-; [discriminate|].
  intros _. rewrite (emits_schemaClose i). reflexivity.
Qed.

Lemma assemble_indent (gOpts : Options) (doc : Document) (g : Generator) :
  snd (assemble gOpts doc (Reset g)) = None ->
  indent (fst (assemble gOpts doc (Reset g))) = EmptyString.
Proof.
  unfold assemble, Reset.
  assert (Hd : runs (declarations gOpts doc) EmptyString EmptyString).
  { unfold declarations. destruct (Schema doc); runs_chain;
      try apply runs_typesLoop.
    eexists. apply emits_writeHeader.
    eexists. apply emits_writeHeader. }
  rewrite (runs_emits Hd EmptyString). apply schemaInit_indent.
Qed.

Lemma assemble_not_empty (gOpts : Options) (doc : Document) (g : Generator) :
  (0 <? String.length (Buffer (fst (assemble gOpts doc (Reset g)))))%nat = true.
Proof.
  destruct (assemble_header gOpts doc g) as [rest H].
  rewrite H. apply Nat.ltb_lt. unfold headerFor.
  rewrite !length_append. simpl. lia.
Qed.

(** X7.  When the options resolve, nothing panics, the sink opens the
    file and the file takes every byte, [Generate] returns no error; it
    opened the file named after the document with the extension [.go],
    wrote the whole assembled text in one [Write] and closed the file,
    and it leaves the generator with an empty buffer and an empty
    indent. *)
Theorem Generate_success
    (json_Unmarshal : string -> Options -> Options * option string)
    (g g' : Generator) (gCtx : GeneratorContext) (doc : Document)
    (opts : string) (gOpts : Options) (goFile : WriteCloser) :
  getOptions json_Unmarshal doc opts = Done (gOpts, None) ->
  assemble gOpts doc (Reset g) = (g', None) ->
  Open gCtx (goFileName doc ++ ".go") = (Some goFile, None) ->
  wc_Write goFile (Buffer g') = (String.length (Buffer g'), None) ->
  Generate json_Unmarshal g gCtx doc opts
  = {| outcome := Returned None;
       final := {| Buffer := EmptyString; indent := EmptyString |};
       events := [EvOpen (goFileName doc ++ ".go"); EvWrite (Buffer g'); EvClose] |}.
Proof.
  intros Ho Ha Hop Hw.
  pose proof (assemble_not_empty gOpts doc g) as Hn.
  pose proof (assemble_indent gOpts doc g) as Hi.
  rewrite Ha in Hn, Hi. cbn [fst snd] in Hn, Hi.
  unfold Generate. rewrite Ho, Ha, Hop. unfold WriteTo.
  rewrite Hn, Hw, Nat.ltb_irrefl, Nat.eqb_refl. cbn [negb].
  rewrite (Hi eq_refl). reflexivity.
Qed.

Lemma Generate_success_witness :
  getOptions unmarshalNothing docQuery EmptyString
  = Done ({| Package := "main"; Descriptions := false |}, None) /\
  Generate unmarshalNothing {| Buffer := "old"; indent := tb |} sinkOk docQuery
    EmptyString
  = {| outcome := Returned None;
       final := {| Buffer := EmptyString; indent := EmptyString |};
       events := [EvOpen "test.go"; EvWrite docQueryText; EvClose] |}.
Proof.
  split; [reflexivity|].
  apply (@Generate_success unmarshalNothing {| Buffer := "old"; indent := tb |}
           {| Buffer := docQueryText; indent := EmptyString |} sinkOk docQuery
           EmptyString {| Package := "main"; Descriptions := false |} fileOk);
    vm_compute; reflexivity.
Defined.

(** X8.  When the file takes fewer bytes than the assembled text and
    reports no error, [Generate] returns the short-write error wrapped
    with the document name and the generator name, after that one
    [Write]; it does not write the rest. *)
Theorem Generate_short_write
    (json_Unmarshal : string -> Options -> Options * option string)
    (g g' : Generator) (gCtx : GeneratorContext) (doc : Document)
    (opts : string) (gOpts : Options) (goFile : WriteCloser) (m : nat) :
  getOptions json_Unmarshal doc opts = Done (gOpts, None) ->
  assemble gOpts doc (Reset g) = (g', None) ->
  Open gCtx (goFileName doc ++ ".go") = (Some goFile, None) ->
  wc_Write goFile (Buffer g') = (m, None) ->
  (m < String.length (Buffer g'))%nat ->
  outcome (Generate json_Unmarshal g gCtx doc opts)
  = Returned (Some (generatorError doc "short write")) /\
  events (Generate json_Unmarshal g gCtx doc opts)
  = [EvOpen (goFileName doc ++ ".go"); EvWrite (Buffer g'); EvClose].
Proof.
  intros Ho Ha Hop Hw Hm.
  unfold Generate. rewrite Ho, Ha, Hop. unfold WriteTo.
  assert (Hn : (0 <? String.length (Buffer g'))%nat = true)
    by (apply Nat.ltb_lt; lia).
  assert (Hlt : (String.length (Buffer g') <? m)%nat = false)
    by (apply Nat.ltb_ge; lia).
  assert (Hne : (m =? String.length (Buffer g'))%nat = false)
    by (apply Nat.eqb_neq; lia).
  rewrite Hn, Hw, Hlt, Hne. split; reflexivity.
Qed.

Lemma Generate_short_write_witness :
  (10 < String.length docQueryText)%nat /\
  outcome (Generate unmarshalNothing {| Buffer := "old"; indent := tb |}
             sinkShort docQuery EmptyString)
  = Returned (Some {| DocName := "test.gql"; GenName := "go";
                      Msg := "short write" |}).
Proof.
  split; [vm_compute; lia|].
  apply (@Generate_short_write unmarshalNothing {| Buffer := "old"; indent := tb |}
           {| Buffer := docQueryText; indent := EmptyString |} sinkShort docQuery
           EmptyString {| Package := "main"; Descriptions := false |} fileShort 10);
    try (vm_compute; reflexivity).
  vm_compute. lia.
Defined.

(** ** Option resolution: defaults, directive options, trimming *)

Lemma directivesLoop_no_go (ds : list DirectiveLit) (gOpts : Options) :
  forallb (fun d => negb (isGoDirective d)) ds = true ->
  directivesLoop ds gOpts = Done (gOpts, None).
Proof.
  induction ds as [|d rest IH]; intros H; [reflexivity|].
  cbn [forallb] in H. apply andb_true_iff in H. destruct H as [Hd Hr].
  cbn [directivesLoop]. unfold isGoDirective in Hd. rewrite Hd. now apply IH.
Qed.

(** X9.  For a document without a [go] directive and an empty option
    blob, [getOptions] returns the defaults: package [main], no
    descriptions; the decoder is not called. *)
Theorem getOptions_defaults
    (json_Unmarshal : string -> Options -> Options * option string)
    (doc : Document) :
  forallb (fun d => negb (isGoDirective d)) (Directives doc) = true ->
  getOptions json_Unmarshal doc EmptyString = Done (defaultOptions, None).
Proof.
  intros H. unfold getOptions. fold defaultOptions.
  rewrite (directivesLoop_no_go _ _ H). reflexivity.
Qed.

Lemma getOptions_defaults_witness :
  forallb (fun d => negb (isGoDirective d))
    (Directives {| doc_Name := "a.gql"; Directives := [otherDirective];
                   Schema := None; Types := [] |}) = true /\
  getOptions unmarshalSyntaxError
    {| doc_Name := "a.gql"; Directives := [otherDirective];
       Schema := None; Types := [] |} EmptyString
  = Done (defaultOptions, None).
Proof.
  split; [reflexivity|].
  apply (@getOptions_defaults unmarshalSyntaxError
           {| doc_Name := "a.gql"; Directives := [otherDirective];
              Schema := None; Types := [] |}).
  reflexivity.
Defined.

Lemma trimPackage_quoted (s : string) (c : ascii) (descr : bool) :
  trimPackage {| Package := String quote (s ++ str1 c); Descriptions := descr |}
  = Done {| Package := s; Descriptions := descr |}.
Proof.
  unfold trimPackage. cbn [Package Descriptions index0_is].
  rewrite Ascii.eqb_refl. unfold slice.
  assert (Hl : len (String quote (s ++ str1 c)) = (Z.of_nat (String.length s) + 2)%Z).
  { unfold len. cbn [String.length]. rewrite length_append. simpl. lia. }
  rewrite Hl.
  assert (Hb : ((0 <=? 1) && (1 <=? Z.of_nat (String.length s) + 2 - 1)
                && (Z.of_nat (String.length s) + 2 - 1
                    <=? Z.of_nat (String.length s) + 2))%Z = true).
  { rewrite !andb_true_iff, !Z.leb_le. lia. }
  rewrite Hb.
  replace (Z.to_nat (Z.of_nat (String.length s) + 2 - 1 - 1)) with (String.length s)
    by lia.
  change (Z.to_nat 1) with 1%nat.
  change (substring 1 (String.length s) (String quote (s ++ str1 c)))
    with (substring 0 (String.length s) (s ++ str1 c)).
  now rewrite substring_prefix.
Qed.

(** X10.  A package that starts with a quote loses its first and its
    last byte, whatever the last byte is: the package literal of the
    directive, which carries its quotes, becomes the bare name, and so
    does a name with an opening quote only, short of its last letter. *)
Theorem getOptions_trims_package
    (json_Unmarshal : string -> Options -> Options * option string)
    (doc : Document) (s : string) (c : ascii) :
  Directives doc
  = [goDirective [Pair (ident "package") (basic (String quote (s ++ str1 c)))]] ->
  getOptions json_Unmarshal doc EmptyString
  = Done ({| Package := s; Descriptions := false |}, None).
Proof.
  intros H. unfold getOptions. rewrite H.
  cbn [directivesLoop goDirective dl_Name dl_Args arg_Value negb].
  change ("go" =? "go") with true. cbn [negb docOptsLoop basic Name ident].
  change ("package" =? "package") with true. cbn [Value Descriptions len].
  change (0 <? len EmptyString)%Z with false. cbv iota beta.
  now rewrite trimPackage_quoted.
Qed.

Lemma getOptions_trims_package_witness :
  Directives (docWithOptions [Pair (ident "package") (basic (q ++ "api" ++ q))])
  = [goDirective [Pair (ident "package") (basic (String quote ("api" ++ str1 quote)))]] /\
  getOptions unmarshalNothing
    (docWithOptions [Pair (ident "package") (basic (q ++ "api" ++ q))]) EmptyString
  = Done ({| Package := "api"; Descriptions := false |}, None).
Proof.
  split; [reflexivity|].
  apply (@getOptions_trims_package unmarshalNothing
           (docWithOptions [Pair (ident "package") (basic (q ++ "api" ++ q))])
           "api" quote).
  reflexivity.
Defined.

Lemma docOptsLoop_unknown_keys (fields : list ObjLit_Pair) (gOpts : Options) :
  forallb (fun p => negb (isOptionKey p)) fields = true ->
  docOptsLoop fields gOpts = Done (gOpts, None).
Proof.
  induction fields as [|[key val] rest IH]; intros H; [reflexivity|].
  cbn [forallb isOptionKey] in H. apply andb_true_iff in H. destruct H as [Hk Hr].
  apply negb_true_iff, orb_false_iff in Hk. destruct Hk as [Hp Hd].
  cbn [docOptsLoop]. rewrite Hp, Hd. now apply IH.
Qed.

(** X11.  Options of the [go] directive other than [package] and
    [descriptions] are skipped without a look at their values, which may
    be lists or objects: a directive with such options only leaves the
    defaults. *)
Theorem getOptions_ignores_unknown_keys
    (json_Unmarshal : string -> Options -> Options * option string)
    (doc : Document) (fields : list ObjLit_Pair) :
  Directives doc = [goDirective fields] ->
  forallb (fun p => negb (isOptionKey p)) fields = true ->
  getOptions json_Unmarshal doc EmptyString = Done (defaultOptions, None).
Proof.
  intros H Hf. unfold getOptions. rewrite H.
  cbn [directivesLoop goDirective dl_Name dl_Args arg_Value].
  change ("go" =? "go") with true. cbn [negb].
  rewrite (docOptsLoop_unknown_keys _ _ Hf). reflexivity.
Qed.

Lemma getOptions_ignores_unknown_keys_witness :
  forallb (fun p => negb (isOptionKey p))
    [Pair (ident "module") (CompositeLit_ObjLit [])] = true /\
  getOptions unmarshalNothing
    (docWithOptions [Pair (ident "module") (CompositeLit_ObjLit [])]) EmptyString
  = Done (defaultOptions, None).
Proof.
  split; [reflexivity|].
  apply (@getOptions_ignores_unknown_keys unmarshalNothing
           (docWithOptions [Pair (ident "module") (CompositeLit_ObjLit [])])
           [Pair (ident "module") (CompositeLit_ObjLit [])]);
    reflexivity.
Defined.

(** X12.  A [go] directive without arguments ends the scan of the
    directives: when no [go] directive comes before it, the options are
    the ones the scan started with, and the directives after it, [go]
    directives with options too, are not read. *)
Theorem directivesLoop_stops_at_bare_go (before after : list DirectiveLit)
    (gOpts : Options) :
  forallb (fun d => negb (isGoDirective d)) before = true ->
  directivesLoop (before ++ bareGoDirective :: after) gOpts = Done (gOpts, None).
Proof.
  induction before as [|d rest IH]; intros H.
  - reflexivity.
  - cbn [forallb] in H. apply andb_true_iff in H. destruct H as [Hd Hr].
    cbn [app directivesLoop]. unfold isGoDirective in Hd. rewrite Hd.
    now apply IH.
Qed.

Lemma directivesLoop_stops_at_bare_go_witness :
  forallb (fun d => negb (isGoDirective d)) [otherDirective] = true /\
  directivesLoop
    ([otherDirective] ++ bareGoDirective
       :: [goDirective [Pair (ident "descriptions") (basic "maybe")]])
    defaultOptions
  = Done (defaultOptions, None).
Proof.
  split; [reflexivity|].
  apply (@directivesLoop_stops_at_bare_go [otherDirective]
           [goDirective [Pair (ident "descriptions") (basic "maybe")]]
           defaultOptions).
  reflexivity.
Defined.

(** The scan skips the directives that are not [go] directives. *)
Lemma directivesLoop_skips_others (before rest : list DirectiveLit)
    (gOpts : Options) :
  forallb (fun d => negb (isGoDirective d)) before = true ->
  directivesLoop (before ++ rest) gOpts = directivesLoop rest gOpts.
Proof.
  induction before as [|d l IH]; intros H; [reflexivity|].
  cbn [forallb] in H. apply andb_true_iff in H. destruct H as [Hd Hr].
  cbn [app directivesLoop]. unfold isGoDirective in Hd. rewrite Hd.
  now apply IH.
Qed.

(** X13.  When the first [go] directive of the document, whatever other
    directives come before it, has arguments but no first argument, or a
    first argument that is not an object literal, [getOptions] panics,
    whatever the option blob is and whatever follows the directive. *)
Theorem getOptions_panics_on_bad_directive_args
    (json_Unmarshal : string -> Options -> Options * option string)
    (doc : Document) (opts : string) (args : list Arg)
    (before after : list DirectiveLit) :
  Directives doc
  = (before ++ {| dl_Name := "go"; dl_Args := Some args |} :: after)%list ->
  forallb (fun d => negb (isGoDirective d)) before = true ->
  badGoArgs args = true ->
  exists m, getOptions json_Unmarshal doc opts = Panic m.
Proof.
  intros H Hbefore Hb. unfold getOptions. rewrite H.
  rewrite (directivesLoop_skips_others _ _ _ Hbefore).
  cbn [directivesLoop dl_Name dl_Args]. change ("go" =? "go") with true.
  cbn [negb]. destruct args as [|a0 rest]; [eexists; reflexivity|].
  cbn [badGoArgs] in Hb.
  destruct (arg_Value a0) as [b|[b|l|fields]]; try discriminate;
    eexists; reflexivity.
Qed.

Lemma getOptions_panics_on_bad_directive_args_witness :
  forallb (fun d => negb (isGoDirective d)) [otherDirective] = true /\
  badGoArgs [ {| arg_Value := Arg_BasicLit {| Value := "main" |} |} ] = true /\
  exists m,
    getOptions unmarshalNothing
      {| doc_Name := "a.gql";
         Directives :=
           [ otherDirective;
             {| dl_Name := "go";
                dl_Args := Some [ {| arg_Value := Arg_BasicLit {| Value := "main" |} |} ] |};
             bareGoDirective ];
         Schema := None; Types := [] |} optsEmptyPackage
    = Panic m.
Proof.
  split; [reflexivity|]. split; [reflexivity|].
  apply (@getOptions_panics_on_bad_directive_args unmarshalNothing
           {| doc_Name := "a.gql";
              Directives :=
                [ otherDirective;
                  {| dl_Name := "go";
                     dl_Args := Some [ {| arg_Value := Arg_BasicLit {| Value := "main" |} |} ] |};
                  bareGoDirective ];
              Schema := None; Types := [] |} optsEmptyPackage
           [ {| arg_Value := Arg_BasicLit {| Value := "main" |} |} ]
           [otherDirective] [bareGoDirective]);
    reflexivity.
Defined.

(** ** The name of the output file *)

Lemma string_of_list_ascii_app (l1 l2 : list ascii) :
  string_of_list_ascii (l1 ++ l2)%list
  = string_of_list_ascii l1 ++ string_of_list_ascii l2.
Proof. induction l1 as [|c l1 IH]; simpl; congruence. Qed.

Lemma Ext_scan_suffix (r : list ascii) :
  forall acc, exists pre, (rev r ++ acc = pre ++ Ext_scan r acc)%list.
Proof.
  induction r as [|c r IH]; intros acc.
  - exists acc. cbn. now rewrite app_nil_r.
  - cbn [Ext_scan rev]. rewrite <- app_assoc. cbn [app].
    destruct (Ascii.eqb c "/").
    + exists (rev r ++ c :: acc)%list. now rewrite app_nil_r.
    + destruct (Ascii.eqb c ".").
      * exists (rev r). reflexivity.
      * apply IH.
Qed.

Lemma Ext_scan_dot (r : list ascii) :
  forall acc, Ext_scan r acc = [] \/ exists t, Ext_scan r acc = "."%char :: t.
Proof.
  induction r as [|c r IH]; intros acc; cbn [Ext_scan].
  - now left.
  - destruct (Ascii.eqb c "/"); [now left|].
    destruct (Ascii.eqb_spec c "."); [subst; right; eauto|apply IH].
Qed.

Lemma Ext_suffix (path : string) : exists pre, path = pre ++ Ext path.
Proof.
  destruct (Ext_scan_suffix (rev (list_ascii_of_string path)) []) as [pre H].
  rewrite rev_involutive, app_nil_r in H.
  exists (string_of_list_ascii pre). unfold Ext.
  rewrite <- string_of_list_ascii_app, <- H.
  now rewrite string_of_list_ascii_of_string.
Qed.

(** X14.  The name of the output file is the name of the document with
    its extension cut off and [.go] put in its place: the cut never goes
    out of bounds, the cut-off part is empty or starts at a dot, and the
    stem followed by the extension is the document name again. *)
Theorem goFileName_cuts_extension (doc : Document) :
  goFileName doc ++ Ext (doc_Name doc) = doc_Name doc /\
  (String.length (Ext (doc_Name doc)) <= String.length (doc_Name doc))%nat /\
  (Ext (doc_Name doc) = EmptyString \/
   exists t, Ext (doc_Name doc) = String "." t).
Proof.
  destruct (Ext_suffix (doc_Name doc)) as [pre H].
  assert (Hl : String.length (doc_Name doc)
               = (String.length pre + String.length (Ext (doc_Name doc)))%nat).
  { rewrite H at 1. apply length_append. }
  repeat split.
  - unfold goFileName. rewrite Hl.
    replace (String.length pre + String.length (Ext (doc_Name doc))
             - String.length (Ext (doc_Name doc)))%nat
      with (String.length pre) by lia.
    rewrite H at 1. rewrite substring_prefix. now rewrite <- H.
  - lia.
  - unfold Ext.
    destruct (Ext_scan_dot (rev (list_ascii_of_string (doc_Name doc))) [])
      as [E|[t E]]; rewrite E.
    + now left.
    + right. exists (string_of_list_ascii t). reflexivity.
Qed.

(** ** Descriptions off *)

Lemma forEach_map_ext {A B : Type} (h : A -> B) (body1 : B -> Gen)
    (body2 : A -> Gen) (l : list A) :
  (forall x g, body1 (h x) g = body2 x g) ->
  forall g, forEach (map h l) body1 g = forEach l body2 g.
Proof.
  intros H. unfold forEach. induction l as [|x l IH]; intros g; [reflexivity|].
  cbn [map fold_left]. rewrite H. apply IH.
Qed.

Lemma argumentConfig_off (a : InputValue) :
  argumentConfig false (clearInputValueDoc a) = argumentConfig false a.
Proof. unfold argumentConfig. cbn. destruct (iv_Doc a); reflexivity. Qed.

Lemma interfaceArgumentConfig_off (a : InputValue) :
  interfaceArgumentConfig false (clearInputValueDoc a)
  = interfaceArgumentConfig false a.
Proof. unfold interfaceArgumentConfig. cbn. destruct (iv_Doc a); reflexivity. Qed.

Lemma inputField_off (a : InputValue) :
  inputField false (clearInputValueDoc a) = inputField false a.
Proof. unfold inputField. cbn. destruct (iv_Doc a); reflexivity. Qed.

Lemma argsField_off (args : option (list InputValue)) (g : Generator) :
  argsField false (option_map (map clearInputValueDoc) args) g
  = argsField false args g.
Proof.
  destruct args as [l|]; [|reflexivity].
  cbn [option_map argsField]. unfold seq. f_equal. f_equal.
  apply forEach_map_ext. intros x g0. now rewrite argumentConfig_off.
Qed.

Lemma objectField_off (f : Field) (g : Generator) :
  objectField false (clearFieldDoc f) g = objectField false f g.
Proof.
  unfold objectField, seq. cbn [clearFieldDoc f_Name f_Args f_Type f_Doc].
  rewrite argsField_off. destruct (f_Doc f); reflexivity.
Qed.

Lemma interfaceField_off (f : Field) (g : Generator) :
  interfaceField false (clearFieldDoc f) g = interfaceField false f g.
Proof.
  unfold interfaceField. cbn [clearFieldDoc f_Name f_Args f_Type f_Doc].
  destruct (f_Args f) as [l|]; cbn [option_map]; unfold seq.
  - rewrite (@forEach_map_ext _ _ clearInputValueDoc
               (interfaceArgumentConfig false) (interfaceArgumentConfig false) l)
      by (intros x g0; now rewrite interfaceArgumentConfig_off).
    destruct (f_Doc f); reflexivity.
  - destruct (f_Doc f); reflexivity.
Qed.

Lemma enumValue_off (v : Field) (g : Generator) :
  enumValue false (clearFieldDoc v) g = enumValue false v g.
Proof.
  unfold enumValue, seq. cbn [clearFieldDoc f_Name f_Doc].
  destruct (f_Doc v); reflexivity.
Qed.

Lemma generateObject_off (name : string) (doc : option DocGroup)
    (o : ObjectType) (g : Generator) :
  generateObject name false doc o g
  = generateObject name false None
      {| Interfaces := Interfaces o;
         obj_Fields := map clearFieldDoc (obj_Fields o) |} g.
Proof.
  unfold generateObject, seq. cbn [Interfaces obj_Fields].
  rewrite (@forEach_map_ext _ _ clearFieldDoc (objectField false)
             (objectField false) (obj_Fields o))
    by (intros f g0; apply objectField_off).
  destruct doc; reflexivity.
Qed.

Lemma generateInterface_off (name : string) (doc : option DocGroup)
    (x : InterfaceType) (g : Generator) :
  generateInterface name false doc x g
  = generateInterface name false None
      {| inter_Fields := map clearFieldDoc (inter_Fields x) |} g.
Proof.
  unfold generateInterface, seq. cbn [inter_Fields].
  rewrite (@forEach_map_ext _ _ clearFieldDoc (interfaceField false)
             (interfaceField false) (inter_Fields x))
    by (intros f g0; apply interfaceField_off).
  destruct doc; reflexivity.
Qed.

Lemma generateEnum_off (name : string) (doc : option DocGroup)
    (e : EnumType) (g : Generator) :
  generateEnum name false doc e g
  = generateEnum name false None {| Values := map clearFieldDoc (Values e) |} g.
Proof.
  unfold generateEnum, seq. cbn [Values].
  rewrite (@forEach_map_ext _ _ clearFieldDoc (enumValue false)
             (enumValue false) (Values e))
    by (intros f g0; apply enumValue_off).
  destruct doc; reflexivity.
Qed.

Lemma generateInput_off (name : string) (doc : option DocGroup)
    (x : InputType) (g : Generator) :
  generateInput name false doc x g
  = generateInput name false None
      {| input_Fields := map clearInputValueDoc (input_Fields x) |} g.
Proof.
  unfold generateInput, seq. cbn [input_Fields].
  rewrite (@forEach_map_ext _ _ clearInputValueDoc (inputField false)
             (inputField false) (input_Fields x))
    by (intros f g0; now rewrite inputField_off).
  destruct doc; reflexivity.
Qed.

Lemma generateDirective_off (name : string) (doc : option DocGroup)
    (d : DirectiveType) (g : Generator) :
  generateDirective name false doc d g
  = generateDirective name false None
      {| Locs := Locs d;
         dir_Args := option_map (map clearInputValueDoc) (dir_Args d) |} g.
Proof.
  unfold generateDirective, seq. cbn [Locs dir_Args].
  rewrite argsField_off. destruct doc; reflexivity.
Qed.

(** X15.  With descriptions off no doc comment reaches the output: the
    text of a declaration is the same whatever its doc comment is, and
    the same as for the declaration with the doc comments of all its
    fields, arguments and enum values removed. *)
Theorem generateType_descriptions_off (doc : option DocGroup) (ts : TypeSpec)
    (g : Generator) :
  generateType false doc ts g = generateType false None (clearTypeSpecDocs ts) g.
Proof.
  unfold generateType, clearTypeSpecDocs. cbn [ts_Name ts_Type].
  destruct (ts_Type ts) as [s| |o|x|u|e|x|d]; cbn [clearTypeDocs].
  - reflexivity.
  - destruct doc; reflexivity.
  - apply generateObject_off.
  - apply generateInterface_off.
  - destruct doc; reflexivity.
  - apply generateEnum_off.
  - apply generateInput_off.
  - apply generateDirective_off.
Qed.

(** ** The shape of the declarations *)

(** X16.  Every declaration emitter only appends to the buffer and
    leaves the indent as it found it, whatever the declaration, its doc
    comments and the descriptions switch: what was written before is
    kept, and the text appended depends on the indent only. *)
Theorem generateType_appends (descr : bool) (doc : option DocGroup)
    (ts : TypeSpec) (b i : string) :
  generateType descr doc ts {| Buffer := b; indent := i |}
  = {| Buffer := b ++ emit (generateType descr doc ts) i; indent := i |}.
Proof. apply runs_emits, runs_generateType. Qed.

Lemma one_lt_length {A : Type} (x y : A) (l : list A) :
  (1 <? Z.of_nat (List.length (x :: y :: l)))%Z = true.
Proof. apply Z.ltb_lt. simpl List.length. lia. Qed.

Lemma emit_typeNameLines_rune (names : list Ident) (i : string) :
  emits (forEach names
           (fun mem => P [PString (Name mem); PBytes typeSuffix; PRune ","]))
    i (typeNameLines i names) i.
Proof.
  eapply emits_eq; [apply emits_forEach; intros x; apply emits_P|].
  unfold typeNameLines.
  induction names as [|x l IH]; cbn [fold_right]; [reflexivity|].
  rewrite IH. f_equal; text_norm; reflexivity.
Qed.

Lemma emit_typeNameLines_string (names : list Ident) (i : string) :
  emits (forEach names
           (fun inter => P [PString (Name inter); PBytes typeSuffix; PString ","]))
    i (typeNameLines i names) i.
Proof.
  eapply emits_eq; [apply emits_forEach; intros x; apply emits_P|].
  unfold typeNameLines.
  induction names as [|x l IH]; cbn [fold_right]; [reflexivity|].
  rewrite IH. f_equal; text_norm; reflexivity.
Qed.

Lemma emit_locationLines (locs : list DirectiveLocation) (i : string) :
  emits (forEach locs
           (fun loc => P [PRune quote; PString (Loc_String loc); PString (q ++ ",")]))
    i (fold_right (fun l s => line i (q ++ Loc_String l ++ q ++ ",") ++ s)
         EmptyString locs) i.
Proof.
  eapply emits_eq; [apply emits_forEach; intros x; apply emits_P|].
  induction locs as [|x l IH]; cbn [fold_right]; [reflexivity|].
  rewrite IH. f_equal; text_norm; reflexivity.
Qed.

(** The chain of statements with the loops over names and locations
    written out. *)
Ltac emits_lines :=
  repeat match goal with
  | |- emits (seq _ _) _ _ _ => eapply emits_seq
  | |- emits (forEach _ _) _ _ _ =>
      first [ apply emit_typeNameLines_rune | apply emit_typeNameLines_string
            | apply emit_locationLines ]
  | |- emits skip _ _ _ => apply emits_skip
  | |- emits (Write _) _ _ _ => apply emits_Write
  | |- emits (WriteString _) _ _ _ => apply emits_WriteString
  | |- emits (WriteByte _) _ _ _ => apply emits_WriteByte
  | |- emits WriteIndent _ _ _ => apply emits_WriteIndent
  | |- emits In _ _ _ => apply emits_In
  | |- emits Out _ _ _ => apply emits_Out
  | |- emits (P _) _ _ _ => apply emits_P
  | |- emits _ _ _ _ => apply runs_emits; solve [runs_chain]
  end.

(** X17.  A union with two members or more gets a [Types] field that
    lists every member, in declared order, one per line with the type
    suffix and a comma, between the name and the type resolver. *)
Theorem generateUnion_lists_members (name : string) (descr : bool)
    (doc : option DocGroup) (m1 m2 : Ident) (rest : list Ident) (i : string) :
  emit (generateUnion name descr doc {| Members := m1 :: m2 :: rest |}) i
  = line i "NewUnion(graphql.UnionConfig{"
    ++ line (i ++ tb) ("Name: " ++ q ++ name ++ q ++ ",")
    ++ line (i ++ tb) "Types: []*graphql.Object{"
    ++ typeNameLines ((i ++ tb) ++ tb) (m1 :: m2 :: rest)
    ++ line (i ++ tb) "},"
    ++ line (i ++ tb)
         "ResolveType: func(p graphql.ResolveParams) *graphql.Object { return nil }, // TODO"
    ++ emit (descrField descr doc) (i ++ tb)
    ++ line i "})".
Proof.
  apply emits_emit with (j := i). unfold generateUnion, nameField.
  cbn [Members]. rewrite one_lt_length. cbv iota.
  eapply emits_eq; [emits_lines|].
  generalize (typeNameLines ((i ++ tb) ++ tb) (m1 :: m2 :: rest)). intros T.
  text_norm. reflexivity.
Qed.

(** X18.  The [Locations] field of a directive: nothing for no location;
    for one location one line with the bare tag between braces, without
    quotes and without a comma at the end; for two or more a list with
    one line for each location, in declared order, the tag between quotes
    and followed by a comma. *)
Theorem locationsField_text (locs : list DirectiveLocation) (b i : string) :
  locationsField locs {| Buffer := b; indent := i |}
  = {| Buffer := b ++ locationsText i locs; indent := i |}.
Proof.
  unfold locationsField, locationsText.
  destruct locs as [|l1 [|l2 rest]].
  - cbn. now rewrite append_nil_r.
  - change (1 <? Z.of_nat (List.length [l1]))%Z with false. cbv iota.
    eapply emits_eq; [emits_lines|]. text_norm. reflexivity.
  - rewrite one_lt_length. cbv iota.
    eapply emits_eq; [emits_lines|].
    generalize (fold_right
                  (fun l s => line (i ++ tb) (q ++ Loc_String l ++ q ++ ",") ++ s)
                  EmptyString (l1 :: l2 :: rest)). intros T.
    text_norm. reflexivity.
Qed.

Lemma generateObject_shape (name : string) (descr : bool)
    (doc : option DocGroup) (obj : ObjectType) (i : string) :
  emit (generateObject name descr doc obj) i
  = line i "NewObject(graphql.ObjectConfig{"
    ++ line (i ++ tb) ("Name: " ++ q ++ name ++ q ++ ",")
    ++ interfacesText (i ++ tb) (Interfaces obj)
    ++ line (i ++ tb) "Fields: graphql.Fields{"
    ++ fold_right (fun f s => emit (objectField descr f) ((i ++ tb) ++ tb) ++ s)
         EmptyString (obj_Fields obj)
    ++ line (i ++ tb) "},"
    ++ emit (descrField descr doc) (i ++ tb)
    ++ line i "})".
Proof.
  rewrite <- (@forEach_in_order Field (obj_Fields obj) (objectField descr)
                ((i ++ tb) ++ tb)) by (intros x; apply runs_objectField).
  apply emits_emit with (j := i). unfold generateObject, nameField, interfacesText.
  destruct (Interfaces obj) as [|x [|y rest]].
  - change (1 <? Z.of_nat (List.length (@nil Ident)))%Z with false. cbv iota.
    eapply emits_eq; [emits_lines|]. text_norm. reflexivity.
  - change (1 <? Z.of_nat (List.length [x]))%Z with false. cbv iota.
    eapply emits_eq; [emits_lines|]. text_norm. reflexivity.
  - rewrite one_lt_length. cbv iota.
    eapply emits_eq; [emits_lines|].
    generalize (typeNameLines ((i ++ tb) ++ tb) (x :: y :: rest)). intros T.
    text_norm. reflexivity.
Qed.

(** X19.  An object declaration is the opening line, the name, the
    [Interfaces] field (left out without interfaces, on one line for one
    interface, a list in declared order for more), the [Fields] map with
    the fields in declared order, the description when there is one, and
    the closing line. *)
Theorem generateObject_text (name : string) (descr : bool)
    (doc : option DocGroup) (obj : ObjectType) (i : string) :
  emit (generateObject name descr doc obj) i
  = line i "NewObject(graphql.ObjectConfig{"
    ++ line (i ++ tb) ("Name: " ++ q ++ name ++ q ++ ",")
    ++ interfacesText (i ++ tb) (Interfaces obj)
    ++ line (i ++ tb) "Fields: graphql.Fields{"
    ++ fold_right (fun f s => emit (objectField descr f) ((i ++ tb) ++ tb) ++ s)
         EmptyString (obj_Fields obj)
    ++ line (i ++ tb) "},"
    ++ emit (descrField descr doc) (i ++ tb)
    ++ line i "})".
Proof. apply generateObject_shape. Qed.

Lemma emit_descrField_empty (d : DocGroup) (i : string) :
  Text d = EmptyString -> emit (descrField true (Some d)) i = nl.
Proof.
  intros H. unfold emit, descrField, printDescr, seq. rewrite H. reflexivity.
Qed.

(** X20.  A doc comment whose text is empty gives no description field,
    but where the description is written by [printDescr] the line end
    after it is still written: with descriptions on, an object with such
    a doc comment gets an empty line, without indent, before its closing
    line.  A scalar, whose description goes through [P], gets none. *)
Theorem empty_doc_text_leaves_blank_line (name : string) (d : DocGroup)
    (obj : ObjectType) (i : string) :
  Text d = EmptyString ->
  exists pre,
    emit (generateObject name true None obj) i = pre ++ line i "})" /\
    emit (generateObject name true (Some d) obj) i = pre ++ nl ++ line i "})" /\
    emit (generateScalar name true (Some d)) i
    = emit (generateScalar name true None) i.
Proof.
  intros H. rewrite !generateObject_shape, (@emit_descrField_empty d (i ++ tb) H).
  eexists. split; [|split].
  - change (emit (descrField true None) (i ++ tb)) with EmptyString.
    cbn [append]. rewrite <- !append_assoc. reflexivity.
  - rewrite <- !append_assoc. reflexivity.
  - unfold generateScalar, descrP. rewrite H. reflexivity.
Qed.

Lemma empty_doc_text_leaves_blank_line_witness :
  Text {| Text := EmptyString |} = EmptyString /\
  exists pre,
    emit (generateObject "Query" true None
            {| Interfaces := []; obj_Fields := [] |}) EmptyString
    = pre ++ line EmptyString "})" /\
    emit (generateObject "Query" true (Some {| Text := EmptyString |})
            {| Interfaces := []; obj_Fields := [] |}) EmptyString
    = pre ++ nl ++ line EmptyString "})" /\
    emit (generateScalar "Query" true (Some {| Text := EmptyString |})) EmptyString
    = emit (generateScalar "Query" true None) EmptyString.
Proof.
  split; [reflexivity|].
  apply (@empty_doc_text_leaves_blank_line "Query" {| Text := EmptyString |}
           {| Interfaces := []; obj_Fields := [] |} EmptyString).
  reflexivity.
Defined.

(** ** Descriptions on without doc comments *)

Lemma forEach_map_switch {A B : Type} (h : A -> B) (b1 b2 : B -> Gen)
    (l : list A) :
  (forall x g, b1 (h x) g = b2 (h x) g) ->
  forall g, forEach (map h l) b1 g = forEach (map h l) b2 g.
Proof.
  intros H. unfold forEach. induction l as [|x l IH]; intros g; [reflexivity|].
  cbn [map fold_left]. rewrite H. apply IH.
Qed.

Lemma argsField_switch (args : option (list InputValue)) (g : Generator) :
  argsField true (option_map (map clearInputValueDoc) args) g
  = argsField false (option_map (map clearInputValueDoc) args) g.
Proof.
  destruct args as [l|]; [|reflexivity].
  cbn [option_map argsField]. unfold seq. f_equal. f_equal.
  apply forEach_map_switch. reflexivity.
Qed.

Lemma objectField_switch (f : Field) (g : Generator) :
  objectField true (clearFieldDoc f) g = objectField false (clearFieldDoc f) g.
Proof.
  unfold objectField, seq. cbn [clearFieldDoc f_Name f_Args f_Type f_Doc].
  rewrite argsField_switch. reflexivity.
Qed.

Lemma interfaceField_switch (f : Field) (g : Generator) :
  interfaceField true (clearFieldDoc f) g = interfaceField false (clearFieldDoc f) g.
Proof.
  unfold interfaceField. cbn [clearFieldDoc f_Name f_Args f_Type f_Doc].
  destruct (f_Args f) as [l|]; cbn [option_map]; unfold seq; [|reflexivity].
  rewrite (@forEach_map_switch _ _ clearInputValueDoc
             (interfaceArgumentConfig true) (interfaceArgumentConfig false) l)
    by reflexivity.
  reflexivity.
Qed.

(** X21.  With descriptions on, a declaration without any doc comment is
    written exactly as with descriptions off: the switch shows only
    where there is a doc comment. *)
Theorem generateType_without_docs (ts : TypeSpec) (g : Generator) :
  generateType true None (clearTypeSpecDocs ts) g
  = generateType false None (clearTypeSpecDocs ts) g.
Proof.
  unfold generateType, clearTypeSpecDocs. cbn [ts_Name ts_Type].
  destruct (ts_Type ts) as [s| |o|x|u|e|x|d]; cbn [clearTypeDocs];
    try reflexivity.
  - unfold seq at 1 11. unfold generateObject, seq. cbn [Interfaces obj_Fields].
    rewrite (@forEach_map_switch _ _ clearFieldDoc (objectField true)
               (objectField false) (obj_Fields o))
      by (intros f g0; apply objectField_switch).
    reflexivity.
  - unfold seq at 1 11. unfold generateInterface, seq. cbn [inter_Fields].
    rewrite (@forEach_map_switch _ _ clearFieldDoc (interfaceField true)
               (interfaceField false) (inter_Fields x))
      by (intros f g0; apply interfaceField_switch).
    reflexivity.
  - unfold seq at 1 11. unfold generateEnum, seq. cbn [Values].
    rewrite (@forEach_map_switch _ _ clearFieldDoc (enumValue true)
               (enumValue false) (Values e)) by reflexivity.
    reflexivity.
  - unfold seq at 1 11. unfold generateInput, seq. cbn [input_Fields].
    rewrite (@forEach_map_switch _ _ clearInputValueDoc (inputField true)
               (inputField false) (input_Fields x)) by reflexivity.
    reflexivity.
  - unfold seq at 1 11. unfold generateDirective, seq. cbn [Locs dir_Args].
    rewrite argsField_switch. reflexivity.
Qed.

(** ** The loop over the declarations, when it ends on an emitted one *)

(** X22.  When the last declaration of the document is one the loop
    emits, the loop writes the emitted declarations in document order
    with exactly one blank line between two of them and none after the
    last; declarations that are skipped in between (the schema, type
    extensions) leave no trace. *)
Theorem typesLoop_last_emitted (descr : bool) (ds : list TypeDecl)
    (g : Generator) :
  lastSkipped ds = false ->
  typesLoop descr (Z.of_nat (List.length ds) - 1) 0 ds g
  = spec_declarations descr (emittedDecls ds) g.
Proof.
  intros H. rewrite typesLoop_spec. unfold trailingBlank. rewrite H.
  reflexivity.
Qed.

Lemma typesLoop_last_emitted_witness :
  lastSkipped (Types docSchemaFirst) = false /\
  typesLoop true 1 0 (Types docSchemaFirst)
    {| Buffer := EmptyString; indent := EmptyString |}
  = spec_declarations true (emittedDecls (Types docSchemaFirst))
      {| Buffer := EmptyString; indent := EmptyString |}.
Proof.
  split; [reflexivity|].
  apply (@typesLoop_last_emitted true (Types docSchemaFirst)
           {| Buffer := EmptyString; indent := EmptyString |}).
  reflexivity.
Defined.

(** X23.  A document in which no declaration is emitted (it is empty, or
    holds the schema and type extensions only) makes the loop write
    nothing at all. *)
Theorem typesLoop_nothing_emitted (descr : bool) (ds : list TypeDecl)
    (g : Generator) :
  emittedDecls ds = [] ->
  typesLoop descr (Z.of_nat (List.length ds) - 1) 0 ds g = g.
Proof.
  intros H. rewrite typesLoop_spec. unfold trailingBlank. rewrite H.
  rewrite andb_false_r. reflexivity.
Qed.

Lemma typesLoop_nothing_emitted_witness :
  emittedDecls [schemaDecl; {| td_Doc := None; Spec := TypeDecl_TypeExtSpec |}] = [] /\
  typesLoop true 1 0 [schemaDecl; {| td_Doc := None; Spec := TypeDecl_TypeExtSpec |}]
    {| Buffer := "x"; indent := tb |}
  = {| Buffer := "x"; indent := tb |}.
Proof.
  split; [reflexivity|].
  apply (@typesLoop_nothing_emitted true
           [schemaDecl; {| td_Doc := None; Spec := TypeDecl_TypeExtSpec |}]
           {| Buffer := "x"; indent := tb |}).
  reflexivity.
Defined.

(** ** Enum values *)

(** An enum value is written as an entry keyed by its name whose
    [Value] is that same name as a string, followed by the description
    when there is one. *)
Lemma enumValue_text (descr : bool) (v : Field) (i : string) :
  emit (enumValue descr v) i
  = line i (q ++ Name (f_Name v) ++ q ++ ": &graphql.EnumValueConfig{")
    ++ line (i ++ tb) ("Value: " ++ q ++ Name (f_Name v) ++ q ++ ",")
    ++ emit (descrField descr (f_Doc v)) (i ++ tb)
    ++ line i "},".
Proof.
  apply emits_emit with (j := i). unfold enumValue.
  eapply emits_eq; [emits_chain|]. text_norm. reflexivity.
Qed.

(** ** The comparison helper of the tests *)

Lemma get_length_app (a : string) (b : ascii) (r : string) :
  String.get (String.length a) (a ++ String b r) = Some b.
Proof. induction a as [|c a IH]; simpl; auto. Qed.

Lemma get_beyond (a : string) : String.get (String.length a) a = None.
Proof. induction a as [|c a IH]; simpl; auto. Qed.

Lemma compareLoop_prefix (out : string) :
  forall a rest line,
    compareLoop (a ++ out ++ rest) out (String.length a) line = Pass.
Proof.
  induction out as [|b out IH]; intros a rest line; [reflexivity|].
  cbn [compareLoop]. cbn [append]. rewrite get_length_app, Ascii.eqb_refl.
  replace (a ++ String b (out ++ rest)) with ((a ++ str1 b) ++ out ++ rest)
    by (rewrite append_assoc; reflexivity).
  replace (S (String.length a)) with (String.length (a ++ str1 b))
    by (rewrite length_append; simpl; lia).
  apply IH.
Qed.

(** X24.  [compareBytes] lets every output pass that is a prefix of the
    expected text, whatever [EqualFold] says: it walks the output only,
    so the bytes of the expected text after the end of the output are
    never looked at.  The empty output passes every comparison. *)
Theorem compareBytes_accepts_prefix (EqualFold : string -> string -> bool)
    (out rest : string) :
  compareBytes EqualFold (out ++ rest) out = Pass /\
  compareBytes EqualFold rest EmptyString = Pass.
Proof.
  split.
  - unfold compareBytes. destruct (EqualFold out (out ++ rest)); [reflexivity|].
    apply (compareLoop_prefix out EmptyString rest 1).
  - unfold compareBytes. destruct (EqualFold EmptyString rest); reflexivity.
Qed.

Lemma compareLoop_beyond (ex : string) :
  forall a b r line,
    compareLoop (a ++ ex) (ex ++ String b r) (String.length a) line = IndexPanic.
Proof.
  induction ex as [|c ex IH]; intros a b r line.
  - cbn [append compareLoop]. rewrite append_nil_r, get_beyond. reflexivity.
  - cbn [append compareLoop]. rewrite get_length_app, Ascii.eqb_refl.
    replace (a ++ String c ex) with ((a ++ str1 c) ++ ex)
      by (rewrite append_assoc; reflexivity).
    replace (S (String.length a)) with (String.length (a ++ str1 c))
      by (rewrite length_append; simpl; lia).
    apply IH.
Qed.

(** X25.  When the output is the expected text followed by more bytes
    and [EqualFold] rejects it, [compareBytes] does not report a failed
    test: it indexes the expected text past its end and panics. *)
Theorem compareBytes_longer_output_panics (EqualFold : string -> string -> bool)
    (ex : string) (b : ascii) (r : string) :
  EqualFold (ex ++ String b r) ex = false ->
  compareBytes EqualFold ex (ex ++ String b r) = IndexPanic.
Proof.
  intros H. unfold compareBytes. rewrite H.
  apply (compareLoop_beyond ex EmptyString b r 1).
Qed.

Lemma compareBytes_longer_output_panics_witness :
  equalOnly ("})" ++ String newline "x") "})" = false /\
  compareBytes equalOnly "})" ("})" ++ String newline "x") = IndexPanic.
Proof.
  split; [reflexivity|].
  apply (@compareBytes_longer_output_panics equalOnly "})" newline "x").
  reflexivity.
Defined.

(** X26.  When the output and the expected text agree up to a byte where
    they differ and [EqualFold] rejects the output, [compareBytes] fails
    the test at that byte, with its index and with the line counted from
    the line ends before it and the differing byte itself. *)
Theorem compareBytes_reports_first_difference
    (EqualFold : string -> string -> bool)
    (a : string) (e b : ascii) (r1 r2 : string) :
  EqualFold (a ++ String b r2) (a ++ String e r1) = false ->
  e <> b ->
  exists line,
    compareBytes EqualFold (a ++ String e r1) (a ++ String b r2)
    = Fatal e b (String.length a) line.
Proof.
  intros H Hne. unfold compareBytes. rewrite H.
  assert (G : forall p line,
            exists line',
              compareLoop (p ++ a ++ String e r1) (a ++ String b r2)
                (String.length p) line
              = Fatal e b (String.length p + String.length a) line').
  { clear H. induction a as [|c a IH]; intros p line.
    - cbn [append compareLoop]. rewrite get_length_app.
      destruct (Ascii.eqb_spec e b); [contradiction|].
      rewrite Nat.add_0_r. eexists. reflexivity.
    - cbn [append compareLoop]. rewrite get_length_app, Ascii.eqb_refl.
      replace (p ++ String c (a ++ String e r1))
        with ((p ++ str1 c) ++ a ++ String e r1)
        by (rewrite append_assoc; reflexivity).
      replace (S (String.length p)) with (String.length (p ++ str1 c))
        by (rewrite length_append; simpl; lia).
      destruct (IH (p ++ str1 c)
                  (if Ascii.eqb c newline then S line else line)) as [l' Hl].
      exists l'. rewrite Hl. f_equal. rewrite length_append. simpl. lia. }
  destruct (G EmptyString 1%nat) as [l Hl]. exists l. exact Hl.
Qed.

Lemma compareBytes_reports_first_difference_witness :
  equalOnly ("Name" ++ String "x" "") ("Name" ++ String ":" " ") = false /\
  "058"%char <> "120"%char /\
  exists line,
    compareBytes equalOnly ("Name" ++ String ":" " ") ("Name" ++ String "x" "")
    = Fatal ":" "x" 4 line.
Proof.
  split; [reflexivity|]. split; [discriminate|].
  apply (@compareBytes_reports_first_difference equalOnly "Name" ":" "x" " " "");
    [reflexivity|discriminate].
Defined.

(** * The output as a function of the document *)

(** ** Every emitter writes its lists in declared order *)

Lemma inOrder_forEach {A : Type} (l : list A) (body : A -> Gen) (i : string) :
  (forall x, runs (body x) i i) ->
  inOrder (fun x => emit (body x) i) l = emit (forEach l body) i.
Proof. intros H. unfold inOrder. symmetry. now apply forEach_in_order. Qed.

Lemma argsField_text (descr : bool) (args : option (list InputValue))
    (i : string) :
  emits (argsField descr args) i
    (argsText (fun j a => emit (argumentConfig descr a) j) i args) i.
Proof.
  unfold argsField, argsText. destruct args as [l|]; [|apply emits_skip].
  rewrite (@inOrder_forEach InputValue l (argumentConfig descr) (i ++ tb))
    by (intros x; apply runs_argumentConfig).
  eapply emits_eq; [emits_lines|]. text_norm. reflexivity.
Qed.

Lemma objectField_shape (descr : bool) (f : Field) (i : string) :
  emit (objectField descr f) i
  = line i (q ++ Name (f_Name f) ++ q ++ ": &graphql.Field{")
    ++ line (i ++ tb) ("Type: " ++ emit (printTypeOf (f_Type f)) (i ++ tb) ++ ",")
    ++ argsText (fun j a => emit (argumentConfig descr a) j) (i ++ tb) (f_Args f)
    ++ line (i ++ tb)
         "Resolve: func(p graphql.ResolveParams) (interface{}, error) { return nil, nil }, // TODO"
    ++ emit (descrField descr (f_Doc f)) (i ++ tb)
    ++ line i "},".
Proof.
  apply emits_emit with (j := i). unfold objectField, resolveField.
  eapply emits_eq.
  - repeat match goal with
    | |- emits (seq _ _) _ _ _ => eapply emits_seq
    | |- emits (argsField _ _) _ _ _ => apply argsField_text
    end; emits_lines.
  - generalize (argsText (fun j a => emit (argumentConfig descr a) j)
                  (i ++ tb) (f_Args f)). intros T.
    text_norm. reflexivity.
Qed.

Lemma interfaceField_shape (descr : bool) (f : Field) (i : string) :
  emit (interfaceField descr f) i
  = line i (q ++ Name (f_Name f) ++ q ++ ": &graphql.Field{")
    ++ line (i ++ tb) ("Type: " ++ emit (printTypeOf (f_Type f)) (i ++ tb) ++ ",")
    ++ argsText (fun j a => emit (interfaceArgumentConfig descr a) j) (i ++ tb)
         (f_Args f)
    ++ emit (descrField descr (f_Doc f)) (i ++ tb)
    ++ line i "},".
Proof.
  apply emits_emit with (j := i). unfold interfaceField, argsText.
  destruct (f_Args f) as [l|].
  - rewrite (@inOrder_forEach InputValue l (interfaceArgumentConfig descr)
               ((i ++ tb) ++ tb))
      by (intros x; apply runs_interfaceArgumentConfig).
    eapply emits_eq; [emits_lines|]. text_norm. reflexivity.
  - eapply emits_eq; [emits_lines|]. text_norm. reflexivity.
Qed.

Lemma generateInterface_shape (name : string) (descr : bool)
    (doc : option DocGroup) (inter : InterfaceType) (i : string) :
  emit (generateInterface name descr doc inter) i
  = line i "NewInterface(graphql.InterfaceConfig{"
    ++ line (i ++ tb) ("Name: " ++ q ++ name ++ q ++ ",")
    ++ line (i ++ tb) "Fields: graphql.Fields{"
    ++ inOrder (fun f => emit (interfaceField descr f) ((i ++ tb) ++ tb))
         (inter_Fields inter)
    ++ line (i ++ tb) "},"
    ++ emit (descrField descr doc) (i ++ tb)
    ++ line i "})".
Proof.
  rewrite (@inOrder_forEach Field (inter_Fields inter) (interfaceField descr)
             ((i ++ tb) ++ tb)) by (intros x; apply runs_interfaceField).
  apply emits_emit with (j := i). unfold generateInterface, nameField.
  eapply emits_eq; [emits_lines|]. text_norm. reflexivity.
Qed.

Lemma generateUnion_shape (name : string) (descr : bool)
    (doc : option DocGroup) (union : UnionType) (i : string) :
  emit (generateUnion name descr doc union) i
  = line i "NewUnion(graphql.UnionConfig{"
    ++ line (i ++ tb) ("Name: " ++ q ++ name ++ q ++ ",")
    ++ unionTypesText (i ++ tb) (Members union)
    ++ line (i ++ tb)
         "ResolveType: func(p graphql.ResolveParams) *graphql.Object { return nil }, // TODO"
    ++ emit (descrField descr doc) (i ++ tb)
    ++ line i "})".
Proof.
  apply emits_emit with (j := i). unfold generateUnion, nameField, unionTypesText.
  destruct (Members union) as [|x [|y rest]].
  - change (1 <? Z.of_nat (List.length (@nil Ident)))%Z with false. cbv iota.
    eapply emits_eq; [emits_lines|]. text_norm. reflexivity.
  - change (1 <? Z.of_nat (List.length [x]))%Z with false. cbv iota.
    eapply emits_eq; [emits_lines|]. text_norm. reflexivity.
  - rewrite one_lt_length. cbv iota.
    eapply emits_eq; [emits_lines|].
    generalize (typeNameLines ((i ++ tb) ++ tb) (x :: y :: rest)). intros T.
    text_norm. reflexivity.
Qed.

Lemma generateEnum_shape (name : string) (descr : bool)
    (doc : option DocGroup) (enum : EnumType) (i : string) :
  emit (generateEnum name descr doc enum) i
  = line i "NewEnum(graphql.EnumConfig{"
    ++ line (i ++ tb) ("Name: " ++ q ++ name ++ q ++ ",")
    ++ emit (descrField descr doc) (i ++ tb)
    ++ line (i ++ tb) "Values: graphql.EnumValueConfigMap{"
    ++ inOrder (fun v => emit (enumValue descr v) ((i ++ tb) ++ tb))
         (Values enum)
    ++ line (i ++ tb) "},"
    ++ line i "})".
Proof.
  rewrite (@inOrder_forEach Field (Values enum) (enumValue descr)
             ((i ++ tb) ++ tb)) by (intros x; apply runs_enumValue).
  apply emits_emit with (j := i). unfold generateEnum, nameField.
  eapply emits_eq; [emits_lines|]. text_norm. reflexivity.
Qed.

Lemma generateInput_shape (name : string) (descr : bool)
    (doc : option DocGroup) (input : InputType) (i : string) :
  emit (generateInput name descr doc input) i
  = line i "NewInputObject(graphql.InputObjectConfig{"
    ++ line (i ++ tb) ("Name: " ++ q ++ name ++ q ++ ",")
    ++ line (i ++ tb) "Fields: graphql.InputObjectFieldConfigMap{"
    ++ inOrder (fun f => emit (inputField descr f) ((i ++ tb) ++ tb))
         (input_Fields input)
    ++ line (i ++ tb) "},"
    ++ emit (descrField descr doc) (i ++ tb)
    ++ line i "})".
Proof.
  rewrite (@inOrder_forEach InputValue (input_Fields input) (inputField descr)
             ((i ++ tb) ++ tb)) by (intros x; apply runs_inputField).
  apply emits_emit with (j := i). unfold generateInput, nameField.
  eapply emits_eq; [emits_lines|]. text_norm. reflexivity.
Qed.

Lemma emits_locationsField (locs : list DirectiveLocation) (i : string) :
  emits (locationsField locs) i (locationsText i locs) i.
Proof.
  unfold locationsField, locationsText.
  destruct locs as [|l1 [|l2 rest]].
  - intros b. cbn. now rewrite append_nil_r.
  - change (1 <? Z.of_nat (List.length [l1]))%Z with false. cbv iota.
    eapply emits_eq; [emits_lines|]. text_norm. reflexivity.
  - rewrite one_lt_length. cbv iota.
    eapply emits_eq; [emits_lines|].
    generalize (fold_right
                  (fun l s => line (i ++ tb) (q ++ Loc_String l ++ q ++ ",") ++ s)
                  EmptyString (l1 :: l2 :: rest)). intros T.
    text_norm. reflexivity.
Qed.

Lemma generateDirective_shape (name : string) (descr : bool)
    (doc : option DocGroup) (directive : DirectiveType) (i : string) :
  emit (generateDirective name descr doc directive) i
  = line i "NewDirective(graphql.DirectiveConfig{"
    ++ line (i ++ tb) ("Name: " ++ q ++ name ++ q ++ ",")
    ++ emit (descrP descr doc) (i ++ tb)
    ++ locationsText (i ++ tb) (Locs directive)
    ++ argsText (fun j a => emit (argumentConfig descr a) j) (i ++ tb)
         (dir_Args directive)
    ++ line i "})".
Proof.
  apply emits_emit with (j := i). unfold generateDirective, nameField.
  eapply emits_eq.
  - repeat match goal with
    | |- emits (seq _ _) _ _ _ => eapply emits_seq
    | |- emits (argsField _ _) _ _ _ => apply argsField_text
    | |- emits (locationsField _) _ _ _ => apply emits_locationsField
    end; emits_lines.
  - generalize (argsText (fun j a => emit (argumentConfig descr a) j)
                  (i ++ tb) (dir_Args directive)).
    generalize (locationsText (i ++ tb) (Locs directive)). intros L T.
    text_norm. reflexivity.
Qed.

(** ** The text of a run that ends without error *)

Lemma emits_spec_declarations (descr : bool)
    (eds : list (option DocGroup * TypeSpec)) :
  emits (spec_declarations descr eds) EmptyString
    (String.concat nl (map (declText descr) eds)) EmptyString.
Proof.
  induction eds as [|[doc ts] rest IH]; [apply emits_skip|].
  destruct rest as [|r rest'].
  - cbn [spec_declarations map String.concat]. unfold declText. cbn [fst snd].
    apply runs_emits, runs_generateType.
  - change (spec_declarations descr ((doc, ts) :: r :: rest'))
      with (generateType descr doc ts ;; P [] ;; spec_declarations descr (r :: rest')).
    change (String.concat nl (map (declText descr) ((doc, ts) :: r :: rest')))
      with (declText descr (doc, ts) ++ nl
            ++ String.concat nl (map (declText descr) (r :: rest'))).
    eapply emits_eq.
    + eapply emits_seq; [eapply emits_seq|];
        [apply runs_emits, runs_generateType | apply emits_P | exact IH].
    + unfold declText, line. cbn [fst snd P_text append].
      rewrite !append_assoc. reflexivity.
Qed.

Lemma emits_typesLoop (descr : bool) (ds : list TypeDecl) :
  emits (typesLoop descr (Z.of_nat (List.length ds) - 1) 0 ds) EmptyString
    (String.concat nl (map (declText descr) (emittedDecls ds))
     ++ (if trailingBlank ds then nl else EmptyString))
    EmptyString.
Proof.
  intros b. rewrite typesLoop_spec. revert b.
  change (emits (spec_declarations descr (emittedDecls ds) ;;
                 (if trailingBlank ds then P [] else skip)) EmptyString
            (String.concat nl (map (declText descr) (emittedDecls ds))
             ++ (if trailingBlank ds then nl else EmptyString))
            EmptyString).
  eapply emits_seq; [apply emits_spec_declarations|].
  destruct (trailingBlank ds); [|apply emits_skip].
  eapply emits_eq; [apply emits_P|]. reflexivity.
Qed.

Lemma emits_declarations (gOpts : Options) (doc : Document) :
  emits (declarations gOpts doc) EmptyString
    (headerFor (Package gOpts) ++ schemaVarText doc
     ++ String.concat nl
          (map (declText (Descriptions gOpts)) (emittedDecls (Types doc)))
     ++ (if trailingBlank (Types doc) then nl else EmptyString))
    EmptyString.
Proof.
  unfold declarations, schemaVarText.
  destruct (Schema doc).
  - eapply emits_eq.
    + eapply emits_seq; [eapply emits_seq|];
        [apply emits_writeHeader | emits_chain | apply emits_typesLoop].
    + unfold line. cbn [P_text append].
      rewrite ?PArg_text_PString, ?append_assoc, ?append_nil_r. reflexivity.
  - eapply emits_eq.
    + eapply emits_seq; [eapply emits_seq|];
        [apply emits_writeHeader | apply emits_skip | apply emits_typesLoop].
    + cbn [append]. rewrite ?append_assoc, ?append_nil_r. reflexivity.
Qed.

Lemma rootOpsLoop_done (rootOps : list Field) (b i : string) (g : Generator) :
  rootOpsLoop rootOps {| Buffer := b; indent := i |} = (g, None) ->
  g = {| Buffer := b ++ inOrder (rootOpLine i) rootOps; indent := i |}.
Proof.
  intros H. destruct (rootOpsOk rootOps) eqn:Hok.
  - rewrite (rootOpsLoop_ok _ b i Hok) in H. now injection H as <-.
  - pose proof (rootOpsLoop_panics _ b i Hok) as Hp. rewrite H in Hp.
    discriminate.
Qed.

Lemma schemaInit_done (doc : Document) (b : string) (g : Generator) :
  schemaInit doc {| Buffer := b; indent := EmptyString |} = (g, None) ->
  Buffer g = b ++ schemaBlockText doc.
Proof.
  unfold schemaInit, schemaBlockText. destruct (Schema doc) as [sd|].
  - rewrite (emits_schemaOpen EmptyString b).
    destruct (Spec sd) as [ts|]; [|discriminate].
    destruct (ts_Type ts) as [s| | | | | | |]; try discriminate.
    destruct (rootOpsLoop (RootOps s) _) as [g1 [m|]] eqn:E; [discriminate|].
    apply rootOpsLoop_done in E. subst g1.
    rewrite (emits_schemaClose EmptyString). intros H. injection H as <-.
    cbn [Buffer]. unfold line. cbn [append]. rewrite !append_assoc.
    reflexivity.
  - intros H. injection H as <-. cbn [Buffer]. now rewrite append_nil_r.
Qed.

Lemma assemble_done (gOpts : Options) (doc : Document) (g g' : Generator) :
  assemble gOpts doc (Reset g) = (g', None) ->
  Buffer g' = outputText gOpts doc.
Proof.
  unfold assemble, Reset. rewrite (emits_declarations gOpts doc EmptyString).
  cbn [append]. intros H. apply schemaInit_done in H. rewrite H.
  unfold outputText. rewrite !append_assoc. reflexivity.
Qed.

Lemma Generate_returns_nil
    (json_Unmarshal : string -> Options -> Options * option string)
    (g : Generator) (gCtx : GeneratorContext) (doc : Document) (opts : string) :
  outcome (Generate json_Unmarshal g gCtx doc opts) = Returned None ->
  exists gOpts,
    getOptions json_Unmarshal doc opts = Done (gOpts, None) /\
    events (Generate json_Unmarshal g gCtx doc opts)
    = [EvOpen (goFileName doc ++ ".go"); EvWrite (outputText gOpts doc); EvClose] /\
    final (Generate json_Unmarshal g gCtx doc opts)
    = {| Buffer := EmptyString; indent := EmptyString |}.
Proof.
  unfold Generate.
  destruct (getOptions json_Unmarshal doc opts) as [[gOpts [oerr|]]|m];
    try discriminate.
  destruct (assemble gOpts doc (Reset g)) as [g' [m|]] eqn:Ea; try discriminate.
  pose proof (assemble_not_empty gOpts doc g) as Hn.
  pose proof (assemble_indent gOpts doc g) as Hi.
  rewrite Ea in Hn, Hi. cbn [fst snd] in Hn, Hi.
  destruct (Open gCtx (goFileName doc ++ ".go")) as [[goFile|] [err|]];
    try discriminate.
  unfold WriteTo. rewrite Hn.
  destruct (wc_Write goFile (Buffer g')) as [m e].
  destruct (String.length (Buffer g') <? m)%nat; [discriminate|].
  destruct e as [err|]; [discriminate|].
  destruct (negb (m =? String.length (Buffer g'))%nat); [discriminate|].
  intros _. exists gOpts. split; [reflexivity|]. cbn [events final].
  rewrite <- (assemble_done _ _ _ Ea), (Hi eq_refl). split; reflexivity.
Qed.

(** ** Determinism *)


